(** * Connected-component labelling of libkoki (src/labelling.c)

    A shallow embedding of [labelling.c]: the padded label grid, the alias
    table, the per-pixel labelling step, the labelling pass, the
    statistics pass and the debug image, followed by the properties of the
    specification that were checked against them and by further properties
    of the code.

    Conventions of the embedding.
    - C integers are [Z]; every conversion to [uint8_t], [uint16_t] or
      [int16_t] that the source performs is written out with [u8], [u16]
      or [i16].
    - A heap block ([data] of the labelled image, the storage of a
      [GArray]) is a finite map from element index to value.  A key that
      is absent is a cell that is outside the block or was never written.
    - A computation returns [option]: [None] stands for every behaviour
      of the C program that does not produce a result state, that is a
      failed [assert], an access outside a block, a read of a cell that
      was never written, a signed overflow, or a loop whose 16-bit counter
      can never reach its bound. *)

From stdpp Require Import gmap list numbers option relations.
From Stdlib Require Import ZArith QArith Qround Lia.
Open Scope Z_scope.

(** * The program *)

(** ** Machine integers *)

Definition u8 (z : Z) : Z := z mod 256.
Definition u16 (z : Z) : Z := z mod 65536.
Definition i16 (z : Z) : Z := (z + 32768) mod 65536 - 32768.
Definition INT_MAX : Z := 2147483647.

(** Conversion of a floating-point value to an integer type discards the
    fractional part (C99 6.3.1.4). *)
Definition Qtrunc (q : Q) : Z := Z.quot (Qnum q) (Z.pos (Qden q)).

(** ** Loops *)

(** [iterM n i body s] runs [body i], [body (i+1)], ... [n] times. *)
Fixpoint iterM {St : Type} (n : nat) (i : Z) (body : Z → St → option St)
    (s : St) : option St :=
  match n with
  | O => Some s
  | S n' =>
      match body i s with
      | Some s' => iterM n' (i + 1) body s'
      | None => None
      end
  end.

(** [for (int i = lo; i < bound; i++) body] *)
Definition for_int {St : Type} (lo bound : Z) (body : Z → St → option St)
    (s : St) : option St :=
  iterM (Z.to_nat (bound - lo)) lo body s.

(** [for (uint16_t i = lo; i < bound; i++) body], the comparison being made
    in [int].  The counter holds at most 65535: when [bound] is larger the
    exit test never fails and the loop does not terminate. *)
Definition for_u16 {St : Type} (lo bound : Z) (body : Z → St → option St)
    (s : St) : option St :=
  if 65535 <? bound then None else iterM (Z.to_nat (bound - lo)) lo body s.

(** ** GLib arrays *)

(** A [GArray]: its storage and its [len] field. *)
Record GArray (A : Type) := mkGArray { elts : gmap Z A; len : Z }.
Arguments mkGArray {A} _ _.
Arguments elts {A} _.
Arguments len {A} _.

Definition g_array_new {A : Type} : GArray A := mkGArray ∅ 0.

(** [g_array_append_val (a, v)].  The field [len] is a [guint]; an array
    never holds more elements than the image has pixels, so that its
    increment does not wrap. *)
Definition g_array_append_val {A : Type} (a : GArray A) (v : A) : GArray A :=
  mkGArray (<[len a := v]> (elts a)) (len a + 1).

(** [g_array_index (a, T, i)] read as a value.  GLib checks nothing: an index
    outside the array is an access outside the block. *)
Definition g_array_index {A : Type} (a : GArray A) (i : Z) : option A :=
  if (0 <=? i) && (i <? len a) then elts a !! i else None.

(** [g_array_index (a, T, i) = v] *)
Definition g_array_set {A : Type} (a : GArray A) (i : Z) (v : A)
    : option (GArray A) :=
  if (0 <=? i) && (i <? len a)
  then Some (mkGArray (<[i := v]> (elts a)) (len a))
  else None.

(** ** Data model *)

(** The fields of [IplImage] that the labelling reads.  [imageData] gives
    the byte stored at each offset of the pixel buffer. *)
Record IplImage := mkIplImage
  { width : Z; height : Z; widthStep : Z; imageData : Z → Z }.

Definition KOKI_IPLIMAGE_ELEM (img : IplImage) (x y rgb : Z) : Z :=
  u8 (imageData img (widthStep img * y + (x * 3 + rgb))).

Record koki_point2Dui_t := mkPoint { pt_x : Z; pt_y : Z }.

(** Modelled from the spec: the declaration of [koki_clip_region_t]
    ([labelling.h] is absent).  The spec gives a region a [mass], the count
    of its pixels, and the two inclusive corners of its bounding box; the
    count is kept as an unbounded integer. *)
Record koki_clip_region_t := mkClip
  { mass : Z; clip_min : koki_point2Dui_t; clip_max : koki_point2Dui_t }.

Record koki_labelled_image_t := mkLabelled
  { data : gmap Z Z;
    w : Z;
    h : Z;
    aliases : GArray Z;
    clips : GArray koki_clip_region_t }.

Definition with_data (li : koki_labelled_image_t) (d : gmap Z Z) :=
  mkLabelled d (w li) (h li) (aliases li) (clips li).
Definition with_aliases (li : koki_labelled_image_t) (a : GArray Z) :=
  mkLabelled (data li) (w li) (h li) a (clips li).
Definition with_clips (li : koki_labelled_image_t)
    (c : GArray koki_clip_region_t) :=
  mkLabelled (data li) (w li) (h li) (aliases li) c.

(** Number of [uint16_t] cells of the block [data]. *)
Definition data_len (li : koki_labelled_image_t) : Z :=
  (w li + 2) * (h li + 2).

(** [data[i] = v] *)
Definition data_store (li : koki_labelled_image_t) (i v : Z)
    : option koki_labelled_image_t :=
  if (0 <=? i) && (i <? data_len li)
  then Some (with_data li (<[i := v]> (data li)))
  else None.

(** Index of the cell of logical coordinate [(x, y)]. *)
Definition label_index (li : koki_labelled_image_t) (x y : Z) : Z :=
  (y + 1) * (w li + 2) + (x + 1).

Definition KOKI_LABELLED_IMAGE_LABEL (li : koki_labelled_image_t) (x y : Z)
    : option Z :=
  data li !! label_index li x y.

(** The compass directions; in a module of their own, [N] and [S] being
    names of the standard library. *)
Module Dir.
Inductive DIRECTION := N | NE | E | SE | S | SW | W | NW.
End Dir.

(** ** Construction *)

(** The two calls of [malloc] are taken to succeed: the block [data] holds
    [(w+2) * (h+2)] cells, none of them written yet.  The product is
    computed in [int] and overflows beyond [INT_MAX]. *)
Definition koki_labelled_image_new (w h : Z) : option koki_labelled_image_t :=
  if INT_MAX <? (w + 2) * (h + 2) then None else
  let labelled_image := mkLabelled ∅ w h g_array_new g_array_new in
  labelled_image ← for_u16 0 (w + 2) (λ i li,
      li ← data_store li i 0;
      data_store li ((h + 1) * (w + 2) + i) 0) labelled_image;
  for_u16 1 (h + 1) (λ i li,
      li ← data_store li ((w + 2) * i) 0;
      data_store li ((w + 2) * i + w + 1) 0) labelled_image.

(** ** Thresholding *)

Definition channel_sum (img : IplImage) (x y : Z) : Z :=
  KOKI_IPLIMAGE_ELEM img x y 0 + KOKI_IPLIMAGE_ELEM img x y 1
  + KOKI_IPLIMAGE_ELEM img x y 2.

Definition above_threshold (img : IplImage) (x y threshold_x_3 : Z) : bool :=
  threshold_x_3 <? channel_sum img x y.

(** ** Labelling one pixel *)

(** The [assert] fails when [label - 1] is not below [aliases->len]. *)
Definition set_label (li : koki_labelled_image_t) (x y label : Z)
    : option koki_labelled_image_t :=
  if label =? 0 then data_store li (label_index li x y) 0
  else if label - 1 <? len (aliases li) then
    v ← g_array_index (aliases li) (label - 1);
    data_store li (label_index li x y) v
  else None.

(** The [default] branch of the [switch] is taken by no value of the
    enumeration. *)
Definition get_connected_label (li : koki_labelled_image_t) (x y : Z)
    (direction : Dir.DIRECTION) : option Z :=
  let w := u16 (w li) in
  match direction with
  | Dir.N => data li !! ((y + 1 - 1) * (w + 2) + (x + 1))
  | Dir.NE => data li !! ((y + 1 - 1) * (w + 2) + (x + 1 + 1))
  | Dir.E => data li !! ((y + 1) * (w + 2) + (x + 1 + 1))
  | Dir.SE => data li !! ((y + 1 + 1) * (w + 2) + (x + 1 + 1))
  | Dir.S => data li !! ((y + 1 + 1) * (w + 2) + (x + 1))
  | Dir.SW => data li !! ((y + 1 + 1) * (w + 2) + (x + 1 - 1))
  | Dir.W => data li !! ((y + 1) * (w + 2) + (x + 1 - 1))
  | Dir.NW => data li !! ((y + 1 - 1) * (w + 2) + (x + 1 - 1))
  end.

(** The loop "maintain lowest label for all aliases".  [label_min] and
    [label_max] are [int16_t]; a slot is a [uint16_t]. *)
Definition merge_aliases (label_min label_max : Z) (a : GArray Z)
    : option (GArray Z) :=
  for_int 0 (len a) (λ i a,
      label ← g_array_index a i;
      if label =? label_max then g_array_set a i (u16 label_min)
      else Some a) a.

Definition label_pixel (img : IplImage) (li : koki_labelled_image_t)
    (x y threshold_x_3 : Z) : option koki_labelled_image_t :=
  if above_threshold img x y threshold_x_3 then set_label li x y 0 else
  label_tmp ← get_connected_label li x y Dir.N;
  if 0 <? label_tmp then set_label li x y label_tmp else
  label_tmp ← get_connected_label li x y Dir.NE;
  if 0 <? label_tmp then
    label_w ← i16 <$> get_connected_label li x y Dir.W;
    label_nw ← i16 <$> get_connected_label li x y Dir.NW;
    if (0 <? label_w) || (0 <? label_nw) then
      l1 ← i16 <$> g_array_index (aliases li) (label_tmp - 1);
      l2 ← i16 <$> (if 0 <? label_nw
                     then g_array_index (aliases li) (label_nw - 1)
                     else g_array_index (aliases li) (label_w - 1));
      let label_max := if l2 <? l1 then l1 else l2 in
      let label_min := if l2 <? l1 then l2 else l1 in
      li ← set_label li x y (u16 label_min);
      a ← merge_aliases label_min label_max (aliases li);
      Some (with_aliases li a)
    else set_label li x y label_tmp
  else
  label_tmp ← get_connected_label li x y Dir.NW;
  if 0 <? label_tmp then set_label li x y label_tmp else
  label_tmp ← get_connected_label li x y Dir.W;
  if 0 <? label_tmp then set_label li x y label_tmp else
  let label_tmp := u16 (len (aliases li) + 1) in
  set_label (with_aliases li (g_array_append_val (aliases li) label_tmp))
    x y label_tmp.

(** ** The two passes *)

Definition label_pass (img : IplImage) (threshold_x_3 : Z)
    (li : koki_labelled_image_t) : option koki_labelled_image_t :=
  for_u16 0 (height img) (λ row li,
    for_u16 0 (width img) (λ col li,
      label_pixel img li col row threshold_x_3) li) li.

(** "find largest alias" *)
Definition find_max_alias (a : GArray Z) : option Z :=
  for_int 0 (len a) (λ i max_alias,
      alias ← g_array_index a i;
      Some (if max_alias <? alias then alias else max_alias)) 0.

Definition init_clip : koki_clip_region_t :=
  mkClip 0 (mkPoint 65535 65535) (mkPoint 0 0).

(** "init clips" *)
Definition init_clips (max_alias : Z) (c : GArray koki_clip_region_t)
    : option (GArray koki_clip_region_t) :=
  for_int 0 max_alias (λ _ c, Some (g_array_append_val c init_clip)) c.

Definition update_clip (clip : koki_clip_region_t) (x y : Z)
    : koki_clip_region_t :=
  mkClip (mass clip + 1)
    (mkPoint (if x <? pt_x (clip_min clip) then x else pt_x (clip_min clip))
             (if y <? pt_y (clip_min clip) then y else pt_y (clip_min clip)))
    (mkPoint (if pt_x (clip_max clip) <? x then x else pt_x (clip_max clip))
             (if pt_y (clip_max clip) <? y then y else pt_y (clip_max clip))).

(** Body of the loop "gather stats" *)
Definition gather_pixel (li : koki_labelled_image_t) (x y : Z)
    : option koki_labelled_image_t :=
  label ← KOKI_LABELLED_IMAGE_LABEL li x y;
  if label =? 0 then Some li else
  alias ← g_array_index (aliases li) (label - 1);
  clip ← g_array_index (clips li) (alias - 1);
  c ← g_array_set (clips li) (alias - 1) (update_clip clip x y);
  Some (with_clips li c).

Definition stats_pass (img : IplImage) (li : koki_labelled_image_t)
    : option koki_labelled_image_t :=
  max_alias ← find_max_alias (aliases li);
  c ← init_clips max_alias (clips li);
  for_u16 0 (height img) (λ y li,
    for_u16 0 (width img) (λ x li, gather_pixel li x y) li) (with_clips li c).

Section Float.

(** Multiplication of two [float]s: the product rounded as the platform
    rounds it.  Values are given as the rationals they denote; nothing is
    assumed about the rounding. *)
Variable float_mul : Q → Q → Q.

Definition threshold_product (threshold : Q) : Q :=
  float_mul (float_mul (inject_Z 255) threshold) (inject_Z 3).

(** [uint16_t threshold_x_3 = (255 * threshold) * 3;] *)
Definition threshold_x_3_of (threshold : Q) : Z :=
  u16 (Qtrunc (threshold_product threshold)).

Definition koki_label_image (img : IplImage) (threshold : Q)
    : option koki_labelled_image_t :=
  let threshold_x_3 := threshold_x_3_of threshold in
  labelled_image ←
    koki_labelled_image_new (u16 (width img)) (u16 (height img));
  labelled_image ← label_pass img threshold_x_3 labelled_image;
  stats_pass img labelled_image.

End Float.

(** ** The debug image *)

(** [KOKI_IPLIMAGE_ELEM (img, x, y, rgb) = v].  The pixel buffer of an
    [IplImage] holds [height * widthStep] bytes. *)
Definition KOKI_IPLIMAGE_ELEM_set (img : IplImage) (x y rgb v : Z)
    : option IplImage :=
  let off := widthStep img * y + (x * 3 + rgb) in
  if (0 <=? off) && (off <? widthStep img * height img)
  then Some (mkIplImage (width img) (height img) (widthStep img)
               (λ o, if o =? off then v else imageData img o))
  else None.

(** "some random numbers to make close regions different colours" *)
Definition colour_r (label : Z) : Z := u8 ((label + 37) * 791 mod 256).
Definition colour_g (label : Z) : Z := u8 ((label + 19) * 567 mod 256).
Definition colour_b (label : Z) : Z := u8 ((label + 51) * 354 mod 256).

Section DebugImage.

(** [cvCreateImage (cvSize (width, height), IPL_DEPTH_8U, 3)] of OpenCV: the
    image it returns, whose pixel buffer holds whatever the allocation left
    there. *)
Variable cvCreateImage : Z → Z → IplImage.

Definition koki_labelled_image_to_IplImage (li : koki_labelled_image_t)
    : option IplImage :=
  let image := cvCreateImage (w li) (h li) in
  for_int 0 (height image) (λ y image,
    for_int 0 (width image) (λ x image,
      label ← KOKI_LABELLED_IMAGE_LABEL li x y;
      let r := colour_r label in
      let g := colour_g label in
      let b := colour_b label in
      image ← KOKI_IPLIMAGE_ELEM_set image x y 0 r;
      image ← KOKI_IPLIMAGE_ELEM_set image x y 1 g;
      KOKI_IPLIMAGE_ELEM_set image x y 2 b) image) image.

End DebugImage.

(** * Vocabulary of the specification *)

(** ** Pixels, counts and well-formed inputs *)

(** A pixel of the image that the classifier takes for foreground. *)
Definition foreground (img : IplImage) (t : Z) (x y : Z) : bool :=
  (0 <=? x) && (x <? width img) && (0 <=? y) && (y <? height img)
  && negb (above_threshold img x y t).

(** A foreground pixel none of whose four neighbours already scanned is
    foreground: the pixels at which a new region is found. *)
Definition is_seed (img : IplImage) (t : Z) (x y : Z) : bool :=
  foreground img t x y
  && negb (foreground img t x (y - 1))
  && negb (foreground img t (x + 1) (y - 1))
  && negb (foreground img t (x - 1) (y - 1))
  && negb (foreground img t (x - 1) y).

(** [f lo + f (lo+1) + ...], [n] terms. *)
Fixpoint sum_range (f : Z → Z) (lo : Z) (n : nat) : Z :=
  match n with
  | O => 0
  | S n' => f lo + sum_range f (lo + 1) n'
  end.

Definition b2z (b : bool) : Z := if b then 1 else 0.

(** Pixels of row [y], columns [0 .. x-1], that satisfy [g]. *)
Definition count_row (g : Z → Z → bool) (y x : Z) : Z :=
  sum_range (λ i, b2z (g i y)) 0 (Z.to_nat x).

(** Pixels scanned before [(x, y)] in an image [wd] wide that satisfy [g]. *)
Definition count_before (g : Z → Z → bool) (wd x y : Z) : Z :=
  sum_range (λ j, count_row g j wd) 0 (Z.to_nat y) + count_row g y x.

Definition count_all (g : Z → Z → bool) (wd ht : Z) : Z :=
  count_before g wd 0 ht.

(** Number of provisional labels that a run allocates. *)
Definition seeds (img : IplImage) (t : Z) : Z :=
  count_all (is_seed img t) (width img) (height img).

Definition foreground_count (img : IplImage) (t : Z) : Z :=
  count_all (foreground img t) (width img) (height img).

(** The inputs the code is written for: dimensions that the 16-bit loop
    counters and the [int] index arithmetic can hold, and no more
    provisional labels than a [uint16_t] can number. *)
Definition well_formed (img : IplImage) (t : Z) : Prop :=
  0 ≤ width img ≤ 65533 ∧ 0 ≤ height img ≤ 65534
  ∧ (width img + 2) * (height img + 2) ≤ INT_MAX
  ∧ seeds img t ≤ 65535.

(** Cells of the outermost ring, in logical coordinates. *)
Definition ring (wd ht i j : Z) : Prop :=
  -1 ≤ i ≤ wd ∧ -1 ≤ j ≤ ht ∧ (i = -1 ∨ i = wd ∨ j = -1 ∨ j = ht).

(** [resolve a i]: the canonical id of provisional label [i]. *)
Definition resolve (a : GArray Z) (i : Z) : option Z :=
  g_array_index a (i - 1).

(** The alias table is flat. *)
Definition flat (a : GArray Z) : Prop :=
  ∀ i, 1 ≤ i ≤ len a →
    ∃ v, resolve a i = Some v ∧ 1 ≤ v ≤ len a ∧ resolve a v = Some v.

(** The final canonical id of a pixel: its grid value resolved through the
    alias table, [0] for background. *)
Definition final_id (li : koki_labelled_image_t) (x y : Z) : option Z :=
  label ← KOKI_LABELLED_IMAGE_LABEL li x y;
  if label =? 0 then Some 0 else resolve (aliases li) label.

(** States of a labelling run: [reach img t x y li] when [li] is the
    labelled image just before pixel [(x, y)] is labelled. *)
Inductive reach (img : IplImage) (t : Z)
    : Z → Z → koki_labelled_image_t → Prop :=
| reach_new li :
    koki_labelled_image_new (u16 (width img)) (u16 (height img)) = Some li →
    reach img t 0 0 li
| reach_pixel x y li li' :
    reach img t x y li →
    0 ≤ x < width img → 0 ≤ y < height img →
    label_pixel img li x y t = Some li' →
    reach img t (x + 1) y li'
| reach_row y li :
    reach img t (width img) y li → 0 ≤ y < height img →
    reach img t 0 (y + 1) li.

(** ** The grid under construction *)

(** Indices of [data] written by the first loop of the constructor after
    [k] rounds, and by the second. *)
Definition written_rows (wd ht k idx : Z) : Prop :=
  0 ≤ idx < k ∨ (ht + 1) * (wd + 2) ≤ idx < (ht + 1) * (wd + 2) + k.
Definition written_cols (wd ht k idx : Z) : Prop :=
  written_rows wd ht (wd + 2) idx
  ∨ ∃ i, 1 ≤ i < k ∧ (idx = (wd + 2) * i ∨ idx = (wd + 2) * i + wd + 1).

(** A labelled image under construction: its cells at the indices [written]
    hold 0 and no other cell was written. *)
Definition shape (wd ht : Z) (written : Z → Prop)
    (li : koki_labelled_image_t) : Prop :=
  w li = wd ∧ h li = ht ∧ aliases li = g_array_new ∧ clips li = g_array_new
  ∧ (∀ idx, written idx → data li !! idx = Some 0)
  ∧ (∀ idx v, data li !! idx = Some v → written idx).

(** ** The alias table *)

(** Every slot holds a canonical id, an id whose own slot holds it. *)
Definition alias_ok (a : GArray Z) : Prop :=
  0 ≤ len a
  ∧ (∀ i v, elts a !! i = Some v → 0 ≤ i < len a)
  ∧ (∀ i, 0 ≤ i < len a →
       ∃ v, elts a !! i = Some v ∧ 1 ≤ v ≤ len a
            ∧ elts a !! (v - 1) = Some v).

(** What the merge loop does to one slot. *)
Definition ren (label_min label_max v : Z) : Z :=
  if v =? label_max then u16 label_min else v.

(** ** Cases of a labelling step *)

(** [outcome a n ne nw wv fg v a']: with alias table [a] and the labels
    [n], [ne], [nw], [wv] in the cells North, North-East, North-West and
    West, a pixel whose classification is [fg] is given the label [v] and
    the alias table becomes [a']. *)
Inductive outcome (a : GArray Z) (n ne nw wv : Z)
    : bool → Z → GArray Z → Prop :=
| out_background : outcome a n ne nw wv false 0 a
| out_north c :
    0 < n → resolve a n = Some c → outcome a n ne nw wv true c a
| out_north_east c :
    n = 0 → 0 < ne → i16 wv ≤ 0 → i16 nw ≤ 0 → resolve a ne = Some c →
    outcome a n ne nw wv true c a
| out_merge l c1 c2 :
    n = 0 → 0 < ne →
    (0 < i16 nw ∧ l = nw) ∨ (i16 nw ≤ 0 ∧ 0 < i16 wv ∧ l = wv) →
    resolve a ne = Some c1 → resolve a l = Some c2 →
    outcome a n ne nw wv true
      (u16 (Z.min (i16 c1) (i16 c2)))
      (mkGArray (ren (Z.min (i16 c1) (i16 c2)) (Z.max (i16 c1) (i16 c2))
                   <$> elts a) (len a))
| out_north_west c :
    n = 0 → ne = 0 → 0 < nw → resolve a nw = Some c →
    outcome a n ne nw wv true c a
| out_west c :
    n = 0 → ne = 0 → nw = 0 → 0 < wv → resolve a wv = Some c →
    outcome a n ne nw wv true c a
| out_new :
    n = 0 → ne = 0 → nw = 0 → wv = 0 → len a + 1 ≤ 65535 →
    outcome a n ne nw wv true (len a + 1)
      (g_array_append_val a (len a + 1)).

(** ** State of the labelling pass *)

(** Cells that hold their final value just before [(x, y)] is labelled:
    the ring and the pixels already scanned. *)
Definition visited (img : IplImage) (x y i j : Z) : Prop :=
  ring (width img) (height img) i j
  ∨ (0 ≤ i < width img ∧ 0 ≤ j < height img ∧ (j < y ∨ (j = y ∧ i < x))).

(** State of the labelling pass just before pixel [(x, y)] is labelled. *)
Record label_inv (img : IplImage) (t : Z) (x y : Z)
    (li : koki_labelled_image_t) : Prop := mkLabelInv
  { inv_w : w li = width img;
    inv_h : h li = height img;
    inv_clips : clips li = g_array_new;
    inv_cells : ∀ i j, visited img x y i j →
      ∃ v, KOKI_LABELLED_IMAGE_LABEL li i j = Some v
           ∧ if foreground img t i j then 1 ≤ v ≤ len (aliases li)
             else v = 0;
    inv_aliases : alias_ok (aliases li);
    inv_len :
      len (aliases li) = count_before (is_seed img t) (width img) x y }.

(** ** State of the statistics pass *)

(** [m] is the largest value of the alias table, [0] for an empty table. *)
Definition max_alias_of (a : GArray Z) (m : Z) : Prop :=
  0 ≤ m
  ∧ (∀ i v, 0 ≤ i < len a → elts a !! i = Some v → v ≤ m)
  ∧ (len a ≤ 0 → m = 0)
  ∧ (0 < len a → ∃ i, 0 ≤ i < len a ∧ elts a !! i = Some m).

(** Sum of the [mass] fields of an array of regions. *)
Definition mass_sum (c : GArray koki_clip_region_t) : Z :=
  sum_range (λ i, match elts c !! i with Some r => mass r | None => 0 end)
    0 (Z.to_nat (len c)).

(** Pixels of a [wd] by [ht] image scanned before [(x, y)]. *)
Definition scanned (wd ht x y i j : Z) : Prop :=
  0 ≤ i < wd ∧ 0 ≤ j < ht ∧ (j < y ∨ (j = y ∧ i < x)).

(** Pixel [(i, j)] carries the final canonical id [c]. *)
Definition in_region (li : koki_labelled_image_t) (c i j : Z) : bool :=
  bool_decide (final_id li i j = Some c).

(** The record [r] summarises the pixels of region [c] scanned before
    [(x, y)]. *)
Record region_ok (li : koki_labelled_image_t) (wd ht x y c : Z)
    (r : koki_clip_region_t) : Prop := mkRegionOk
  { reg_mass : mass r = count_before (in_region li c) wd x y;
    reg_empty : mass r = 0 → r = init_clip;
    reg_box : ∀ i j, scanned wd ht x y i j → final_id li i j = Some c →
      pt_x (clip_min r) ≤ i ≤ pt_x (clip_max r)
      ∧ pt_y (clip_min r) ≤ j ≤ pt_y (clip_max r);
    reg_attained : 0 < mass r →
      (∃ i j, scanned wd ht x y i j ∧ final_id li i j = Some c
              ∧ i = pt_x (clip_min r))
      ∧ (∃ i j, scanned wd ht x y i j ∧ final_id li i j = Some c
                ∧ j = pt_y (clip_min r))
      ∧ (∃ i j, scanned wd ht x y i j ∧ final_id li i j = Some c
                ∧ i = pt_x (clip_max r))
      ∧ (∃ i j, scanned wd ht x y i j ∧ final_id li i j = Some c
                ∧ j = pt_y (clip_max r)) }.

(** State of the statistics pass just before pixel [(x, y)] is read, [li]
    being the labelled image that the labelling pass hands over and [m] the
    largest value of its alias table. *)
Record stats_inv (img : IplImage) (t : Z) (li : koki_labelled_image_t)
    (m : Z) (x y : Z) (li' : koki_labelled_image_t) : Prop := mkStatsInv
  { st_data : data li' = data li;
    st_w : w li' = w li;
    st_h : h li' = h li;
    st_aliases : aliases li' = aliases li;
    st_len : len (clips li') = m;
    st_regions : ∀ c, 1 ≤ c ≤ m →
      ∃ r, elts (clips li') !! (c - 1) = Some r
           ∧ region_ok li (width img) (height img) x y c r;
    st_mass :
      mass_sum (clips li')
      = count_before (foreground img t) (width img) x y }.

(** ** Images used as examples *)

(** The image [wd] by [ht], rows stored without padding, whose pixels listed
    in [black] are (0,0,0) and whose other pixels are (255,255,255). *)
Definition image_of (wd ht : Z) (black : list (Z * Z)) : IplImage :=
  mkIplImage wd ht (3 * wd) (λ off,
    let y := off / (3 * wd) in
    let x := (off mod (3 * wd)) / 3 in
    if existsb (λ p, (p.1 =? x) && (p.2 =? y)) black then 0 else 255).

(** Two regions that meet at the pixel (1,1). *)
Definition image_merge : IplImage := image_of 3 2 [(0, 0); (2, 0); (1, 1)].

(** A diagonal of two pixels. *)
Definition image_diagonal : IplImage := image_of 2 2 [(1, 0); (0, 1)].

(** Two regions joined at (1,1), whose West neighbour is labelled too. *)
Definition image_hourglass : IplImage :=
  image_of 3 2 [(0, 0); (2, 0); (0, 1); (1, 1)].

(** A thin image with a pixel in the columns 0 and 2 of every even row:
    each of them is a region of its own, the two of row [2k] being given the
    labels [2k+1] and [2k+2].  Row 32767 adds the pixels (0,32767) and
    (1,32767).  A row takes 16 bytes, 9 for its pixels and 7 of padding. *)
Definition image_specks_merge : IplImage :=
  mkIplImage 3 32768 16 (λ off,
    let y := Z.shiftr off 4 in
    let x := Z.land off 15 / 3 in
    if (Z.even y && Z.even x) || ((y =? 32767) && (x <? 2)) then 0 else 255).

(** The same specks down to row 32768, and the pixel (1,32769). *)
Definition image_specks_diagonal : IplImage :=
  mkIplImage 3 32770 16 (λ off,
    let y := Z.shiftr off 4 in
    let x := Z.land off 15 / 3 in
    if (Z.even y && Z.even x) || ((y =? 32769) && (x =? 1)) then 0 else 255).

(** ** Connectivity *)

(** 8-adjacency and 8-connectivity through foreground pixels. *)
Definition adjacent8 (p q : Z * Z) : Prop :=
  p ≠ q ∧ -1 ≤ p.1 - q.1 ≤ 1 ∧ -1 ≤ p.2 - q.2 ≤ 1.

Definition fg_adjacent (img : IplImage) (t : Z) (p q : Z * Z) : Prop :=
  foreground img t p.1 p.2 = true ∧ foreground img t q.1 q.2 = true
  ∧ adjacent8 p q.

Definition connected8 (img : IplImage) (t : Z) : relation (Z * Z) :=
  rtc (fg_adjacent img t).

(** ** Scan positions *)

(** The labelling pass stopped just before pixel [(x, y)]: the rows above
    [y] in full, then the columns left of [x] in row [y]. *)
Definition label_until (img : IplImage) (threshold_x_3 x y : Z)
    (li : koki_labelled_image_t) : option koki_labelled_image_t :=
  li ← for_u16 0 y (λ row li,
         for_u16 0 (width img) (λ col li,
           label_pixel img li col row threshold_x_3) li) li;
  for_u16 0 x (λ col li, label_pixel img li col y threshold_x_3) li.

(** ** Partition into regions *)

(** No slot holds an id above its own index. *)
Definition slots_bounded (a : GArray Z) : Prop :=
  ∀ i v, elts a !! i = Some v → v ≤ i + 1.

(** Final canonical id and classification of a pixel given as a pair. *)
Definition fid (li : koki_labelled_image_t) (p : Z * Z) : option Z :=
  final_id li p.1 p.2.
Definition fgp (img : IplImage) (t : Z) (p : Z * Z) : bool :=
  foreground img t p.1 p.2.

(** [p] is scanned before [(x, y)]. *)
Definition before (img : IplImage) (x y : Z) (p : Z * Z) : Prop :=
  scanned (width img) (height img) x y p.1 p.2.

(** The four neighbours of [(x, y)] that are scanned before it. *)
Definition nbr (x y : Z) (p : Z * Z) : Prop :=
  p = (x, y - 1) ∨ p = (x + 1, y - 1) ∨ p = (x - 1, y - 1) ∨ p = (x - 1, y).

(** The ids of the pixels scanned before [(x, y)] give their partition into
    8-connected sets. *)
Record partition_inv (img : IplImage) (t : Z) (x y : Z)
    (li : koki_labelled_image_t) : Prop := mkPartitionInv
  { part_adjacent : ∀ p q, before img x y p → before img x y q →
      fg_adjacent img t p q → fid li p = fid li q;
    part_connected : ∀ p q, before img x y p → before img x y q →
      fgp img t p = true → fgp img t q = true → fid li p = fid li q →
      connected8 img t p q }.

(** What the labelling of a foreground pixel [(x, y)] does to the ids: the
    pixel is given the id [c] and an id [d] in use becomes [g d]. *)
Inductive step_ids (img : IplImage) (t : Z) (li : koki_labelled_image_t)
    (x y : Z) : (Z → Z) → Z → Prop :=
| ids_inherit r c g :
    nbr x y r → fgp img t r = true → fid li r = Some c →
    (∀ r', nbr x y r' → fgp img t r' = true → fid li r' = Some c) →
    (∀ d, g d = d) →
    step_ids img t li x y g c
| ids_merge r1 r2 c1 c2 g :
    nbr x y r1 → nbr x y r2 →
    fgp img t r1 = true → fgp img t r2 = true →
    fid li r1 = Some c1 → fid li r2 = Some c2 →
    (∀ r', nbr x y r' → fgp img t r' = true →
       fid li r' = Some c1 ∨ fid li r' = Some c2) →
    (∀ d, g d = if d =? Z.max c1 c2 then Z.min c1 c2 else d) →
    step_ids img t li x y g (Z.min c1 c2)
| ids_new c g :
    (∀ r', nbr x y r' → fgp img t r' = false) →
    (∀ q, before img x y q → fgp img t q = true → fid li q ≠ Some c) →
    (∀ d, g d = d) →
    step_ids img t li x y g c.

(** ** The debug image, drawn *)

(** The value of channel [rgb] in the colour of a label. *)
Definition colour_of (rgb label : Z) : Z :=
  if rgb =? 0 then colour_r label
  else if rgb =? 1 then colour_g label else colour_b label.

(** State of the drawing of [li] into the image [image0], just before pixel
    [(x, y)] is drawn: the bytes of the pixels already drawn hold the
    colours of their labels, the other bytes are those of [image0]. *)
Definition drawn (li : koki_labelled_image_t) (image0 : IplImage) (x y : Z)
    (image : IplImage) : Prop :=
  width image = w li ∧ height image = h li
  ∧ widthStep image = widthStep image0
  ∧ (∀ i j c l, scanned (w li) (h li) x y i j → 0 ≤ c < 3 →
       KOKI_LABELLED_IMAGE_LABEL li i j = Some l →
       imageData image (widthStep image0 * j + (i * 3 + c)) = colour_of c l)
  ∧ (∀ o, (∀ i j c, scanned (w li) (h li) x y i j → 0 ≤ c < 3 →
             o ≠ widthStep image0 * j + (i * 3 + c)) →
       imageData image o = imageData image0 o).

(** ** Neighbours *)

(** The step from a pixel to its neighbour in a direction, and the
    direction back. *)
Definition towards (d : Dir.DIRECTION) : Z * Z :=
  match d with
  | Dir.N => (0, -1) | Dir.NE => (1, -1) | Dir.E => (1, 0) | Dir.SE => (1, 1)
  | Dir.S => (0, 1) | Dir.SW => (-1, 1) | Dir.W => (-1, 0) | Dir.NW => (-1, -1)
  end.

Definition opposite (d : Dir.DIRECTION) : Dir.DIRECTION :=
  match d with
  | Dir.N => Dir.S | Dir.NE => Dir.SW | Dir.E => Dir.W | Dir.SE => Dir.NW
  | Dir.S => Dir.N | Dir.SW => Dir.NE | Dir.W => Dir.E | Dir.NW => Dir.SE
  end.

(** ** Seeds in scan order *)

(** The rank of a pixel among the pixels at which a new region is found,
    counted in scan order from 1. *)
Definition seed_rank (img : IplImage) (t : Z) (x y : Z) : Z :=
  count_before (is_seed img t) (width img) x y + 1.

(** Just before [(x, y)] is labelled, every seed already scanned holds its
    rank, and every label allocated is the rank of such a seed. *)
Record seed_inv (img : IplImage) (t : Z) (x y : Z)
    (li : koki_labelled_image_t) : Prop := mkSeedInv
  { seed_label : ∀ i j, scanned (width img) (height img) x y i j →
      is_seed img t i j = true →
      KOKI_LABELLED_IMAGE_LABEL li i j = Some (seed_rank img t i j);
    seed_holder : ∀ l, 1 ≤ l ≤ len (aliases li) →
      ∃ i j, scanned (width img) (height img) x y i j
             ∧ is_seed img t i j = true ∧ seed_rank img t i j = l }.

(** An image buffer as OpenCV lays it out, rows padded to a multiple of four
    bytes, zeroed. *)
Definition image_blank (wd ht : Z) : IplImage :=
  mkIplImage wd ht (4 * ((3 * wd + 3) / 4)) (λ _, 0).

(** The images entirely white and entirely black, 2 by 2. *)
Definition image_white : IplImage := image_of 2 2 [].
Definition image_black : IplImage :=
  image_of 2 2 [(0, 0); (1, 0); (0, 1); (1, 1)].

(** ** Regions in every run *)

(** Just before [(x, y)] is labelled: two foreground pixels already scanned
    that hold the same id are 8-connected, and a foreground pixel holds the
    id of the foreground pixel above it. *)
Record sound_inv (img : IplImage) (t : Z) (x y : Z)
    (li : koki_labelled_image_t) : Prop := mkSoundInv
  { snd_connected : ∀ p q, before img x y p → before img x y q →
      fgp img t p = true → fgp img t q = true → fid li p = fid li q →
      connected8 img t p q;
    snd_vertical : ∀ i j, before img x y (i, j) →
      fgp img t (i, j) = true → fgp img t (i, j - 1) = true →
      fid li (i, j) = fid li (i, j - 1) }.

(** What the labelling of [(x, y)], from [li] to [li'], does to the ids in
    any run: the ids in use are renamed by some [g]; two ids that [g]
    identifies are those of two foreground neighbours of the pixel; the id
    given to the pixel is, renamed, that of a foreground neighbour or is
    held by no other pixel; and it is the id of the pixel above, when that
    one is foreground. *)
Definition step_sound (img : IplImage) (t : Z) (li : koki_labelled_image_t)
    (x y : Z) (li' : koki_labelled_image_t) : Prop :=
  ∃ g : Z → Z,
    (∀ q, before img x y q → fgp img t q = true →
       ∃ c, fid li q = Some c ∧ fid li' q = Some (g c))
    ∧ (∀ p q cp cq, before img x y p → before img x y q →
         fgp img t p = true → fgp img t q = true →
         fid li p = Some cp → fid li q = Some cq → g cp = g cq →
         cp = cq
         ∨ (fgp img t (x, y) = true
            ∧ ∃ r1 r2, nbr x y r1 ∧ nbr x y r2
                ∧ fgp img t r1 = true ∧ fgp img t r2 = true
                ∧ fid li r1 = Some cp ∧ fid li r2 = Some cq))
    ∧ (fgp img t (x, y) = true →
         ∃ c, fid li' (x, y) = Some c
           ∧ ∀ q cq, before img x y q → fgp img t q = true →
               fid li q = Some cq → g cq = c →
               ∃ r, nbr x y r ∧ fgp img t r = true ∧ fid li r = Some cq)
    ∧ (fgp img t (x, y) = true → fgp img t (x, y - 1) = true →
         fid li' (x, y) = fid li' (x, y - 1)).

(** * Lemmas *)

(** ** Loops: invariant rules *)

Lemma iterM_inv {St : Type} (I : Z → St → Prop) (body : Z → St → option St)
    (n : nat) (lo : Z) (s : St) :
  I lo s →
  (∀ i s, lo ≤ i < lo + Z.of_nat n → I i s →
     ∃ s', body i s = Some s' ∧ I (i + 1) s') →
  ∃ s', iterM n lo body s = Some s' ∧ I (lo + Z.of_nat n) s'.
Proof.
  revert lo s. induction n as [|n IH]; intros lo s H0 Hstep.
  - exists s. split; [done|]. by replace (lo + Z.of_nat 0) with lo by lia.
  - destruct (Hstep lo s) as (s1 & Hb & H1); [lia|done|].
    simpl. rewrite Hb.
    destruct (IH (lo + 1) s1 H1) as (s2 & Hit & H2).
    + intros i s' Hi. apply Hstep. lia.
    + exists s2. split; [done|].
      by replace (lo + Z.of_nat (S n)) with (lo + 1 + Z.of_nat n) by lia.
Qed.

Lemma for_int_inv {St : Type} (I : Z → St → Prop) (body : Z → St → option St)
    (lo bound : Z) (s : St) :
  lo ≤ bound →
  I lo s →
  (∀ i s, lo ≤ i < bound → I i s → ∃ s', body i s = Some s' ∧ I (i + 1) s') →
  ∃ s', for_int lo bound body s = Some s' ∧ I bound s'.
Proof.
  intros Hle H0 Hstep. unfold for_int.
  destruct (iterM_inv I body (Z.to_nat (bound - lo)) lo s H0) as (s' & ? & HI).
  - intros i s' Hi. apply Hstep. lia.
  - exists s'. split; [done|].
    by replace (lo + Z.of_nat (Z.to_nat (bound - lo))) with bound in HI by lia.
Qed.

Lemma for_u16_inv {St : Type} (I : Z → St → Prop) (body : Z → St → option St)
    (lo bound : Z) (s : St) :
  lo ≤ bound ≤ 65535 →
  I lo s →
  (∀ i s, lo ≤ i < bound → I i s → ∃ s', body i s = Some s' ∧ I (i + 1) s') →
  ∃ s', for_u16 lo bound body s = Some s' ∧ I bound s'.
Proof.
  intros [Hle Hb] H0 Hstep. unfold for_u16.
  destruct (65535 <? bound) eqn:E; [apply Z.ltb_lt in E; lia|].
  by apply (for_int_inv I body lo bound s).
Qed.

(** ** Machine integers: facts *)

Lemma u16_small z : 0 ≤ z ≤ 65535 → u16 z = z.
Proof. intros. unfold u16. apply Z.mod_small. lia. Qed.

Lemma i16_small z : 0 ≤ z ≤ 32767 → i16 z = z.
Proof. intros. unfold i16. rewrite Z.mod_small; lia. Qed.

Lemma i16_large z : 32768 ≤ z ≤ 65535 → i16 z = z - 65536.
Proof.
  intros. unfold i16.
  replace (z + 32768) with (z - 32768 + 1 * 65536) by lia.
  rewrite Z.mod_add by lia. rewrite Z.mod_small; lia.
Qed.

Lemma u16_i16 z : 0 ≤ z ≤ 65535 → u16 (i16 z) = z.
Proof.
  intros. destruct (decide (z ≤ 32767)).
  - rewrite i16_small by lia. apply u16_small. lia.
  - rewrite i16_large by lia. unfold u16.
    replace (z - 65536) with (z + (-1) * 65536) by lia.
    rewrite Z.mod_add by lia. apply Z.mod_small. lia.
Qed.

Lemma i16_pos z : 0 ≤ z ≤ 65535 → 0 < i16 z → i16 z = z ∧ z ≤ 32767.
Proof.
  intros Hz Hp. destruct (decide (z ≤ 32767)).
  - rewrite i16_small by lia. lia.
  - rewrite i16_large in Hp by lia. lia.
Qed.

(** ** Counting: facts *)

Lemma sum_range_snoc f lo n :
  sum_range f lo (S n) = sum_range f lo n + f (lo + Z.of_nat n).
Proof.
  revert lo. induction n as [|n IH]; intros lo.
  - cbn [sum_range]. rewrite Nat2Z.inj_0, !Z.add_0_r. lia.
  - change (sum_range f lo (S (S n))) with (f lo + sum_range f (lo + 1) (S n)).
    rewrite IH. cbn [sum_range].
    replace (lo + 1 + Z.of_nat n) with (lo + Z.of_nat (S n)) by lia. lia.
Qed.

Lemma sum_range_nonneg f lo n : (∀ i, 0 ≤ f i) → 0 ≤ sum_range f lo n.
Proof.
  intros Hf. revert lo. induction n as [|n IH]; intros lo; simpl; [lia|].
  specialize (Hf lo). specialize (IH (lo + 1)). lia.
Qed.

Lemma sum_range_le f lo n m :
  (∀ i, 0 ≤ f i) → (n ≤ m)%nat → sum_range f lo n ≤ sum_range f lo m.
Proof.
  intros Hf Hnm. induction Hnm as [|m Hnm IH]; [lia|].
  rewrite sum_range_snoc. specialize (Hf (lo + Z.of_nat m)). lia.
Qed.

Lemma sum_range_ext f g lo n :
  (∀ i, lo ≤ i < lo + Z.of_nat n → f i = g i) →
  sum_range f lo n = sum_range g lo n.
Proof.
  revert lo. induction n as [|n IH]; intros lo H; simpl; [done|].
  rewrite H by lia. rewrite IH; [done|]. intros i Hi. apply H. lia.
Qed.

Lemma b2z_nonneg b : 0 ≤ b2z b.
Proof. by destruct b. Qed.

Lemma count_row_nonneg g y x : 0 ≤ count_row g y x.
Proof. apply sum_range_nonneg. intros. apply b2z_nonneg. Qed.

Lemma count_row_succ g y x :
  0 ≤ x → count_row g y (x + 1) = count_row g y x + b2z (g x y).
Proof.
  intros Hx. unfold count_row.
  replace (Z.to_nat (x + 1)) with (S (Z.to_nat x)) by lia.
  rewrite sum_range_snoc.
  by replace (0 + Z.of_nat (Z.to_nat x)) with x by lia.
Qed.

Lemma count_row_le g y x x' : x ≤ x' → count_row g y x ≤ count_row g y x'.
Proof.
  intros. apply sum_range_le; [intros; apply b2z_nonneg | lia].
Qed.

Lemma count_before_succ g wd x y :
  0 ≤ x →
  count_before g wd (x + 1) y = count_before g wd x y + b2z (g x y).
Proof. intros. unfold count_before. rewrite count_row_succ by done. lia. Qed.

Lemma count_before_row g wd y :
  0 ≤ y → count_before g wd 0 (y + 1) = count_before g wd wd y.
Proof.
  intros Hy. unfold count_before.
  replace (Z.to_nat (y + 1)) with (S (Z.to_nat y)) by lia.
  rewrite sum_range_snoc. replace (0 + Z.of_nat (Z.to_nat y)) with y by lia.
  unfold count_row at 3. simpl. lia.
Qed.

Lemma count_before_start g wd : count_before g wd 0 0 = 0.
Proof. reflexivity. Qed.

Lemma count_before_le_all g wd ht x y :
  0 ≤ x ≤ wd → 0 ≤ y < ht → count_before g wd x y ≤ count_all g wd ht.
Proof.
  intros Hx Hy. unfold count_all.
  transitivity (count_before g wd wd y).
  - unfold count_before. pose proof (count_row_le g y x wd). lia.
  - rewrite <- count_before_row by lia. unfold count_before.
    assert (sum_range (λ j, count_row g j wd) 0 (Z.to_nat (y + 1))
            ≤ sum_range (λ j, count_row g j wd) 0 (Z.to_nat ht)).
    { apply sum_range_le; [intros; apply count_row_nonneg | lia]. }
    unfold count_row at 2 4. simpl. lia.
Qed.

(** ** Index arithmetic *)

Lemma cell_inj m a b c d :
  0 ≤ b < m → 0 ≤ d < m → a * m + b = c * m + d → a = c ∧ b = d.
Proof. intros Hb Hd E. assert (a = c) by nia. subst. lia. Qed.

Lemma label_index_inj li i j i' j' :
  -1 ≤ i ≤ w li → -1 ≤ i' ≤ w li →
  label_index li i j = label_index li i' j' → i = i' ∧ j = j'.
Proof.
  unfold label_index. intros Hi Hi' E.
  destruct (cell_inj (w li + 2) (j + 1) (i + 1) (j' + 1) (i' + 1)); lia.
Qed.

Lemma label_index_bounds li i j :
  -1 ≤ i ≤ w li → -1 ≤ j ≤ h li → 0 ≤ label_index li i j < data_len li.
Proof. unfold label_index, data_len. intros. nia. Qed.

Lemma data_store_Some li i v :
  0 ≤ i < data_len li →
  data_store li i v = Some (with_data li (<[i := v]> (data li))).
Proof.
  intros. unfold data_store.
  destruct (0 <=? i) eqn:E1; [|apply Z.leb_gt in E1; lia].
  destruct (i <? data_len li) eqn:E2; [done|apply Z.ltb_ge in E2; lia].
Qed.

(** ** Construction: facts *)

Section Construction.

Variables wd ht : Z.
Hypothesis Hwd : 0 ≤ wd ≤ 65533.
Hypothesis Hht : 0 ≤ ht ≤ 65534.
Hypothesis Hsize : (wd + 2) * (ht + 2) ≤ INT_MAX.

Local Abbreviation rows := (written_rows wd ht).
Local Abbreviation cols := (written_cols wd ht).

Lemma shape_store2 (P P' : Z → Prop) li i1 i2 :
  shape wd ht P li →
  0 ≤ i1 < (wd + 2) * (ht + 2) → 0 ≤ i2 < (wd + 2) * (ht + 2) →
  (∀ idx, P' idx ↔ P idx ∨ idx = i1 ∨ idx = i2) →
  ∃ li', (li1 ← data_store li i1 0; data_store li1 i2 0) = Some li'
         ∧ shape wd ht P' li'.
Proof.
  intros (Hw & Hh & Ha & Hc & Hin & Hout) H1 H2 HP.
  rewrite data_store_Some by (unfold data_len; rewrite Hw, Hh; lia).
  simpl. rewrite data_store_Some by (unfold data_len; simpl; rewrite Hw, Hh; lia).
  eexists. split; [done|]. unfold shape. simpl.
  repeat split; try done.
  - intros idx Hidx. apply HP in Hidx.
    destruct (decide (idx = i2)) as [->|]; [by rewrite lookup_insert_eq|].
    rewrite lookup_insert_ne by done.
    destruct (decide (idx = i1)) as [->|]; [by rewrite lookup_insert_eq|].
    rewrite lookup_insert_ne by done. apply Hin. tauto.
  - intros idx v Hv. apply HP.
    destruct (decide (idx = i2)) as [->|]; [by auto|].
    rewrite lookup_insert_ne in Hv by done.
    destruct (decide (idx = i1)) as [->|]; [by auto|].
    rewrite lookup_insert_ne in Hv by done. left. by eapply Hout.
Qed.

Lemma koki_labelled_image_new_shape :
  ∃ li, koki_labelled_image_new wd ht = Some li
        ∧ shape wd ht (cols (ht + 1)) li.
Proof.
  unfold koki_labelled_image_new.
  destruct (INT_MAX <? (wd + 2) * (ht + 2)) eqn:E; [apply Z.ltb_lt in E; lia|].
  destruct (for_u16_inv (λ k li, shape wd ht (rows k) li)
    (λ i li, li ← data_store li i 0; data_store li ((ht + 1) * (wd + 2) + i) 0)
    0 (wd + 2) (mkLabelled ∅ wd ht g_array_new g_array_new))
    as (li1 & -> & H1).
  - lia.
  - unfold shape, written_rows. simpl. split_and!; try done; intros idx; lia.
  - intros i li Hi Hsh. apply (shape_store2 (rows i)); [done|nia|nia|].
    intros idx. unfold written_rows. lia.
  - simpl.
    destruct (for_u16_inv (λ k li, shape wd ht (cols k) li)
      (λ i li, li ← data_store li ((wd + 2) * i) 0;
               data_store li ((wd + 2) * i + wd + 1) 0)
      1 (ht + 1) li1) as (li2 & -> & H2).
    + lia.
    + destruct H1 as (? & ? & ? & ? & Hin & Hout).
      unfold shape, written_cols. repeat split; try done.
      * intros idx [?|(i & ? & ?)]; [by apply Hin|lia].
      * intros idx v Hv. left. by eapply Hout.
    + intros i li Hi Hsh. apply (shape_store2 (cols i)); [done|nia|nia|].
      intros idx. unfold written_cols. split.
      * intros [?|(i' & ? & ?)]; [by auto|].
        destruct (decide (i' = i)) as [->|]; [lia|].
        left. right. exists i'. lia.
      * intros [[?|(i' & ? & ?)]|?]; [by auto| |].
        -- right. exists i'. lia.
        -- right. exists i. lia.
    + by exists li2.
Qed.

Lemma koki_labelled_image_new_spec :
  ∃ li, koki_labelled_image_new wd ht = Some li
    ∧ w li = wd ∧ h li = ht
    ∧ aliases li = g_array_new ∧ clips li = g_array_new
    ∧ (∀ i j, ring wd ht i j → KOKI_LABELLED_IMAGE_LABEL li i j = Some 0)
    ∧ (∀ i j, 0 ≤ i < wd → 0 ≤ j < ht →
         KOKI_LABELLED_IMAGE_LABEL li i j = None).
Proof.
  destruct koki_labelled_image_new_shape
    as (li & Hnew & Hw & Hh & Ha & Hc & Hin & Hout).
  exists li. repeat split; try done.
  - intros i j (Hi & Hj & Hring). apply Hin.
    unfold label_index, written_cols, written_rows. rewrite Hw.
    destruct (decide (j = -1)) as [->|]; [left; left; lia|].
    destruct (decide (j = ht)) as [->|]; [left; right; lia|].
    right. exists (j + 1). lia.
  - intros i j Hi Hj.
    destruct (KOKI_LABELLED_IMAGE_LABEL li i j) as [v|] eqn:E; [|done].
    apply Hout in E. exfalso. revert E.
    unfold label_index, written_cols, written_rows. rewrite Hw.
    intros [[?|?]|(i' & ? & [E|E])]; [nia|nia| |].
    + destruct (cell_inj (wd + 2) (j + 1) (i + 1) i' 0); lia.
    + destruct (cell_inj (wd + 2) (j + 1) (i + 1) i' (wd + 1)); lia.
Qed.

End Construction.

(** ** The alias table: facts *)

Lemma g_array_index_in {A : Type} (a : GArray A) i :
  0 ≤ i < len a → g_array_index a i = elts a !! i.
Proof.
  intros. unfold g_array_index.
  destruct (0 <=? i) eqn:E1; [|apply Z.leb_gt in E1; lia].
  destruct (i <? len a) eqn:E2; [done|apply Z.ltb_ge in E2; lia].
Qed.

Lemma g_array_index_Some {A : Type} (a : GArray A) i v :
  g_array_index a i = Some v → 0 ≤ i < len a ∧ elts a !! i = Some v.
Proof.
  unfold g_array_index.
  destruct (0 <=? i) eqn:E1; [|done]. destruct (i <? len a) eqn:E2; [|done].
  apply Z.leb_le in E1. apply Z.ltb_lt in E2. simpl. auto with lia.
Qed.

Lemma g_array_set_in {A : Type} (a : GArray A) i v :
  0 ≤ i < len a → g_array_set a i v = Some (mkGArray (<[i := v]> (elts a)) (len a)).
Proof.
  intros. unfold g_array_set.
  destruct (0 <=? i) eqn:E1; [|apply Z.leb_gt in E1; lia].
  destruct (i <? len a) eqn:E2; [done|apply Z.ltb_ge in E2; lia].
Qed.

Lemma alias_ok_resolve a l :
  alias_ok a → 1 ≤ l ≤ len a →
  ∃ c, resolve a l = Some c ∧ 1 ≤ c ≤ len a ∧ resolve a c = Some c.
Proof.
  intros (Hlen & Hdom & Hok) Hl.
  destruct (Hok (l - 1)) as (c & Hc & Hr & Hcc); [lia|].
  exists c. unfold resolve. rewrite !g_array_index_in by lia. done.
Qed.

Lemma alias_ok_flat a : alias_ok a → flat a.
Proof.
  intros Ha i Hi. destruct (alias_ok_resolve a i Ha Hi) as (c & ? & ? & ?).
  by exists c.
Qed.

Lemma merge_aliases_spec label_min label_max a :
  0 ≤ len a →
  (∀ i v, elts a !! i = Some v → 0 ≤ i < len a) →
  (∀ i, 0 ≤ i < len a → is_Some (elts a !! i)) →
  merge_aliases label_min label_max a
  = Some (mkGArray (ren label_min label_max <$> elts a) (len a)).
Proof.
  intros Hlen Hdom Hall. unfold merge_aliases.
  destruct (for_int_inv
    (λ k a', len a' = len a
       ∧ ∀ i, elts a' !! i
              = if decide (i < k) then ren label_min label_max <$> elts a !! i
                else elts a !! i)
    (λ i a', label ← g_array_index a' i;
             if label =? label_max then g_array_set a' i (u16 label_min)
             else Some a')
    0 (len a) a) as (a' & -> & Hl & Hel).
  - done.
  - split; [done|]. intros i. case_decide; [|done].
    destruct (elts a !! i) as [v|] eqn:E; [|done]. apply Hdom in E. lia.
  - intros k a' Hk (Hl & Hel).
    destruct (Hall k Hk) as (v & Hv).
    assert (elts a' !! k = Some v) as Hv'.
    { rewrite Hel. case_decide; [lia|done]. }
    rewrite g_array_index_in, Hv' by lia. simpl.
    destruct (v =? label_max) eqn:E.
    + rewrite g_array_set_in by lia. eexists. split; [done|].
      simpl. split; [done|]. intros i.
      destruct (decide (i = k)) as [->|].
      * rewrite lookup_insert_eq. case_decide; [|lia].
        rewrite Hv. simpl. unfold ren. by rewrite E.
      * rewrite lookup_insert_ne by done. rewrite Hel.
        repeat case_decide; try done; lia.
    + exists a'. split; [done|]. split; [done|]. intros i.
      destruct (decide (i = k)) as [->|].
      * case_decide; [|lia]. rewrite Hv', Hv. simpl. unfold ren. by rewrite E.
      * rewrite Hel. repeat case_decide; try done; lia.
  - f_equal. destruct a' as [e' l']. simpl in *. subst l'. f_equal.
    apply map_eq. intros i. rewrite Hel, lookup_fmap.
    case_decide; [done|].
    destruct (elts a !! i) as [v|] eqn:E; [|done]. apply Hdom in E. lia.
Qed.

Lemma alias_ok_merge a label_min label_max c :
  alias_ok a → 1 ≤ c ≤ len a → elts a !! (c - 1) = Some c →
  u16 label_min = c →
  alias_ok (mkGArray (ren label_min label_max <$> elts a) (len a)).
Proof.
  intros (Hlen & Hdom & Hok) Hc Hcc Hmin. split; [done|]. simpl. split.
  - intros i v. rewrite lookup_fmap.
    destruct (elts a !! i) as [v'|] eqn:E; [|done]. intros _. by eapply Hdom.
  - intros i Hi. destruct (Hok i Hi) as (v & Hv & Hr & Hvv).
    exists (ren label_min label_max v). rewrite lookup_fmap, Hv. simpl.
    split; [done|]. unfold ren. rewrite Hmin.
    destruct (v =? label_max) eqn:E.
    + split; [done|]. rewrite lookup_fmap, Hcc. simpl.
      by destruct (c =? label_max).
    + split; [done|]. rewrite lookup_fmap, Hvv. simpl. unfold ren. by rewrite E.
Qed.

Lemma alias_ok_append a :
  alias_ok a → alias_ok (g_array_append_val a (len a + 1)).
Proof.
  intros (Hlen & Hdom & Hok). unfold g_array_append_val.
  split; [simpl; lia|]. simpl. split.
  - intros i v. destruct (decide (i = len a)) as [->|]; [lia|].
    rewrite lookup_insert_ne by done. intros E. apply Hdom in E. lia.
  - intros i Hi. destruct (decide (i = len a)) as [->|].
    + exists (len a + 1). rewrite lookup_insert_eq. split; [done|].
      split; [lia|]. replace (len a + 1 - 1) with (len a) by lia.
      by rewrite lookup_insert_eq.
    + destruct (Hok i) as (v & Hv & Hr & Hvv); [lia|].
      exists v. rewrite !lookup_insert_ne by lia. split; [done|].
      split; [lia|done].
Qed.

Lemma alias_ok_new : alias_ok g_array_new.
Proof.
  split; [done|]. simpl. split.
  - intros i v E. by rewrite lookup_empty in E.
  - intros i Hi. lia.
Qed.

(** ** One labelling step, case by case *)

Lemma get_connected_label_N li x y :
  0 ≤ w li ≤ 65535 →
  get_connected_label li x y Dir.N = KOKI_LABELLED_IMAGE_LABEL li x (y - 1).
Proof.
  intros. unfold get_connected_label, KOKI_LABELLED_IMAGE_LABEL, label_index.
  rewrite u16_small by done. f_equal. lia.
Qed.

Lemma get_connected_label_NE li x y :
  0 ≤ w li ≤ 65535 →
  get_connected_label li x y Dir.NE
  = KOKI_LABELLED_IMAGE_LABEL li (x + 1) (y - 1).
Proof.
  intros. unfold get_connected_label, KOKI_LABELLED_IMAGE_LABEL, label_index.
  rewrite u16_small by done. f_equal. lia.
Qed.

Lemma get_connected_label_NW li x y :
  0 ≤ w li ≤ 65535 →
  get_connected_label li x y Dir.NW
  = KOKI_LABELLED_IMAGE_LABEL li (x - 1) (y - 1).
Proof.
  intros. unfold get_connected_label, KOKI_LABELLED_IMAGE_LABEL, label_index.
  rewrite u16_small by done. f_equal. lia.
Qed.

Lemma get_connected_label_W li x y :
  0 ≤ w li ≤ 65535 →
  get_connected_label li x y Dir.W = KOKI_LABELLED_IMAGE_LABEL li (x - 1) y.
Proof.
  intros. unfold get_connected_label, KOKI_LABELLED_IMAGE_LABEL, label_index.
  rewrite u16_small by done. f_equal. lia.
Qed.

Lemma set_label_zero li x y :
  0 ≤ label_index li x y < data_len li →
  set_label li x y 0
  = Some (with_data li (<[label_index li x y := 0]> (data li))).
Proof. intros. unfold set_label. simpl. by apply data_store_Some. Qed.

Lemma set_label_resolve li x y l c :
  0 ≤ label_index li x y < data_len li →
  resolve (aliases li) l = Some c → l ≠ 0 →
  set_label li x y l
  = Some (with_data li (<[label_index li x y := c]> (data li))).
Proof.
  intros Hidx Hres Hl. unfold set_label.
  destruct (l =? 0) eqn:E; [apply Z.eqb_eq in E; lia|].
  unfold resolve in Hres. destruct (g_array_index_Some _ _ _ Hres) as [Hb _].
  destruct (l - 1 <? len (aliases li)) eqn:E2; [|apply Z.ltb_ge in E2; lia].
  rewrite Hres. simpl. by apply data_store_Some.
Qed.

(** Reduction of the option monad, and of nothing else. *)
Ltac osimpl :=
  cbn [mbind option_bind fmap option_fmap option_map mret option_ret negb
       with_data with_aliases with_clips data w h aliases clips].

Section Labelling.

Variable img : IplImage.
Variable t : Z.
Hypothesis Hwf : well_formed img t.

Local Abbreviation wd := (width img).
Local Abbreviation ht := (height img).
Local Abbreviation fg := (foreground img t).

Lemma fg_in_range x y :
  0 ≤ x < wd → 0 ≤ y < ht → fg x y = negb (above_threshold img x y t).
Proof.
  intros. unfold foreground.
  destruct (0 <=? x) eqn:E1; [|apply Z.leb_gt in E1; lia].
  destruct (x <? wd) eqn:E2; [|apply Z.ltb_ge in E2; lia].
  destruct (0 <=? y) eqn:E3; [|apply Z.leb_gt in E3; lia].
  destruct (y <? ht) eqn:E4; [done|apply Z.ltb_ge in E4; lia].
Qed.

Lemma fg_true_in_range x y : fg x y = true → 0 ≤ x < wd ∧ 0 ≤ y < ht.
Proof.
  unfold foreground. intros E.
  repeat (apply andb_true_iff in E; destruct E as [E ?]). lia.
Qed.

Lemma inv_neighbour li x y i j :
  label_inv img t x y li → 0 ≤ y < ht →
  -1 ≤ i ≤ wd → -1 ≤ j → (j < y ∨ (j = y ∧ i < x)) →
  ∃ v, KOKI_LABELLED_IMAGE_LABEL li i j = Some v
       ∧ 0 ≤ v ≤ len (aliases li)
       ∧ (fg i j = true → 0 < v) ∧ (fg i j = false → v = 0).
Proof.
  intros HJ Hy Hi Hj Hbefore.
  destruct (inv_cells _ _ _ _ _ HJ i j) as (v & Hv & Hfg).
  - unfold visited, ring. lia.
  - exists v. split; [done|]. destruct (inv_aliases _ _ _ _ _ HJ) as (? & _).
    destruct (fg i j); split; try lia; split; (done || lia).
Qed.

Lemma inv_len_bound li x y :
  label_inv img t x y li → 0 ≤ x ≤ wd → 0 ≤ y < ht → len (aliases li) ≤ 65535.
Proof.
  intros HJ Hx Hy. rewrite (inv_len _ _ _ _ _ HJ).
  destruct Hwf as (_ & _ & _ & Hs). unfold seeds in Hs.
  pose proof (count_before_le_all (is_seed img t) wd ht x y Hx Hy). lia.
Qed.

Lemma inv_index li x y i j :
  label_inv img t x y li → -1 ≤ i ≤ wd → -1 ≤ j ≤ ht →
  0 ≤ label_index li i j < data_len li.
Proof.
  intros HJ Hi Hj. apply label_index_bounds.
  - by rewrite (inv_w _ _ _ _ _ HJ).
  - by rewrite (inv_h _ _ _ _ _ HJ).
Qed.

Lemma label_pixel_outcome li x y :
  label_inv img t x y li → 0 ≤ x < wd → 0 ≤ y < ht →
  ∃ n ne nw wv v a',
    KOKI_LABELLED_IMAGE_LABEL li x (y - 1) = Some n
    ∧ KOKI_LABELLED_IMAGE_LABEL li (x + 1) (y - 1) = Some ne
    ∧ KOKI_LABELLED_IMAGE_LABEL li (x - 1) (y - 1) = Some nw
    ∧ KOKI_LABELLED_IMAGE_LABEL li (x - 1) y = Some wv
    ∧ outcome (aliases li) n ne nw wv (fg x y) v a'
    ∧ label_pixel img li x y t
      = Some (mkLabelled (<[label_index li x y := v]> (data li))
                (w li) (h li) a' (clips li)).
Proof.
  intros HJ Hx Hy.
  destruct (inv_neighbour li x y x (y - 1) HJ) as (n & Hn & Hnr & Hn1 & Hn0);
    [lia..|].
  destruct (inv_neighbour li x y (x + 1) (y - 1) HJ)
    as (ne & Hne & Hner & Hne1 & Hne0); [lia..|].
  destruct (inv_neighbour li x y (x - 1) (y - 1) HJ)
    as (nw & Hnw & Hnwr & Hnw1 & Hnw0); [lia..|].
  destruct (inv_neighbour li x y (x - 1) y HJ)
    as (wv & Hwv & Hwvr & Hwv1 & Hwv0); [lia..|].
  exists n, ne, nw, wv.
  pose proof (inv_len_bound li x y HJ ltac:(lia) Hy) as Hlen.
  pose proof (inv_aliases _ _ _ _ _ HJ) as Hal.
  pose proof (inv_index li x y x y HJ ltac:(lia) ltac:(lia)) as Hidx.
  assert (0 ≤ w li ≤ 65535) as Hw.
  { rewrite (inv_w _ _ _ _ _ HJ). destruct Hwf as (? & _). lia. }
  assert (∀ l, 0 < l ≤ len (aliases li) →
            ∃ c, resolve (aliases li) l = Some c ∧ 1 ≤ c ≤ len (aliases li)
                 ∧ resolve (aliases li) c = Some c
                 ∧ set_label li x y l
                   = Some (with_data li (<[label_index li x y := c]> (data li))))
    as Hset.
  { intros l Hl. destruct (alias_ok_resolve _ l Hal) as (c & Hc & Hcr & Hcc);
      [lia|].
    exists c. repeat split; try done; try lia.
    apply set_label_resolve; [done|done|lia]. }
  unfold label_pixel. rewrite (fg_in_range x y Hx Hy).
  destruct (above_threshold img x y t) eqn:Eabove; osimpl.
  { exists 0, (aliases li). repeat split; try done; [constructor|].
    by rewrite set_label_zero. }
  rewrite get_connected_label_N, Hn by done. osimpl.
  destruct (0 <? n) eqn:En; [apply Z.ltb_lt in En|apply Z.ltb_ge in En].
  { destruct (Hset n) as (c & Hc & _ & _ & ->); [lia|].
    exists c, (aliases li). repeat split; try done.
    apply out_north; (done || lia). }
  rewrite get_connected_label_NE, Hne by done. osimpl.
  destruct (0 <? ne) eqn:Ene; [apply Z.ltb_lt in Ene|apply Z.ltb_ge in Ene].
  { rewrite get_connected_label_W, Hwv by done. osimpl.
    rewrite get_connected_label_NW, Hnw by done. osimpl.
    destruct (Hset ne) as (c1 & Hc1 & Hc1r & Hc1c & Hset1); [lia|].
    destruct ((0 <? i16 wv) || (0 <? i16 nw)) eqn:Ecnd.
    - assert (∃ l, ((0 < i16 nw ∧ l = nw) ∨ (i16 nw ≤ 0 ∧ 0 < i16 wv ∧ l = wv))
                ∧ 0 < l ≤ len (aliases li)
                ∧ (if 0 <? i16 nw
                   then g_array_index (aliases li) (i16 nw - 1)
                   else g_array_index (aliases li) (i16 wv - 1))
                  = resolve (aliases li) l) as (l & Hl & Hlr & ->).
      { destruct (0 <? i16 nw) eqn:E1;
          [apply Z.ltb_lt in E1|apply Z.ltb_ge in E1].
        - destruct (i16_pos nw) as [E2 ?]; [lia|done|].
          exists nw. rewrite E2. split; [left; lia|]. split; [lia|done].
        - rewrite orb_false_r in Ecnd. apply Z.ltb_lt in Ecnd.
          destruct (i16_pos wv) as [E2 ?]; [lia|done|].
          exists wv. rewrite E2. split; [right; lia|]. split; [lia|done]. }
      destruct (Hset l) as (c2 & Hc2 & Hc2r & Hc2c & _); [lia|].
      fold (resolve (aliases li) ne). rewrite Hc1, Hc2. osimpl.
      set (lmin := if i16 c2 <? i16 c1 then i16 c2 else i16 c1).
      set (lmax := if i16 c2 <? i16 c1 then i16 c1 else i16 c2).
      assert (lmin = Z.min (i16 c1) (i16 c2) ∧ lmax = Z.max (i16 c1) (i16 c2))
        as [Emin Emax].
      { unfold lmin, lmax. destruct (i16 c2 <? i16 c1) eqn:E;
          [apply Z.ltb_lt in E|apply Z.ltb_ge in E]; lia. }
      assert (u16 lmin = c1 ∨ u16 lmin = c2) as Hu.
      { unfold lmin. destruct (i16 c2 <? i16 c1);
          [right|left]; apply u16_i16; lia. }
      assert (resolve (aliases li) (u16 lmin) = Some (u16 lmin)) as Hres.
      { by destruct Hu as [-> | ->]. }
      rewrite (set_label_resolve li x y (u16 lmin) (u16 lmin));
        [|done|done|destruct Hu; lia].
      osimpl. destruct Hal as (Hl0 & Hdom & Hok).
      rewrite merge_aliases_spec; [|done|done|].
      + osimpl. eexists _, _. repeat split; try done.
        clearbody lmin lmax. subst lmin lmax.
        apply (out_merge _ _ _ _ _ l c1 c2); (done || lia).
      + intros i Hi. destruct (Hok i Hi) as (v & -> & _). by eexists.
    - apply orb_false_iff in Ecnd as [E1 E2].
      apply Z.ltb_ge in E1, E2. rewrite Hset1.
      exists c1, (aliases li). repeat split; try done.
      apply out_north_east; (done || lia). }
  rewrite get_connected_label_NW, Hnw by done. osimpl.
  destruct (0 <? nw) eqn:Enw; [apply Z.ltb_lt in Enw|apply Z.ltb_ge in Enw].
  { destruct (Hset nw) as (c & Hc & _ & _ & ->); [lia|].
    exists c, (aliases li). repeat split; try done.
    apply out_north_west; (done || lia). }
  rewrite get_connected_label_W, Hwv by done. osimpl.
  destruct (0 <? wv) eqn:Ewv; [apply Z.ltb_lt in Ewv|apply Z.ltb_ge in Ewv].
  { destruct (Hset wv) as (c & Hc & _ & _ & ->); [lia|].
    exists c, (aliases li). repeat split; try done.
    apply out_west; (done || lia). }
  assert (is_seed img t x y = true) as Hseed.
  { unfold is_seed. rewrite (fg_in_range x y Hx Hy), Eabove. simpl.
    destruct (fg x (y - 1)); [specialize (Hn1 eq_refl); lia|].
    destruct (fg (x + 1) (y - 1)); [specialize (Hne1 eq_refl); lia|].
    destruct (fg (x - 1) (y - 1)); [specialize (Hnw1 eq_refl); lia|].
    destruct (fg (x - 1) y); [specialize (Hwv1 eq_refl); lia|]. done. }
  assert (len (aliases li) + 1 ≤ 65535) as Hnew.
  { rewrite (inv_len _ _ _ _ _ HJ).
    pose proof (count_before_succ (is_seed img t) wd x y ltac:(lia)) as E.
    rewrite Hseed in E. simpl in E.
    destruct Hwf as (_ & _ & _ & Hs). unfold seeds in Hs.
    destruct (decide (x + 1 = wd)) as [Ex|].
    - pose proof (count_before_le_all (is_seed img t) wd ht (x + 1) y
                    ltac:(lia) Hy). lia.
    - pose proof (count_before_le_all (is_seed img t) wd ht (x + 1) y
                    ltac:(lia) Hy). lia. }
  destruct Hal as (Hl0 & Hdom & Hok).
  rewrite u16_small by lia.
  exists (len (aliases li) + 1), (g_array_append_val (aliases li) (len (aliases li) + 1)).
  repeat split; try done.
  - apply out_new; (done || lia).
  - erewrite set_label_resolve; [done|done| |lia].
    unfold resolve. simpl. rewrite g_array_index_in by (simpl; lia).
    simpl. replace (len (aliases li) + 1 - 1) with (len (aliases li)) by lia.
    by rewrite lookup_insert_eq.
Qed.

Lemma is_seed_false_bg x y : fg x y = false → is_seed img t x y = false.
Proof. intros E. unfold is_seed. by rewrite E. Qed.

Lemma is_seed_false_nbr x y i j :
  fg i j = true →
  (i = x ∧ j = y - 1) ∨ (i = x + 1 ∧ j = y - 1)
  ∨ (i = x - 1 ∧ j = y - 1) ∨ (i = x - 1 ∧ j = y) →
  is_seed img t x y = false.
Proof.
  intros E Hij. unfold is_seed.
  destruct Hij as [[-> ->]|[[-> ->]|[[-> ->]|[-> ->]]]]; rewrite E; simpl;
    rewrite ?andb_false_r; done.
Qed.

Lemma resolve_canonical a l c :
  alias_ok a → resolve a l = Some c →
  1 ≤ l ≤ len a ∧ 1 ≤ c ≤ len a ∧ resolve a c = Some c
  ∧ elts a !! (c - 1) = Some c.
Proof.
  intros (Hlen & Hdom & Hok) Hres. unfold resolve in *.
  apply g_array_index_Some in Hres as [Hl Hc].
  destruct (Hok (l - 1) Hl) as (v & Hv & Hr & Hvv).
  assert (v = c) as -> by congruence.
  rewrite g_array_index_in by lia. repeat split; (done || lia).
Qed.

Lemma outcome_ok a n ne nw wv b v a' :
  alias_ok a → len a ≤ 65535 → outcome a n ne nw wv b v a' →
  alias_ok a' ∧ len a ≤ len a' ∧ if b then 1 ≤ v ≤ len a' else v = 0.
Proof.
  intros Hal Hlen Hout.
  destruct Hout as [|c ? Hc|c ? ? ? ? Hc|l c1 c2 ? ? ? Hc1 Hc2
                    |c ? ? ? Hc|c ? ? ? ? Hc|].
  - done.
  - destruct (resolve_canonical a _ _ Hal Hc) as (? & ? & ?). done.
  - destruct (resolve_canonical a _ _ Hal Hc) as (? & ? & ?). done.
  - destruct (resolve_canonical a _ _ Hal Hc1) as (? & ? & ? & ?).
    destruct (resolve_canonical a _ _ Hal Hc2) as (? & ? & ? & ?).
    assert (u16 (i16 c1 `min` i16 c2) = c1 ∨ u16 (i16 c1 `min` i16 c2) = c2)
      as Hu.
    { destruct (Z.min_spec (i16 c1) (i16 c2)) as [[_ ->]|[_ ->]];
        [left|right]; apply u16_i16; lia. }
    simpl. split; [|destruct Hu as [-> | ->]; lia].
    destruct Hu as [Hu|Hu].
    + by apply (alias_ok_merge a _ _ c1).
    + by apply (alias_ok_merge a _ _ c2).
  - destruct (resolve_canonical a _ _ Hal Hc) as (? & ? & ?). done.
  - destruct (resolve_canonical a _ _ Hal Hc) as (? & ? & ?). done.
  - split; [by apply alias_ok_append|]. destruct Hal as (? & _).
    simpl. lia.
Qed.

Lemma inv_step li x y v a' :
  label_inv img t x y li → 0 ≤ x < wd → 0 ≤ y < ht →
  alias_ok a' → len (aliases li) ≤ len a' →
  len a' = count_before (is_seed img t) wd (x + 1) y →
  (if fg x y then 1 ≤ v ≤ len a' else v = 0) →
  label_inv img t (x + 1) y
    (mkLabelled (<[label_index li x y := v]> (data li)) (w li) (h li) a'
       (clips li)).
Proof.
  intros HJ Hx Hy Hal Hle Hcount Hv.
  destruct HJ as [Hw Hh Hc Hcells _ _].
  split; try done. intros i j Hvis.
  unfold KOKI_LABELLED_IMAGE_LABEL, label_index. simpl.
  fold (label_index li i j). fold (label_index li x y).
  destruct (decide (i = x ∧ j = y)) as [[-> ->]|Hne].
  - exists v. by rewrite lookup_insert_eq.
  - assert (visited img x y i j ∧ -1 ≤ i ≤ wd) as [Hvis' Hi].
    { unfold visited, ring in *. lia. }
    rewrite lookup_insert_ne.
    + destruct (Hcells i j Hvis') as (v' & Hv' & Hfg). exists v'.
      split; [done|]. destruct (fg i j); lia.
    + intros E. apply label_index_inj in E; lia.
Qed.

Lemma label_pixel_inv li x y :
  label_inv img t x y li → 0 ≤ x < wd → 0 ≤ y < ht →
  ∃ li', label_pixel img li x y t = Some li' ∧ label_inv img t (x + 1) y li'.
Proof.
  intros HJ Hx Hy.
  destruct (label_pixel_outcome li x y HJ Hx Hy)
    as (n & ne & nw & wv & v & a' & Hn & Hne & Hnw & Hwv & Hout & ->).
  eexists. split; [done|].
  pose proof (inv_len_bound li x y HJ ltac:(lia) Hy) as Hlen.
  destruct (outcome_ok _ _ _ _ _ _ _ _ (inv_aliases _ _ _ _ _ HJ) Hlen Hout)
    as (Hal' & Hle & Hv).
  apply inv_step; try done.
  rewrite count_before_succ by lia. rewrite <- (inv_len _ _ _ _ _ HJ).
  assert (∀ i j l, KOKI_LABELLED_IMAGE_LABEL li i j = Some l → 0 < l →
            -1 ≤ i ≤ wd → -1 ≤ j → (j < y ∨ (j = y ∧ i < x)) →
            fg i j = true) as Hpos.
  { intros i j l Hl Hlpos Hi Hj Hb.
    destruct (inv_neighbour li x y i j HJ Hy Hi Hj Hb)
      as (l' & Hl' & _ & _ & H0).
    destruct (fg i j); [done|]. specialize (H0 eq_refl). simplify_eq. lia. }
  clear Hv. remember (fg x y) as b eqn:Eb. symmetry in Eb. destruct Hout.
  - rewrite is_seed_false_bg by done. simpl. lia.
  - rewrite (is_seed_false_nbr x y x (y - 1)); [simpl; lia| |tauto].
    eapply Hpos; [done|done|lia..].
  - rewrite (is_seed_false_nbr x y (x + 1) (y - 1)); [simpl; lia| |tauto].
    eapply Hpos; [done|done|lia..].
  - rewrite (is_seed_false_nbr x y (x + 1) (y - 1)); [simpl; lia| |tauto].
    eapply Hpos; [done|done|lia..].
  - rewrite (is_seed_false_nbr x y (x - 1) (y - 1)); [simpl; lia| |tauto].
    eapply Hpos; [done|done|lia..].
  - rewrite (is_seed_false_nbr x y (x - 1) y); [simpl; lia| |tauto].
    eapply Hpos; [done|done|lia..].
  - assert (is_seed img t x y = true) as ->; [|simpl; lia].
    unfold is_seed. rewrite Eb.
    destruct (inv_neighbour li x y x (y - 1) HJ)
      as (? & ? & _ & F1 & _); [lia..|].
    destruct (inv_neighbour li x y (x + 1) (y - 1) HJ)
      as (? & ? & _ & F2 & _); [lia..|].
    destruct (inv_neighbour li x y (x - 1) (y - 1) HJ)
      as (? & ? & _ & F3 & _); [lia..|].
    destruct (inv_neighbour li x y (x - 1) y HJ)
      as (? & ? & _ & F4 & _); [lia..|].
    destruct (fg x (y - 1)); [specialize (F1 eq_refl); simplify_eq; lia|].
    destruct (fg (x + 1) (y - 1)); [specialize (F2 eq_refl); simplify_eq; lia|].
    destruct (fg (x - 1) (y - 1)); [specialize (F3 eq_refl); simplify_eq; lia|].
    destruct (fg (x - 1) y); [specialize (F4 eq_refl); simplify_eq; lia|].
    done.
Qed.

Lemma label_inv_row li y :
  label_inv img t wd y li → 0 ≤ y < ht → label_inv img t 0 (y + 1) li.
Proof.
  intros [Hw Hh Hc Hcells Hal Hlen] Hy. split; try done.
  - intros i j Hvis. apply Hcells. unfold visited, ring in *. lia.
  - rewrite count_before_row by lia. done.
Qed.

Lemma label_inv_new li :
  koki_labelled_image_new (u16 wd) (u16 ht) = Some li → label_inv img t 0 0 li.
Proof.
  destruct Hwf as (Hw & Hh & Hsz & _).
  rewrite !u16_small by lia. intros Hnew.
  destruct (koki_labelled_image_new_spec wd ht)
    as (li' & Hnew' & ? & ? & Hal & ? & Hring & _); [lia..|].
  assert (li' = li) as -> by congruence.
  split; try done.
  - intros i j [Hr|?]; [|lia]. exists 0. split; [by apply Hring|].
    assert (fg i j = false) as ->; [|done].
    destruct (fg i j) eqn:E; [|done].
    apply fg_true_in_range in E. unfold ring in Hr. lia.
  - rewrite Hal. apply alias_ok_new.
  - by rewrite Hal.
Qed.

Lemma reach_inv x y li : reach img t x y li → label_inv img t x y li.
Proof.
  induction 1 as [li Hnew|x y li li' _ IH Hx Hy Hstep|y li _ IH Hy].
  - by apply label_inv_new.
  - destruct (label_pixel_inv li x y IH Hx Hy) as (li'' & E & HJ).
    congruence.
  - by apply label_inv_row.
Qed.

Lemma reach_range x y li : reach img t x y li → 0 ≤ x ≤ wd ∧ 0 ≤ y ≤ ht.
Proof.
  destruct Hwf as (Hw & Hh & _).
  induction 1; lia.
Qed.

(** The labelling pass runs to completion. *)
Lemma label_pass_total :
  ∃ li0 li, koki_labelled_image_new (u16 wd) (u16 ht) = Some li0
    ∧ label_pass img t li0 = Some li
    ∧ reach img t 0 ht li.
Proof.
  pose proof Hwf as (Hw & Hh & Hsz & _).
  destruct (koki_labelled_image_new_spec wd ht) as (li0 & Hnew & _); [lia..|].
  rewrite <- (u16_small wd), <- (u16_small ht) in Hnew by lia.
  exists li0. unfold label_pass.
  destruct (for_u16_inv (λ y li, reach img t 0 y li)
    (λ row li, for_u16 0 wd (λ col li, label_pixel img li col row t) li)
    0 ht li0) as (li & Hrun & Hreach).
  - lia.
  - by apply reach_new.
  - intros y li Hy Hr.
    destruct (for_u16_inv (λ x li, reach img t x y li)
      (λ col li, label_pixel img li col y t) 0 wd li) as (li' & Hrow & Hr').
    + lia.
    + done.
    + intros x li' Hx Hr'.
      destruct (label_pixel_inv li' x y (reach_inv _ _ _ Hr') Hx Hy)
        as (li'' & Hstep & _).
      exists li''. split; [done|]. by eapply reach_pixel.
    + exists li'. split; [done|]. by apply reach_row.
  - by exists li.
Qed.

End Labelling.

(** ** The statistics pass: facts *)

Lemma find_max_alias_spec a :
  alias_ok a → ∃ m, find_max_alias a = Some m ∧ max_alias_of a m.
Proof.
  intros (Hlen & Hdom & Hok). unfold find_max_alias.
  destruct (for_int_inv
    (λ k m, 0 ≤ m
       ∧ (∀ i v, 0 ≤ i < k → elts a !! i = Some v → v ≤ m)
       ∧ (k ≤ 0 → m = 0)
       ∧ (0 < k → ∃ i, 0 ≤ i < k ∧ elts a !! i = Some m))
    (λ i max_alias, alias ← g_array_index a i;
       Some (if max_alias <? alias then alias else max_alias))
    0 (len a) 0) as (m & Hm & HI).
  - done.
  - split_and!; [done| |done|]; intros; lia.
  - intros k m Hk (Hm0 & Hle & Hz & Hex).
    destruct (Hok k Hk) as (v & Hv & Hvr & _).
    rewrite g_array_index_in, Hv by done. osimpl.
    eexists. split; [done|].
    destruct (m <? v) eqn:E; [apply Z.ltb_lt in E|apply Z.ltb_ge in E].
    + split_and!; [lia| |lia|].
      * intros i v' Hi Hv'. destruct (decide (i = k)) as [->|].
        -- simplify_eq. lia.
        -- specialize (Hle i v' ltac:(lia) Hv'). lia.
      * intros _. exists k. split; [lia|done].
    + split_and!; [lia| |lia|].
      * intros i v' Hi Hv'. destruct (decide (i = k)) as [->|].
        -- simplify_eq. lia.
        -- apply (Hle i v'); [lia|done].
      * intros _. destruct (decide (k = 0)) as [->|].
        -- specialize (Hz ltac:(lia)). lia.
        -- destruct Hex as (i & ? & ?); [lia|]. exists i. split; [lia|done].
  - by exists m.
Qed.

Lemma init_clips_spec m :
  0 ≤ m →
  ∃ c, init_clips m g_array_new = Some c ∧ len c = m
       ∧ ∀ i, 0 ≤ i < m → elts c !! i = Some init_clip.
Proof.
  intros Hm. unfold init_clips.
  destruct (for_int_inv
    (λ k (c : GArray koki_clip_region_t),
       len c = k ∧ ∀ i, 0 ≤ i < k → elts c !! i = Some init_clip)
    (λ _ c, Some (g_array_append_val c init_clip)) 0 m g_array_new)
    as (c & Hc & Hl & Hel).
  - done.
  - split; [done|]. intros; lia.
  - intros k c Hk (Hl & Hel). eexists. split; [done|].
    unfold g_array_append_val. simpl. split; [lia|].
    intros i Hi. destruct (decide (i = k)) as [->|].
    + by rewrite Hl, lookup_insert_eq.
    + rewrite lookup_insert_ne by lia. apply Hel. lia.
  - by exists c.
Qed.

Lemma sum_range_update f g lo n k :
  lo ≤ k < lo + Z.of_nat n → (∀ i, i ≠ k → g i = f i) →
  sum_range g lo n = sum_range f lo n + (g k - f k).
Proof.
  revert lo. induction n as [|n IH]; intros lo Hk Hfg; [lia|].
  cbn [sum_range]. destruct (decide (k = lo)) as [->|].
  - rewrite (sum_range_ext g f (lo + 1) n); [lia|].
    intros i Hi. apply Hfg. lia.
  - rewrite IH by (done || lia). rewrite (Hfg lo) by lia. lia.
Qed.

Lemma mass_sum_update c k r r' :
  0 ≤ k < len c → elts c !! k = Some r →
  mass_sum (mkGArray (<[k := r']> (elts c)) (len c))
  = mass_sum c + (mass r' - mass r).
Proof.
  intros Hk Hr. unfold mass_sum. simpl.
  rewrite (sum_range_update
    (λ i, match elts c !! i with Some r => mass r | None => 0 end)
    (λ i, match <[k := r']> (elts c) !! i with Some r => mass r | None => 0 end)
    0 (Z.to_nat (len c)) k).
  - by rewrite lookup_insert_eq, Hr.
  - lia.
  - intros i Hi. by rewrite lookup_insert_ne.
Qed.

Lemma sum_range_zero lo n : sum_range (λ _, 0) lo n = 0.
Proof.
  revert lo. induction n as [|n IH]; intros lo; cbn [sum_range]; [done|].
  by rewrite IH.
Qed.

Lemma mass_sum_init c :
  (∀ i, 0 ≤ i < len c → elts c !! i = Some init_clip) → mass_sum c = 0.
Proof.
  intros Hc. unfold mass_sum.
  rewrite (sum_range_ext _ (λ _, 0)); [apply sum_range_zero|].
  intros i Hi. rewrite Hc by lia. done.
Qed.

Lemma count_before_nonneg g wd x y : 0 ≤ count_before g wd x y.
Proof.
  unfold count_before.
  pose proof (sum_range_nonneg (λ j, count_row g j wd) 0 (Z.to_nat y)
                (λ j, count_row_nonneg g j wd)).
  pose proof (count_row_nonneg g y x). lia.
Qed.

Lemma region_ok_init li wd ht c : region_ok li wd ht 0 0 c init_clip.
Proof.
  split; try done.
  intros i j Hs. unfold scanned in Hs. lia.
Qed.

Lemma region_ok_row li wd ht y c r :
  0 ≤ y → region_ok li wd ht wd y c r → region_ok li wd ht 0 (y + 1) c r.
Proof.
  intros Hy [Hm He Hb Ha].
  assert (∀ i j, scanned wd ht 0 (y + 1) i j ↔ scanned wd ht wd y i j) as Hs.
  { intros i j. unfold scanned. lia. }
  split; try done.
  - by rewrite count_before_row.
  - intros i j Hij. apply Hb. by apply Hs.
  - intros Hpos. destruct (Ha Hpos) as (H1 & H2 & H3 & H4).
    split_and!; [destruct H1 as (i & j & ? & ?)|destruct H2 as (i & j & ? & ?)
                |destruct H3 as (i & j & ? & ?)|destruct H4 as (i & j & ? & ?)];
      exists i, j; (split; [by apply Hs|done]).
Qed.

Lemma region_ok_skip li wd ht x y c r :
  0 ≤ x → final_id li x y ≠ Some c →
  region_ok li wd ht x y c r → region_ok li wd ht (x + 1) y c r.
Proof.
  intros Hx Hne [Hm He Hb Ha].
  assert (∀ i j, scanned wd ht x y i j → scanned wd ht (x + 1) y i j) as Hs.
  { intros i j. unfold scanned. lia. }
  split; try done.
  - rewrite count_before_succ by done. unfold in_region at 2.
    rewrite bool_decide_eq_false_2 by done. simpl. lia.
  - intros i j Hij Hc. apply Hb; [|done].
    destruct (decide (i = x ∧ j = y)) as [[-> ->]|]; [done|].
    unfold scanned in *. lia.
  - intros Hpos. destruct (Ha Hpos) as (H1 & H2 & H3 & H4).
    split_and!; [destruct H1 as (i & j & ? & ?)|destruct H2 as (i & j & ? & ?)
                |destruct H3 as (i & j & ? & ?)|destruct H4 as (i & j & ? & ?)];
      exists i, j; (split; [by apply Hs|done]).
Qed.

Lemma region_ok_add li wd ht x y c r :
  0 ≤ x < wd → 0 ≤ y < ht → wd ≤ 65535 → ht ≤ 65535 →
  final_id li x y = Some c →
  region_ok li wd ht x y c r →
  region_ok li wd ht (x + 1) y c (update_clip r x y).
Proof.
  intros Hx Hy Hwd Hht Hc [Hm He Hb Ha].
  assert (∀ i j, scanned wd ht x y i j → scanned wd ht (x + 1) y i j) as Hs.
  { intros i j. unfold scanned. lia. }
  assert (scanned wd ht (x + 1) y x y) as Hxy by (unfold scanned; lia).
  pose proof (count_before_nonneg (in_region li c) wd x y) as Hnn.
  split.
  - rewrite count_before_succ by lia. unfold in_region at 2.
    rewrite bool_decide_eq_true_2 by done. simpl. lia.
  - simpl. lia.
  - intros i j Hij Hcij.
    destruct (decide (i = x ∧ j = y)) as [[-> ->]|].
    + simpl. repeat case_match; lia.
    + destruct (Hb i j) as [? ?]; [unfold scanned in *; lia|done|].
      simpl. repeat case_match; lia.
  - intros _. destruct (decide (mass r = 0)) as [E|E].
    + rewrite (He E). unfold update_clip, init_clip. simpl.
      assert ((x <? 65535) = true) as -> by (apply Z.ltb_lt; lia).
      assert ((y <? 65535) = true) as -> by (apply Z.ltb_lt; lia).
      assert ((if 0 <? x then x else 0) = x) as ->
        by (destruct (0 <? x) eqn:E0; [done|apply Z.ltb_ge in E0; lia]).
      assert ((if 0 <? y then y else 0) = y) as ->
        by (destruct (0 <? y) eqn:E0; [done|apply Z.ltb_ge in E0; lia]).
      split_and!; by exists x, y.
    + destruct Ha as (H1 & H2 & H3 & H4); [lia|]. simpl.
      split_and!.
      * destruct (x <? pt_x (clip_min r)); [by exists x, y|].
        destruct H1 as (i & j & ? & ?). exists i, j. split; [by apply Hs|done].
      * destruct (y <? pt_y (clip_min r)); [by exists x, y|].
        destruct H2 as (i & j & ? & ?). exists i, j. split; [by apply Hs|done].
      * destruct (pt_x (clip_max r) <? x); [by exists x, y|].
        destruct H3 as (i & j & ? & ?). exists i, j. split; [by apply Hs|done].
      * destruct (pt_y (clip_max r) <? y); [by exists x, y|].
        destruct H4 as (i & j & ? & ?). exists i, j. split; [by apply Hs|done].
Qed.

Section Stats.

Variable img : IplImage.
Variable t : Z.
Hypothesis Hwf : well_formed img t.

Local Abbreviation wd := (width img).
Local Abbreviation ht := (height img).
Local Abbreviation fg := (foreground img t).

(** The labelled image that the labelling pass hands over, and the largest
    value of its alias table. *)
Variable li : koki_labelled_image_t.
Variable m : Z.
Hypothesis HJ : label_inv img t 0 ht li.
Hypothesis Hm : max_alias_of (aliases li) m.

Lemma labelled_cell x y :
  0 ≤ x < wd → 0 ≤ y < ht →
  ∃ l, KOKI_LABELLED_IMAGE_LABEL li x y = Some l
       ∧ if fg x y then 1 ≤ l ≤ len (aliases li) else l = 0.
Proof.
  intros Hx Hy. apply (inv_cells _ _ _ _ _ HJ). unfold visited. lia.
Qed.

Lemma gather_pixel_inv li' x y :
  stats_inv img t li m x y li' → 0 ≤ x < wd → 0 ≤ y < ht →
  ∃ li'', gather_pixel li' x y = Some li'' ∧ stats_inv img t li m (x + 1) y li''.
Proof.
  intros [Hd Hw Hh Ha Hl Hreg Hmass] Hx Hy.
  destruct (labelled_cell x y Hx Hy) as (l & Hcell & Hfg).
  pose proof Hwf as (Hwd & Hht & _).
  unfold gather_pixel.
  assert (KOKI_LABELLED_IMAGE_LABEL li' x y = Some l) as ->.
  { unfold KOKI_LABELLED_IMAGE_LABEL, label_index in *. by rewrite Hd, Hw. }
  osimpl. destruct (fg x y) eqn:Efg.
  - destruct (l =? 0) eqn:E0; [apply Z.eqb_eq in E0; lia|].
    destruct (alias_ok_resolve (aliases li) l (inv_aliases _ _ _ _ _ HJ) Hfg)
      as (ca & Hca & Hcar & _).
    assert (final_id li x y = Some ca) as Hfin.
    { unfold final_id. rewrite Hcell. osimpl. by rewrite E0. }
    assert (ca ≤ m) as Hcam.
    { destruct Hm as (_ & Hmax & _). unfold resolve in Hca.
      apply g_array_index_Some in Hca as [? ?]. by eapply Hmax. }
    rewrite Ha. unfold resolve in Hca. rewrite Hca. osimpl.
    destruct (Hreg ca) as (r & Hr & Hrok); [lia|].
    rewrite g_array_index_in, Hr by lia. osimpl.
    rewrite g_array_set_in by lia. osimpl.
    eexists. split; [done|]. split; try done.
    + intros c Hc. simpl. destruct (decide (c = ca)) as [->|].
      * exists (update_clip r x y). rewrite lookup_insert_eq. split; [done|].
        apply region_ok_add; try done; lia.
      * destruct (Hreg c Hc) as (r' & Hr' & Hrok').
        exists r'. rewrite lookup_insert_ne by lia. split; [done|].
        apply region_ok_skip; [lia| |done]. rewrite Hfin. congruence.
    + simpl. rewrite (mass_sum_update _ _ r) by (done || lia).
      rewrite count_before_succ, Efg by lia. simpl. lia.
  - subst l. simpl. eexists. split; [done|].
    assert (final_id li x y = Some 0) as Hfin.
    { unfold final_id. by rewrite Hcell. }
    split; try done.
    + intros c Hc. destruct (Hreg c Hc) as (r & Hr & Hrok).
      exists r. split; [done|].
      apply region_ok_skip; [lia| |done]. rewrite Hfin. intros [=]. lia.
    + rewrite count_before_succ, Efg by lia. simpl. lia.
Qed.

Lemma stats_inv_row li' y :
  stats_inv img t li m wd y li' → 0 ≤ y → stats_inv img t li m 0 (y + 1) li'.
Proof.
  intros [Hd Hw Hh Ha Hl Hreg Hmass] Hy. split; try done.
  - intros c Hc. destruct (Hreg c Hc) as (r & Hr & Hrok).
    exists r. split; [done|]. by apply region_ok_row.
  - by rewrite count_before_row.
Qed.

Lemma stats_pass_total :
  find_max_alias (aliases li) = Some m →
  ∃ li', stats_pass img li = Some li' ∧ stats_inv img t li m 0 ht li'.
Proof.
  intros Hfind. pose proof Hwf as (Hwd & Hht & _).
  unfold stats_pass. rewrite Hfind. osimpl.
  rewrite (inv_clips _ _ _ _ _ HJ).
  destruct (init_clips_spec m) as (c0 & -> & Hl0 & Hel0);
    [by destruct Hm|].
  osimpl.
  destruct (for_u16_inv (λ y li', stats_inv img t li m 0 y li')
    (λ y li', for_u16 0 wd (λ x li', gather_pixel li' x y) li')
    0 ht (with_clips li c0)) as (li' & Hrun & Hinv).
  - lia.
  - split; try done.
    + intros c Hc. exists init_clip. simpl. split; [apply Hel0; lia|].
      apply region_ok_init.
    + simpl. rewrite mass_sum_init; [done|].
      intros i Hi. apply Hel0. lia.
  - intros y li' Hy Hinv.
    destruct (for_u16_inv (λ x li', stats_inv img t li m x y li')
      (λ x li', gather_pixel li' x y) 0 wd li') as (li'' & Hrow & Hinv').
    + lia.
    + done.
    + intros x li'' Hx Hinv'. by apply gather_pixel_inv.
    + exists li''. split; [done|]. apply stats_inv_row; [done|lia].
  - by exists li'.
Qed.

End Stats.

(** ** The whole run *)

Section Run.

Variable float_mul : Q → Q → Q.
Variable img : IplImage.
Variable threshold : Q.

Local Abbreviation t := (threshold_x_3_of float_mul threshold).

Hypothesis Hwf : well_formed img t.

(** A run on a well-formed input returns; its result is the last state of
    the labelling pass together with the statistics of that state. *)
Lemma koki_label_image_spec :
  ∃ li m li',
    reach img t 0 (height img) li
    ∧ max_alias_of (aliases li) m
    ∧ koki_label_image float_mul img threshold = Some li'
    ∧ stats_inv img t li m 0 (height img) li'.
Proof.
  destruct (label_pass_total img t Hwf) as (li0 & li & Hnew & Hpass & Hreach).
  pose proof (reach_inv img t Hwf _ _ _ Hreach) as HJ.
  destruct (find_max_alias_spec (aliases li) (inv_aliases _ _ _ _ _ HJ))
    as (m & Hfind & Hm).
  destruct (stats_pass_total img t Hwf li m HJ Hm Hfind) as (li' & Hst & Hinv).
  exists li, m, li'. split_and!; try done.
  unfold koki_label_image. rewrite Hnew. osimpl. rewrite Hpass. done.
Qed.

End Run.

(** ** What a step can write *)

Lemma iterM_post {St : Type} (I : Z → St → Prop) (body : Z → St → option St)
    (n : nat) (lo : Z) (s s' : St) :
  iterM n lo body s = Some s' →
  I lo s →
  (∀ i s s', lo ≤ i < lo + Z.of_nat n → I i s → body i s = Some s' →
     I (i + 1) s') →
  I (lo + Z.of_nat n) s'.
Proof.
  revert lo s. induction n as [|n IH]; intros lo s Hrun H0 Hstep.
  - simpl in Hrun. simplify_eq. by replace (lo + Z.of_nat 0) with lo by lia.
  - simpl in Hrun. destruct (body lo s) as [s1|] eqn:Hb; [|done].
    replace (lo + Z.of_nat (S n)) with (lo + 1 + Z.of_nat n) by lia.
    apply (IH (lo + 1) s1 Hrun).
    + apply (Hstep lo s s1); [lia|done|done].
    + intros i s2 s3 Hi. apply Hstep. lia.
Qed.

Lemma for_u16_post {St : Type} (I : Z → St → Prop) (body : Z → St → option St)
    (lo bound : Z) (s s' : St) :
  lo ≤ bound →
  for_u16 lo bound body s = Some s' →
  I lo s →
  (∀ i s s', lo ≤ i < bound → I i s → body i s = Some s' → I (i + 1) s') →
  I bound s'.
Proof.
  intros Hle Hrun H0 Hstep. unfold for_u16 in Hrun.
  destruct (65535 <? bound); [done|].
  replace bound with (lo + Z.of_nat (Z.to_nat (bound - lo))) by lia.
  apply (iterM_post I body _ lo s s' Hrun H0).
  intros i s1 s2 Hi. apply Hstep. lia.
Qed.

Lemma data_store_inv li i v li' :
  data_store li i v = Some li' → li' = with_data li (<[i := v]> (data li)).
Proof.
  unfold data_store. destruct ((0 <=? i) && (i <? data_len li)); congruence.
Qed.

Lemma set_label_frame li x y l li' :
  set_label li x y l = Some li' →
  ∃ v, li' = with_data li (<[label_index li x y := v]> (data li)).
Proof.
  unfold set_label. destruct (l =? 0).
  - intros E. exists 0. by apply data_store_inv.
  - destruct (l - 1 <? len (aliases li)); [|done].
    destruct (g_array_index (aliases li) (l - 1)) as [v|]; [|done].
    osimpl. intros E. exists v. by apply data_store_inv.
Qed.

(** A labelling step writes the cell of its own pixel and no other cell. *)
Lemma label_pixel_frame img li x y t li' :
  label_pixel img li x y t = Some li' →
  ∃ v, data li' = <[label_index li x y := v]> (data li)
       ∧ w li' = w li ∧ h li' = h li ∧ clips li' = clips li.
Proof.
  assert (∀ l li', set_label li x y l = Some li' →
            ∃ v, data li' = <[label_index li x y := v]> (data li)
                 ∧ w li' = w li ∧ h li' = h li ∧ clips li' = clips li) as Hset.
  { intros l li1 E. apply set_label_frame in E as (v & ->). by exists v. }
  unfold label_pixel.
  destruct (above_threshold img x y t); [by apply Hset|].
  destruct (get_connected_label li x y Dir.N) as [n|]; [|done]. osimpl.
  destruct (0 <? n); [by apply Hset|].
  destruct (get_connected_label li x y Dir.NE) as [ne|]; [|done]. osimpl.
  destruct (0 <? ne).
  - destruct (get_connected_label li x y Dir.W) as [wv|]; [|done]. osimpl.
    destruct (get_connected_label li x y Dir.NW) as [nw|]; [|done]. osimpl.
    destruct ((0 <? i16 wv) || (0 <? i16 nw)); [|by apply Hset].
    destruct (g_array_index (aliases li) (ne - 1)) as [c1|]; [|done]. osimpl.
    destruct (if 0 <? i16 nw then _ else _) as [c2|]; [|done]. osimpl.
    destruct (set_label li x y _) as [li1|] eqn:E1; [|done]. osimpl.
    destruct (merge_aliases _ _ _) as [a|]; [|done]. osimpl.
    intros [= <-]. apply Hset in E1 as (v & ? & ? & ? & ?). by exists v.
  - destruct (get_connected_label li x y Dir.NW) as [nw|]; [|done]. osimpl.
    destruct (0 <? nw); [by apply Hset|].
    destruct (get_connected_label li x y Dir.W) as [wv|]; [|done]. osimpl.
    destruct (0 <? wv); [by apply Hset|].
    intros E. apply set_label_frame in E as (v & ->). by exists v.
Qed.

(** The statistics step writes no cell. *)
Lemma gather_pixel_frame li x y li' :
  gather_pixel li x y = Some li' →
  data li' = data li ∧ w li' = w li ∧ h li' = h li ∧ aliases li' = aliases li.
Proof.
  unfold gather_pixel.
  destruct (KOKI_LABELLED_IMAGE_LABEL li x y) as [l|]; [|done]. osimpl.
  destruct (l =? 0); [by intros [= <-]|].
  destruct (g_array_index (aliases li) (l - 1)) as [al|]; [|done]. osimpl.
  destruct (g_array_index (clips li) (al - 1)) as [r|]; [|done]. osimpl.
  destruct (g_array_set _ _ _) as [c|]; [|done]. osimpl.
  by intros [= <-].
Qed.

Lemma ring_frame li li' x y v i j :
  data li' = <[label_index li x y := v]> (data li) → w li' = w li →
  0 ≤ x < w li → 0 ≤ y < h li → ring (w li) (h li) i j →
  KOKI_LABELLED_IMAGE_LABEL li' i j = KOKI_LABELLED_IMAGE_LABEL li i j.
Proof.
  intros Hd Hw Hx Hy (Hi & Hj & Hr).
  unfold KOKI_LABELLED_IMAGE_LABEL, label_index. rewrite Hd, Hw.
  fold (label_index li i j). fold (label_index li x y).
  apply lookup_insert_ne. intros E. apply label_index_inj in E; lia.
Qed.

Lemma reach_ring img t x y li :
  0 ≤ width img ≤ 65533 → 0 ≤ height img ≤ 65534 →
  (width img + 2) * (height img + 2) ≤ INT_MAX →
  reach img t x y li →
  w li = width img ∧ h li = height img
  ∧ ∀ i j, ring (width img) (height img) i j →
      KOKI_LABELLED_IMAGE_LABEL li i j = Some 0.
Proof.
  intros Hw Hh Hsz.
  induction 1 as [li Hnew|x y li li' _ (IHw & IHh & IH) Hx Hy Hstep|y li _ IH Hy];
    [| |done].
  - rewrite !u16_small in Hnew by lia.
    destruct (koki_labelled_image_new_spec (width img) (height img))
      as (li' & Hnew' & ? & ? & _ & _ & Hring & _); [lia..|].
    by simplify_eq.
  - apply label_pixel_frame in Hstep as (v & Hd & Hw' & Hh' & _).
    split_and!; [congruence..|]. intros i j Hr.
    rewrite <- (IH i j Hr).
    apply (ring_frame li li' x y v); [done|done|lia|lia|].
    by rewrite IHw, IHh.
Qed.

Lemma label_pass_reach img t li0 li :
  0 ≤ width img → 0 ≤ height img →
  reach img t 0 0 li0 → label_pass img t li0 = Some li →
  reach img t 0 (height img) li.
Proof.
  intros Hw Hh H0 Hrun. unfold label_pass in Hrun.
  apply (for_u16_post (λ y li, reach img t 0 y li) _ 0 (height img) li0 li
           Hh Hrun H0).
  intros y s s' Hy Hr Hrow. apply reach_row; [|done].
  apply (for_u16_post (λ x li, reach img t x y li) _ 0 (width img) s s'
           Hw Hrow Hr).
  intros x s1 s2 Hx Hr1 Hstep. by eapply reach_pixel.
Qed.

Lemma stats_pass_frame img li li' :
  0 ≤ width img → 0 ≤ height img →
  stats_pass img li = Some li' →
  data li' = data li ∧ w li' = w li ∧ h li' = h li ∧ aliases li' = aliases li.
Proof.
  intros Hw Hh. unfold stats_pass.
  destruct (find_max_alias (aliases li)) as [m|]; [|done]. osimpl.
  destruct (init_clips m (clips li)) as [c|]; [|done]. osimpl.
  intros Hrun.
  apply (for_u16_post
    (λ _ s, data s = data li ∧ w s = w li ∧ h s = h li
            ∧ aliases s = aliases li)
    _ 0 (height img) (with_clips li c) li' Hh Hrun); [done|].
  intros y s s' Hy Hs Hrow.
  apply (for_u16_post
    (λ _ s, data s = data li ∧ w s = w li ∧ h s = h li
            ∧ aliases s = aliases li)
    _ 0 (width img) s s' Hw Hrow Hs).
  intros x s1 s2 Hx (? & ? & ? & ?) Hstep.
  apply gather_pixel_frame in Hstep as (? & ? & ? & ?).
  split_and!; congruence.
Qed.

Lemma final_id_ext li li' x y :
  data li' = data li → w li' = w li → aliases li' = aliases li →
  final_id li' x y = final_id li x y.
Proof.
  intros Hd Hw Ha.
  unfold final_id, KOKI_LABELLED_IMAGE_LABEL, label_index.
  by rewrite Hd, Hw, Ha.
Qed.

Lemma count_before_zero g wd x y :
  (∀ i j, 0 ≤ i < wd → 0 ≤ j → (j < y ∨ (j = y ∧ i < x)) → g i j = false) →
  x ≤ wd → 0 ≤ y →
  count_before g wd x y = 0.
Proof.
  intros Hg Hx Hy. unfold count_before, count_row.
  rewrite (sum_range_ext _ (λ _, 0)), sum_range_zero.
  - rewrite (sum_range_ext _ (λ _, 0)), sum_range_zero; [done|].
    intros i Hi. rewrite Hg; [done|lia..].
  - intros j Hj. rewrite (sum_range_ext _ (λ _, 0)), sum_range_zero; [done|].
    intros i Hi. rewrite Hg; [done|lia..].
Qed.

Lemma label_until_total img t x y :
  well_formed img t → 0 ≤ x ≤ width img → 0 ≤ y < height img →
  ∃ li0 li, koki_labelled_image_new (u16 (width img)) (u16 (height img))
            = Some li0
    ∧ label_until img t x y li0 = Some li
    ∧ reach img t x y li.
Proof.
  intros Hwf Hx Hy. pose proof Hwf as (Hw & Hh & Hsz & _).
  destruct (koki_labelled_image_new_spec (width img) (height img))
    as (li0 & Hnew & _); [lia..|].
  rewrite <- (u16_small (width img)), <- (u16_small (height img)) in Hnew
    by lia.
  exists li0. unfold label_until.
  assert (∀ y' li, 0 ≤ y' < height img → reach img t 0 y' li →
    ∀ x', 0 ≤ x' ≤ width img →
    ∃ li', for_u16 0 x' (λ col li, label_pixel img li col y' t) li = Some li'
           ∧ reach img t x' y' li') as Hrow.
  { intros y' li Hy' Hr x' Hx'.
    apply (for_u16_inv (λ x li, reach img t x y' li)); [lia|done|].
    intros i s Hi Hs.
    destruct (label_pixel_inv img t Hwf s i y' (reach_inv img t Hwf _ _ _ Hs))
      as (s' & Hstep & _); [lia..|].
    exists s'. split; [done|]. eapply reach_pixel; [done|lia|lia|done]. }
  destruct (for_u16_inv (λ y li, reach img t 0 y li)
    (λ row li, for_u16 0 (width img)
                 (λ col li, label_pixel img li col row t) li)
    0 y li0) as (li1 & -> & Hr1).
  - lia.
  - by apply reach_new.
  - intros y' s Hy' Hs.
    destruct (Hrow y' s ltac:(lia) Hs (width img) ltac:(lia))
      as (s' & Hs' & Hr').
    exists s'. split; [done|]. apply reach_row; [done|lia].
  - osimpl. destruct (Hrow y li1 Hy Hr1 x Hx) as (li & Hli & Hr).
    by exists li.
Qed.

(** * Properties of the specification *)

(** C6, as the specification states it, fails: the constructor called with
    a zero width, a zero height, or both, returns a labelled image. *)
Lemma new_zero_dimensions_not_rejected :
  koki_labelled_image_new 0 4 ≠ None
  ∧ koki_labelled_image_new 4 0 ≠ None
  ∧ koki_labelled_image_new 0 0 ≠ None.
Proof.
  split_and!.
  - destruct (koki_labelled_image_new_spec 0 4) as (li & -> & _);
      [unfold INT_MAX; lia..|done].
  - destruct (koki_labelled_image_new_spec 4 0) as (li & -> & _);
      [unfold INT_MAX; lia..|done].
  - destruct (koki_labelled_image_new_spec 0 0) as (li & -> & _);
      [unfold INT_MAX; lia..|done].
Qed.

(** C6, amended: construction does not reject a zero width or a zero
    height.  For a width of at most 65533 and a height of at most 65534, one
    of them zero, the constructor returns a labelled image with these
    dimensions, an empty alias table, an empty array of regions, and a grid
    that consists of the zeroed ring alone. *)
Theorem new_zero_dimensions_accepted (wd ht : Z) :
  0 ≤ wd ≤ 65533 → 0 ≤ ht ≤ 65534 → wd = 0 ∨ ht = 0 →
  ∃ li, koki_labelled_image_new wd ht = Some li
    ∧ w li = wd ∧ h li = ht
    ∧ aliases li = g_array_new ∧ clips li = g_array_new
    ∧ ∀ i j, -1 ≤ i ≤ wd → -1 ≤ j ≤ ht →
        KOKI_LABELLED_IMAGE_LABEL li i j = Some 0.
Proof.
  intros Hw Hh Hz.
  destruct (koki_labelled_image_new_spec wd ht)
    as (li & Hnew & ? & ? & ? & ? & Hring & _);
    [done|done|unfold INT_MAX; lia|].
  exists li. split_and!; try done.
  intros i j Hi Hj. apply Hring. unfold ring. lia.
Qed.

Lemma new_zero_dimensions_accepted_witness :
  (0 ≤ 0 ≤ 65533 ∧ 0 ≤ 4 ≤ 65534 ∧ (0 = 0 ∨ 4 = 0))
  ∧ ∃ li, koki_labelled_image_new 0 4 = Some li
      ∧ w li = 0 ∧ h li = 4
      ∧ aliases li = g_array_new ∧ clips li = g_array_new
      ∧ ∀ i j, -1 ≤ i ≤ 0 → -1 ≤ j ≤ 4 →
          KOKI_LABELLED_IMAGE_LABEL li i j = Some 0.
Proof.
  split; [lia|].
  apply (new_zero_dimensions_accepted 0 4); [lia|lia|by left].
Defined.

(** C8: after construction every cell of the outermost ring holds 0; a
    labelling step writes the cell of its own pixel, which is not a cell of
    the ring, and no other; a statistics step writes no cell; so the ring
    holds 0 in every state of the labelling pass and in the result. *)
Theorem border_ring_zero (float_mul : Q → Q → Q) (img : IplImage)
    (threshold : Q) :
  0 ≤ width img ≤ 65533 → 0 ≤ height img ≤ 65534 →
  (width img + 2) * (height img + 2) ≤ INT_MAX →
  let t := threshold_x_3_of float_mul threshold in
  (∃ li0, koki_labelled_image_new (u16 (width img)) (u16 (height img))
          = Some li0
     ∧ ∀ i j, ring (width img) (height img) i j →
         KOKI_LABELLED_IMAGE_LABEL li0 i j = Some 0)
  ∧ (∀ x y li li', reach img t x y li →
       0 ≤ x < width img → 0 ≤ y < height img →
       label_pixel img li x y t = Some li' →
       (∃ v, data li' = <[label_index li x y := v]> (data li))
       ∧ (∀ i j, ring (width img) (height img) i j →
            label_index li i j ≠ label_index li x y))
  ∧ (∀ li x y li', gather_pixel li x y = Some li' → data li' = data li)
  ∧ (∀ x y li, reach img t x y li →
       ∀ i j, ring (width img) (height img) i j →
         KOKI_LABELLED_IMAGE_LABEL li i j = Some 0)
  ∧ (∀ li', koki_label_image float_mul img threshold = Some li' →
       ∀ i j, ring (width img) (height img) i j →
         KOKI_LABELLED_IMAGE_LABEL li' i j = Some 0).
Proof.
  intros Hw Hh Hsz t. split_and!.
  - destruct (koki_labelled_image_new_spec (width img) (height img))
      as (li0 & Hnew & _ & _ & _ & _ & Hring & _); [lia..|].
    exists li0. by rewrite !u16_small by lia.
  - intros x y li li' Hr Hx Hy Hstep.
    destruct (reach_ring img t x y li Hw Hh Hsz Hr) as (Hwl & Hhl & _).
    apply label_pixel_frame in Hstep as (v & Hd & _). split; [by exists v|].
    intros i j (Hi & Hj & Hring) E.
    apply label_index_inj in E; lia.
  - intros li x y li' Hstep. by apply gather_pixel_frame in Hstep as (? & _).
  - intros x y li Hr. by apply (reach_ring img t x y li Hw Hh Hsz Hr).
  - intros li'. unfold koki_label_image. fold t.
    destruct (koki_labelled_image_new _ _) as [li0|] eqn:Hnew; [|done]. osimpl.
    destruct (label_pass img t li0) as [li|] eqn:Hpass; [|done]. osimpl.
    intros Hst i j Hring.
    apply stats_pass_frame in Hst as (Hd & Hwl & _); [|lia..].
    assert (reach img t 0 (height img) li) as Hr.
    { apply (label_pass_reach img t li0); [lia|lia| |done]. by apply reach_new. }
    destruct (reach_ring img t _ _ li Hw Hh Hsz Hr) as (_ & _ & Hz).
    rewrite <- (Hz i j Hring).
    unfold KOKI_LABELLED_IMAGE_LABEL, label_index. by rewrite Hd, Hwl.
Qed.

Lemma border_ring_zero_witness :
  (0 ≤ width image_merge ≤ 65533 ∧ 0 ≤ height image_merge ≤ 65534
   ∧ (width image_merge + 2) * (height image_merge + 2) ≤ INT_MAX)
  ∧ ∀ li', koki_label_image Qmult image_merge (1 # 2) = Some li' →
      ∀ i j, ring (width image_merge) (height image_merge) i j →
        KOKI_LABELLED_IMAGE_LABEL li' i j = Some 0.
Proof.
  assert (0 ≤ width image_merge ≤ 65533) as Hw by (simpl; lia).
  assert (0 ≤ height image_merge ≤ 65534) as Hh by (simpl; lia).
  assert ((width image_merge + 2) * (height image_merge + 2) ≤ INT_MAX)
    as Hsz by (vm_compute; discriminate).
  split; [done|].
  apply (border_ring_zero Qmult image_merge (1 # 2) Hw Hh Hsz).
Defined.


Lemma well_formed_image_merge : well_formed image_merge 382.
Proof.
  unfold well_formed. split_and!; try (simpl; lia); vm_compute; discriminate.
Qed.



Lemma threshold_half : threshold_x_3_of Qmult (1 # 2) = 382.
Proof. reflexivity. Qed.


Lemma well_formed_image_diagonal : well_formed image_diagonal 382.
Proof.
  unfold well_formed. split_and!; try (simpl; lia); vm_compute; discriminate.
Qed.







Lemma Qtrunc_floor (q : Q) :
  (0 <= q)%Q → (q < inject_Z 65536)%Q →
  Qtrunc q = Qfloor q ∧ 0 ≤ Qfloor q ≤ 65535.
Proof.
  intros H0 H1. destruct q as [n d]. unfold Qtrunc, Qfloor. simpl.
  assert (0 ≤ n) as Hn by (unfold Qle in H0; simpl in H0; lia).
  rewrite Z.quot_div_nonneg by lia. split; [done|].
  split; [apply Z.div_pos; lia|].
  assert (n / Z.pos d < 65536); [|lia].
  apply Z.div_lt_upper_bound; [lia|].
  unfold Qlt in H1. simpl in H1. lia.
Qed.

Lemma channel_range img x y rgb : 0 ≤ KOKI_IPLIMAGE_ELEM img x y rgb ≤ 255.
Proof.
  unfold KOKI_IPLIMAGE_ELEM, u8.
  pose proof (Z.mod_pos_bound (imageData img (widthStep img * y + (x * 3 + rgb)))
                256 ltac:(lia)). lia.
Qed.



(** ** Runs that allocate more than 32767 labels *)

Tactic Notation "osimpl" "in" hyp(H) :=
  cbn [mbind option_bind fmap option_fmap option_map mret option_ret negb
       with_data with_aliases with_clips data w h aliases clips] in H.

Lemma iterM_snoc {St : Type} (body : Z → St → option St) (n : nat) (lo : Z)
    (s : St) :
  iterM (S n) lo body s
  = (s' ← iterM n lo body s; body (lo + Z.of_nat n) s').
Proof.
  revert lo s. induction n as [|n IH]; intros lo s.
  - cbn [iterM]. rewrite Nat2Z.inj_0, Z.add_0_r. osimpl.
    by destruct (body lo s).
  - change (iterM (S (S n)) lo body s)
      with (match body lo s with
            | Some s' => iterM (S n) (lo + 1) body s'
            | None => None
            end).
    change (iterM (S n) lo body s)
      with (match body lo s with
            | Some s' => iterM n (lo + 1) body s'
            | None => None
            end).
    destruct (body lo s) as [s1|]; [|done].
    rewrite IH. by replace (lo + 1 + Z.of_nat n) with (lo + Z.of_nat (S n)) by lia.
Qed.

Lemma label_until_succ img t x y li0 :
  0 ≤ x < 65535 →
  label_until img t (x + 1) y li0
  = (li ← label_until img t x y li0; label_pixel img li x y t).
Proof.
  intros Hx. unfold label_until.
  destruct (for_u16 0 y _ li0) as [li1|]; [|done]. osimpl.
  unfold for_u16.
  destruct (65535 <? x + 1) eqn:E1; [apply Z.ltb_lt in E1; lia|].
  destruct (65535 <? x) eqn:E2; [apply Z.ltb_lt in E2; lia|].
  replace (Z.to_nat (x + 1 - 0)) with (S (Z.to_nat (x - 0))) by lia.
  rewrite iterM_snoc. by replace (0 + Z.of_nat (Z.to_nat (x - 0))) with x by lia.
Qed.

Lemma well_formed_image_specks_merge :
  well_formed image_specks_merge 382.
Proof.
  unfold well_formed.
  assert (seeds image_specks_merge 382 = 32768) as ->
    by (vm_cast_no_check (eq_refl 32768)).
  cbn [width height image_specks_merge]. unfold INT_MAX. lia.
Qed.

Lemma well_formed_image_specks_diagonal :
  well_formed image_specks_diagonal 382.
Proof.
  unfold well_formed.
  assert (seeds image_specks_diagonal 382 = 32770) as ->
    by (vm_cast_no_check (eq_refl 32770)).
  cbn [width height image_specks_diagonal]. unfold INT_MAX. lia.
Qed.

(** The run on [image_specks_merge] up to the pixel (1,32767), and the
    labelling of that pixel. *)
Lemma image_specks_merge_run :
  (li0 ← koki_labelled_image_new (u16 (width image_specks_merge))
          (u16 (height image_specks_merge));
   li ← label_until image_specks_merge 382 1 32767 li0;
   li' ← label_pixel image_specks_merge li 1 32767 382;
   Some (get_connected_label li 1 32767 Dir.N,
         get_connected_label li 1 32767 Dir.NE,
         get_connected_label li 1 32767 Dir.NW,
         get_connected_label li 1 32767 Dir.W,
         resolve (aliases li) 32767, resolve (aliases li) 32768,
         KOKI_LABELLED_IMAGE_LABEL li' 1 32767,
         resolve (aliases li') 32767, resolve (aliases li') 32768,
         len (aliases li')))
  = Some (Some 0, Some 32768, Some 32767, Some 32767,
          Some 32767, Some 32768,
          Some 32768, Some 32768, Some 32768, 32768).
Proof.
  vm_cast_no_check
    (eq_refl (Some (Some 0, Some 32768, Some 32767, Some 32767,
                    Some 32767, Some 32768,
                    Some 32768, Some 32768, Some 32768, 32768))).
Qed.

(** The whole run on [image_specks_diagonal]. *)
Lemma image_specks_diagonal_run :
  (li ← koki_label_image Qmult image_specks_diagonal (1 # 2);
   Some (final_id li 0 32768, final_id li 1 32769))
  = Some (Some 32769, Some 32770).
Proof. vm_cast_no_check (eq_refl (Some (Some 32769, Some 32770))). Qed.

(** C7 at a failing input.  On [image_specks_merge], a well-formed image,
    the pixel (1,32767) is foreground, its North neighbour is unlabelled, its
    North-East neighbour holds 32768, its North-West and West neighbours hold
    32767, and both ids are canonical.  The step merges the two classes, but
    it is the higher id, 32768, that survives and that the pixel is given:
    the slot of 32767 is rewritten to 32768. *)
Theorem merge_keeps_higher_id :
  well_formed image_specks_merge 382
  ∧ ∃ li0 li li',
      koki_labelled_image_new (u16 (width image_specks_merge))
        (u16 (height image_specks_merge)) = Some li0
      ∧ label_until image_specks_merge 382 1 32767 li0 = Some li
      ∧ label_pixel image_specks_merge li 1 32767 382 = Some li'
      ∧ foreground image_specks_merge 382 1 32767 = true
      ∧ get_connected_label li 1 32767 Dir.N = Some 0
      ∧ get_connected_label li 1 32767 Dir.NE = Some 32768
      ∧ get_connected_label li 1 32767 Dir.NW = Some 32767
      ∧ get_connected_label li 1 32767 Dir.W = Some 32767
      ∧ resolve (aliases li) 32767 = Some 32767
      ∧ resolve (aliases li) 32768 = Some 32768
      ∧ KOKI_LABELLED_IMAGE_LABEL li' 1 32767 = Some 32768
      ∧ resolve (aliases li') 32767 = Some 32768
      ∧ resolve (aliases li') 32768 = Some 32768.
Proof.
  split; [exact well_formed_image_specks_merge|].
  pose proof image_specks_merge_run as Hrun.
  apply bind_Some in Hrun as (li0 & Hnew & Hrun).
  apply bind_Some in Hrun as (li & Hli & Hrun).
  apply bind_Some in Hrun as (li' & Hli' & Hrun).
  injection Hrun as Hn Hne Hnw Hw H1 H2 H3 H4 H5 _.
  exists li0, li, li'.
  assert (foreground image_specks_merge 382 1 32767 = true) as Hfg
    by (vm_compute; reflexivity).
  exact (conj Hnew (conj Hli (conj Hli' (conj Hfg (conj Hn
           (conj Hne (conj Hnw (conj Hw (conj H1 (conj H2 (conj H3
           (conj H4 H5)))))))))))).
Qed.

(** C10 at a failing input.  On [image_specks_merge], a well-formed image,
    just after the pixel (1,32767) is labelled the alias table has 32768
    slots and its slot 32767 holds 32768, a value above its own index. *)
Theorem alias_slot_exceeds_index :
  well_formed image_specks_merge 382
  ∧ ∃ li0 li,
      koki_labelled_image_new (u16 (width image_specks_merge))
        (u16 (height image_specks_merge)) = Some li0
      ∧ label_until image_specks_merge 382 2 32767 li0 = Some li
      ∧ len (aliases li) = 32768
      ∧ resolve (aliases li) 32767 = Some 32768.
Proof.
  split; [exact well_formed_image_specks_merge|].
  pose proof image_specks_merge_run as Hrun.
  apply bind_Some in Hrun as (li0 & Hnew & Hrun).
  apply bind_Some in Hrun as (li & Hli & Hrun).
  apply bind_Some in Hrun as (li' & Hli' & Hrun).
  injection Hrun as _ _ _ _ _ _ _ H4 _ H6.
  exists li0, li'. refine (conj Hnew (conj _ (conj H6 H4))).
  change 2 with (1 + 1).
  rewrite (label_until_succ image_specks_merge 382 1 32767 li0) by lia.
  rewrite Hli. exact Hli'.
Qed.

(** C1 at a failing input.  On [image_specks_diagonal], a well-formed image,
    the pixels (0,32768) and (1,32769) are foreground and touch by a corner,
    so that they are 8-connected; the run gives them the distinct final ids
    32769 and 32770. *)
Theorem connected_pixels_get_distinct_ids :
  well_formed image_specks_diagonal 382
  ∧ ∃ li, koki_label_image Qmult image_specks_diagonal (1 # 2) = Some li
      ∧ foreground image_specks_diagonal 382 0 32768 = true
      ∧ foreground image_specks_diagonal 382 1 32769 = true
      ∧ connected8 image_specks_diagonal 382 (0, 32768) (1, 32769)
      ∧ final_id li 0 32768 = Some 32769
      ∧ final_id li 1 32769 = Some 32770.
Proof.
  split; [exact well_formed_image_specks_diagonal|].
  pose proof image_specks_diagonal_run as Hrun.
  apply bind_Some in Hrun as (li & Hli & Hrun).
  injection Hrun as H1 H2.
  assert (foreground image_specks_diagonal 382 0 32768 = true) as Hp
    by (vm_compute; reflexivity).
  assert (foreground image_specks_diagonal 382 1 32769 = true) as Hq
    by (vm_compute; reflexivity).
  exists li. refine (conj Hli (conj Hp (conj Hq (conj _ (conj H1 H2))))).
  apply rtc_once. unfold fg_adjacent, adjacent8.
  refine (conj Hp (conj Hq _)). cbn [fst snd]. split; [|lia].
  intros E. injection E as E _. lia.
Qed.

(** ** Runs that allocate at most 32767 labels *)

Lemma fg_adjacent_sym img t p q : fg_adjacent img t p q → fg_adjacent img t q p.
Proof.
  intros (Hp & Hq & Hne & H1 & H2). unfold fg_adjacent, adjacent8.
  split_and!; try done; try lia.
Qed.

Lemma connected8_sym img t p q : connected8 img t p q → connected8 img t q p.
Proof.
  induction 1 as [|p r q Hpr _ IH]; [done|].
  eapply rtc_r; [exact IH|]. by apply fg_adjacent_sym.
Qed.

Lemma nbr_adjacent x y r : nbr x y r → adjacent8 (x, y) r.
Proof.
  intros [->|[->|[->| ->]]]; unfold adjacent8; simpl;
    (split; [intros [=]; lia|lia]).
Qed.

Lemma adjacent_before_nbr img x y q :
  before img x y q → adjacent8 (x, y) q → nbr x y q.
Proof.
  destruct q as [i j]. unfold before, scanned, adjacent8, nbr. simpl.
  intros (Hi & Hj & Hb) (Hne & H1 & H2).
  assert (j = y - 1 ∨ j = y) as [->| ->] by lia.
  - assert (i = x ∨ i = x + 1 ∨ i = x - 1) as [->|[->| ->]] by lia; tauto.
  - assert (i = x - 1) as -> by lia. tauto.
Qed.

Lemma before_succ img x y q :
  0 ≤ x < width img → 0 ≤ y < height img →
  before img (x + 1) y q ↔ q = (x, y) ∨ before img x y q.
Proof.
  destruct q as [i j]. unfold before, scanned. simpl. intros Hx Hy. split.
  - intros (Hi & Hj & Hb).
    destruct (decide (i = x ∧ j = y)) as [[-> ->]|]; [by left|right; lia].
  - intros [[= -> ->]|?]; lia.
Qed.

(** The partition is kept by a step that changes the ids as [step_ids]
    says. *)
Lemma partition_step img t li li' x y g :
  partition_inv img t x y li →
  0 ≤ x < width img → 0 ≤ y < height img →
  (∀ q, before img x y q → fgp img t q = true →
     ∃ c, fid li q = Some c ∧ fid li' q = Some (g c)) →
  (fgp img t (x, y) = false → ∀ d, g d = d) →
  (fgp img t (x, y) = true →
     ∃ c, fid li' (x, y) = Some c ∧ step_ids img t li x y g c) →
  partition_inv img t (x + 1) y li'.
Proof.
  intros [Hadj Hconn] Hx Hy Hold Hbg Hfg.
  assert (∀ r, nbr x y r → fgp img t r = true → before img x y r) as Hnb.
  { intros [i j] Hr Hf. apply fg_true_in_range in Hf. unfold fgp in Hf.
    simpl in Hf. unfold before, scanned. simpl.
    destruct Hr as [[= -> ->]|[[= -> ->]|[[= -> ->]|[= -> ->]]]]; lia. }
  assert (∀ r, nbr x y r → fgp img t r = true →
            fgp img t (x, y) = true → connected8 img t (x, y) r) as Hlink.
  { intros r Hr Hf HP. apply rtc_once. split_and!; try done.
    by apply nbr_adjacent. }
  (* a pixel scanned before, against the new pixel *)
  assert (∀ q, before img x y q → fg_adjacent img t (x, y) q →
            fid li' (x, y) = fid li' q) as Hadj1.
  { intros q Hq (HP & Hfq & Ha).
    pose proof (adjacent_before_nbr img x y q Hq Ha) as Hnq.
    destruct (Hfg HP) as (c & Hc & Hstep).
    destruct (Hold q Hq Hfq) as (cq & Hcq & Hcq'). rewrite Hc, Hcq'.
    destruct Hstep as [r c g _ _ _ Hall Hg|r1 r2 c1 c2 g _ _ _ _ _ _ Hall Hg
                      |c g Hnone _ _].
    - rewrite (Hall q Hnq Hfq) in Hcq. simplify_eq. by rewrite Hg.
    - rewrite Hg. f_equal.
      destruct (Z.eqb_spec cq (Z.max c1 c2)); [done|].
      destruct (Hall q Hnq Hfq) as [E|E]; rewrite E in Hcq;
        injection Hcq as <-; lia.
    - pose proof (Hnone q Hnq) as E. unfold fgp in E. congruence. }
  assert (∀ q, before img x y q → fgp img t (x, y) = true →
            fgp img t q = true → fid li' (x, y) = fid li' q →
            connected8 img t (x, y) q) as Hconn1.
  { intros q Hq HP Hfq Heq.
    destruct (Hfg HP) as (c & Hc & Hstep).
    destruct (Hold q Hq Hfq) as (cq & Hcq & Hcq'). rewrite Hc, Hcq' in Heq.
    injection Heq as Heq.
    destruct Hstep as [r c g Hr Hfr Hcr _ Hg
                      |r1 r2 c1 c2 g Hr1 Hr2 Hf1 Hf2 Hc1 Hc2 _ Hg
                      |c g _ Hfresh Hg].
    - rewrite Hg in Heq. subst cq.
      etrans; [by apply (Hlink r)|].
      apply Hconn; try done; [by apply Hnb|congruence].
    - rewrite Hg in Heq.
      assert (cq = c1 ∨ cq = c2) as [->| ->].
      { destruct (Z.eqb_spec cq (Z.max c1 c2)); lia. }
      + etrans; [by apply (Hlink r1)|].
        apply Hconn; try done; [by apply Hnb|congruence].
      + etrans; [by apply (Hlink r2)|].
        apply Hconn; try done; [by apply Hnb|congruence].
    - rewrite Hg in Heq. subst cq. by destruct (Hfresh q Hq Hfq). }
  split.
  - intros p q Hp Hq Hpq.
    apply (before_succ img x y p Hx Hy) in Hp.
    apply (before_succ img x y q Hx Hy) in Hq.
    destruct Hp as [->|Hp], Hq as [->|Hq].
    + destruct Hpq as (_ & _ & Hne & _). done.
    + by apply Hadj1.
    + symmetry. apply Hadj1; [done|]. by apply fg_adjacent_sym.
    + pose proof Hpq as (Hfp & Hfq & _).
      destruct (Hold p Hp Hfp) as (cp & Hcp & ->).
      destruct (Hold q Hq Hfq) as (cq & Hcq & ->).
      pose proof (Hadj p q Hp Hq Hpq). congruence.
  - intros p q Hp Hq Hfp Hfq Heq.
    apply (before_succ img x y p Hx Hy) in Hp.
    apply (before_succ img x y q Hx Hy) in Hq.
    destruct Hp as [->|Hp], Hq as [->|Hq].
    + done.
    + by apply Hconn1.
    + apply connected8_sym. by apply Hconn1.
    + destruct (Hold p Hp Hfp) as (cp & Hcp & Hcp').
      destruct (Hold q Hq Hfq) as (cq & Hcq & Hcq').
      rewrite Hcp', Hcq' in Heq. injection Heq as Heq.
      destruct (decide (cp = cq)) as [->|Hne];
        [apply Hconn; try done; congruence|].
      destruct (fgp img t (x, y)) eqn:HP;
        [|rewrite !Hbg in Heq by done; done].
      destruct (Hfg eq_refl) as (c & Hc & Hstep).
      destruct Hstep as [r c g _ _ _ _ Hg
                        |r1 r2 c1 c2 g Hr1 Hr2 Hf1 Hf2 Hc1 Hc2 _ Hg
                        |c g _ _ Hg]; [rewrite !Hg in Heq; done| |
                                        rewrite !Hg in Heq; done].
      rewrite !Hg in Heq.
      assert (connected8 img t r1 r2) as H12.
      { etrans; [apply connected8_sym; by apply (Hlink r1)|].
        by apply (Hlink r2). }
      assert ((cp = c1 ∧ cq = c2) ∨ (cp = c2 ∧ cq = c1)) as [[-> ->]|[-> ->]].
      { destruct (Z.eqb_spec cp (Z.max c1 c2)), (Z.eqb_spec cq (Z.max c1 c2));
          lia. }
      * etrans; [apply (Hconn p r1); try done; [by apply Hnb|congruence]|].
        etrans; [exact H12|].
        apply (Hconn r2 q); try done; [by apply Hnb|congruence].
      * etrans; [apply (Hconn p r2); try done; [by apply Hnb|congruence]|].
        etrans; [apply connected8_sym; exact H12|].
        apply (Hconn r1 q); try done; [by apply Hnb|congruence].
Qed.

Lemma resolve_ren a lmin lmax l :
  resolve (mkGArray (ren lmin lmax <$> elts a) (len a)) l
  = ren lmin lmax <$> resolve a l.
Proof.
  unfold resolve, g_array_index. simpl.
  destruct ((0 <=? l - 1) && (l - 1 <? len a)); [|done].
  by rewrite lookup_fmap.
Qed.

Lemma resolve_append a x l c :
  resolve a l = Some c → resolve (g_array_append_val a x) l = Some c.
Proof.
  unfold resolve. intros Hr. apply g_array_index_Some in Hr as [Hl Hc].
  rewrite g_array_index_in by (simpl; lia). simpl.
  by rewrite lookup_insert_ne by lia.
Qed.

Lemma ren_small c1 c2 d :
  0 ≤ c1 ≤ 32767 → 0 ≤ c2 ≤ 32767 →
  ren (Z.min (i16 c1) (i16 c2)) (Z.max (i16 c1) (i16 c2)) d
  = if d =? Z.max c1 c2 then Z.min c1 c2 else d.
Proof.
  intros H1 H2. unfold ren. rewrite !i16_small by lia.
  rewrite u16_small by lia. done.
Qed.

Section SmallRuns.

Variable img : IplImage.
Variable t : Z.
Hypothesis Hwf : well_formed img t.
Hypothesis Hsmall : seeds img t ≤ 32767.

Local Abbreviation wd := (width img).
Local Abbreviation ht := (height img).

Lemma small_len li x y :
  label_inv img t x y li → 0 ≤ x ≤ wd → 0 ≤ y < ht →
  len (aliases li) ≤ 32767.
Proof.
  intros HJ Hx Hy. rewrite (inv_len _ _ _ _ _ HJ). unfold seeds in Hsmall.
  pose proof (count_before_le_all (is_seed img t) wd ht x y Hx Hy). lia.
Qed.

(** A foreground pixel scanned before [(x, y)]: its label and its id. *)
Lemma fid_before li x y q :
  label_inv img t x y li → before img x y q → fgp img t q = true →
  ∃ l c, KOKI_LABELLED_IMAGE_LABEL li q.1 q.2 = Some l
    ∧ 1 ≤ l ≤ len (aliases li)
    ∧ resolve (aliases li) l = Some c
    ∧ fid li q = Some c
    ∧ 1 ≤ c ≤ len (aliases li).
Proof.
  intros HJ Hq Hfq. destruct q as [i j]. unfold before, fgp in *. simpl in *.
  destruct (inv_cells _ _ _ _ _ HJ i j) as (l & Hl & Hlr).
  { right. unfold scanned in Hq. lia. }
  rewrite Hfq in Hlr.
  destruct (alias_ok_resolve _ l (inv_aliases _ _ _ _ _ HJ) Hlr)
    as (c & Hc & Hcr & _).
  exists l, c. split_and!; try done; try lia.
  unfold fid, final_id. cbn [fst snd]. rewrite Hl. osimpl.
  destruct (Z.eqb_spec l 0); [lia|done].
Qed.

(** A neighbour of [(x, y)] scanned before it: it is foreground exactly
    when its cell holds a label. *)
Lemma nbr_cell li x y i j l :
  label_inv img t x y li → 0 ≤ x < wd → 0 ≤ y < ht →
  nbr x y (i, j) →
  KOKI_LABELLED_IMAGE_LABEL li i j = Some l →
  0 ≤ l ≤ len (aliases li)
  ∧ (l = 0 → fgp img t (i, j) = false)
  ∧ (0 < l → fgp img t (i, j) = true ∧ before img x y (i, j)
             ∧ fid li (i, j) = resolve (aliases li) l).
Proof.
  intros HJ Hx Hy Hn Hl.
  destruct (inv_neighbour img t li x y i j HJ Hy)
    as (l' & Hl' & Hr & H1 & H0).
  { destruct Hn as [[= -> ->]|[[= -> ->]|[[= -> ->]|[= -> ->]]]]; lia. }
  { destruct Hn as [[= -> ->]|[[= -> ->]|[[= -> ->]|[= -> ->]]]]; lia. }
  { destruct Hn as [[= -> ->]|[[= -> ->]|[[= -> ->]|[= -> ->]]]]; lia. }
  assert (l' = l) as -> by congruence.
  split; [done|]. unfold fgp. simpl. split.
  - intros ->. destruct (foreground img t i j); [|done].
    specialize (H1 eq_refl). lia.
  - intros Hpos.
    assert (foreground img t i j = true) as Hf.
    { destruct (foreground img t i j); [done|]. specialize (H0 eq_refl). lia. }
    split; [done|]. split.
    + pose proof (fg_true_in_range img t i j Hf).
      unfold before, scanned. simpl.
      destruct Hn as [[= -> ->]|[[= -> ->]|[[= -> ->]|[= -> ->]]]]; lia.
    + unfold fid, final_id. cbn [fst snd]. rewrite Hl. osimpl.
      destruct (Z.eqb_spec l 0); [lia|done].
Qed.

Lemma step_cell_other li x y v a' i j :
  -1 ≤ i ≤ w li → (i, j) ≠ (x, y) → -1 ≤ x ≤ w li →
  KOKI_LABELLED_IMAGE_LABEL
    (mkLabelled (<[label_index li x y := v]> (data li)) (w li) (h li) a'
       (clips li)) i j
  = KOKI_LABELLED_IMAGE_LABEL li i j.
Proof.
  intros Hi Hne Hx. unfold KOKI_LABELLED_IMAGE_LABEL, label_index. simpl.
  fold (label_index li i j). fold (label_index li x y).
  apply lookup_insert_ne. intros E. apply label_index_inj in E; [|lia..].
  destruct E. congruence.
Qed.

Lemma step_cell_self li x y v a' :
  KOKI_LABELLED_IMAGE_LABEL
    (mkLabelled (<[label_index li x y := v]> (data li)) (w li) (h li) a'
       (clips li)) x y
  = Some v.
Proof.
  unfold KOKI_LABELLED_IMAGE_LABEL, label_index. simpl.
  apply lookup_insert_eq.
Qed.

Lemma nbr_before x y r :
  nbr x y r → fgp img t r = true → before img x y r.
Proof.
  destruct r as [i j]. intros Hr Hf. apply fg_true_in_range in Hf.
  simpl in Hf. unfold before, scanned. simpl.
  destruct Hr as [[= -> ->]|[[= -> ->]|[[= -> ->]|[= -> ->]]]]; lia.
Qed.

(** The ids after a labelling step, from the case of the step. *)
Lemma outcome_step_ids li x y n ne nw wv v a' :
  label_inv img t x y li → partition_inv img t x y li →
  0 ≤ x < wd → 0 ≤ y < ht →
  KOKI_LABELLED_IMAGE_LABEL li x (y - 1) = Some n →
  KOKI_LABELLED_IMAGE_LABEL li (x + 1) (y - 1) = Some ne →
  KOKI_LABELLED_IMAGE_LABEL li (x - 1) (y - 1) = Some nw →
  KOKI_LABELLED_IMAGE_LABEL li (x - 1) y = Some wv →
  outcome (aliases li) n ne nw wv (foreground img t x y) v a' →
  let li' := mkLabelled (<[label_index li x y := v]> (data li)) (w li) (h li)
               a' (clips li) in
  ∃ g,
    (∀ q, before img x y q → fgp img t q = true →
       ∃ c, fid li q = Some c ∧ fid li' q = Some (g c))
    ∧ (fgp img t (x, y) = false → ∀ d, g d = d)
    ∧ (fgp img t (x, y) = true →
         ∃ c, fid li' (x, y) = Some c ∧ step_ids img t li x y g c)
    ∧ (slots_bounded (aliases li) → slots_bounded a').
Proof.
  intros HJ [Hadj _] Hx Hy Hn Hne Hnw Hwv Hout li'.
  pose proof (small_len li x y HJ ltac:(lia) Hy) as Hlen.
  pose proof (inv_aliases _ _ _ _ _ HJ) as Hal.
  pose proof (inv_w _ _ _ _ _ HJ) as Hwl.
  destruct (nbr_cell li x y x (y - 1) n HJ Hx Hy) as (RN & ZN & PN);
    [unfold nbr; tauto|done|].
  destruct (nbr_cell li x y (x + 1) (y - 1) ne HJ Hx Hy) as (RNE & ZNE & PNE);
    [unfold nbr; tauto|done|].
  destruct (nbr_cell li x y (x - 1) (y - 1) nw HJ Hx Hy) as (RNW & ZNW & PNW);
    [unfold nbr; tauto|done|].
  destruct (nbr_cell li x y (x - 1) y wv HJ Hx Hy) as (RW & ZW & PW);
    [unfold nbr; tauto|done|].
  (* pixels scanned before: their id is their label resolved in [a'] *)
  assert (∀ q, before img x y q → fgp img t q = true →
            ∃ l c, resolve (aliases li) l = Some c ∧ fid li q = Some c
                   ∧ 1 ≤ c ≤ len (aliases li)
                   ∧ fid li' q = resolve a' l) as Hold.
  { intros q Hq Hfq.
    destruct (fid_before li x y q HJ Hq Hfq) as (l & c & Hl & Hlr & Hc & Hf & Hcr).
    exists l, c. split_and!; try done; try lia.
    unfold fid, final_id, li'. destruct q as [i j]. cbn [fst snd] in *.
    rewrite step_cell_other, Hl.
    - osimpl. destruct (Z.eqb_spec l 0); [lia|done].
    - unfold before, scanned in Hq. simpl in Hq. lia.
    - unfold before, scanned in Hq. simpl in Hq. intros [= -> ->]. lia.
    - lia. }
  (* the pixel itself *)
  assert (∀ c, v = c → 1 ≤ c → resolve a' c = Some c →
            fid li' (x, y) = Some c) as Hself.
  { intros c -> Hc Hr. unfold fid, final_id, li'. cbn [fst snd].
    rewrite step_cell_self. osimpl. destruct (Z.eqb_spec c 0); [lia|done]. }
  (* neighbours adjacent to one another carry the same id *)
  assert (∀ r r', nbr x y r → nbr x y r' → fgp img t r = true →
            fgp img t r' = true → adjacent8 r r' → fid li r = fid li r')
    as Hagree.
  { intros r r' Hr Hr' Hf Hf' Ha.
    apply Hadj; [by apply nbr_before..|]. by split_and!. }
  remember (foreground img t x y) as b eqn:Eb. symmetry in Eb.
  destruct Hout as [|c Hpos Hc|c Hn0 Hpos Hw0 Hnw0 Hc
                   |l c1 c2 Hn0 Hpos Hl Hc1 Hc2
                   |c Hn0 Hne0 Hpos Hc|c Hn0 Hne0 Hnw0 Hpos Hc
                   |Hn0 Hne0 Hnw0 Hw0 Hnew].
  - (* background *)
    exists (λ d, d). split_and!; try done; [|unfold fgp; simpl; congruence].
    intros q Hq Hfq. destruct (Hold q Hq Hfq) as (l & c & Hr & Hf & _ & ->).
    by exists c.
  - (* North *)
    destruct (resolve_canonical _ _ _ Hal Hc) as (_ & Hcr & Hcc & _).
    destruct (PN Hpos) as (FN & BN & IN).
    exists (λ d, d). split_and!; try done.
    + intros q Hq Hfq. destruct (Hold q Hq Hfq) as (l & c' & Hr & Hf & _ & ->).
      by exists c'.
    + intros _. exists c. split; [apply Hself; (done || lia)|].
      apply (ids_inherit img t li x y (x, y - 1) c); try done;
        [unfold nbr; tauto|congruence|].
      intros r' Hr' Hf'. rewrite <- Hc, <- IN.
      destruct Hr' as [->|[->|[->| ->]]]; [done|..];
        (apply Hagree; try done; [unfold nbr; tauto|unfold nbr; tauto|];
         unfold adjacent8; simpl; split; [intros [=]; lia|lia]).
  - (* North-East alone *)
    destruct (resolve_canonical _ _ _ Hal Hc) as (_ & Hcr & Hcc & _).
    destruct (PNE Hpos) as (FNE & BNE & INE).
    rewrite i16_small in Hw0, Hnw0 by lia.
    exists (λ d, d). split_and!; try done.
    + intros q Hq Hfq. destruct (Hold q Hq Hfq) as (l & c' & Hr & Hf & _ & ->).
      by exists c'.
    + intros _. exists c. split; [apply Hself; (done || lia)|].
      apply (ids_inherit img t li x y (x + 1, y - 1) c); try done;
        [unfold nbr; tauto|congruence|].
      intros r' Hr' Hf'.
      destruct Hr' as [->|[->|[->| ->]]].
      * rewrite ZN in Hf' by lia. done.
      * congruence.
      * rewrite ZNW in Hf' by lia. done.
      * rewrite ZW in Hf' by lia. done.
  - (* merge *)
    destruct (resolve_canonical _ _ _ Hal Hc1) as (_ & Hc1r & Hc1c & _).
    destruct (resolve_canonical _ _ _ Hal Hc2) as (Hlr & Hc2r & Hc2c & _).
    destruct (PNE Hpos) as (FNE & BNE & INE).
    assert (u16 (Z.min (i16 c1) (i16 c2)) = Z.min c1 c2) as Emin.
    { rewrite !i16_small by lia. apply u16_small. lia. }
    assert (resolve (aliases li) (Z.min c1 c2) = Some (Z.min c1 c2)) as Hmin.
    { destruct (Z.min_spec c1 c2) as [[_ ->]|[_ ->]]; done. }
    exists (λ d, if d =? Z.max c1 c2 then Z.min c1 c2 else d).
    split_and!.
    + intros q Hq Hfq. destruct (Hold q Hq Hfq) as (l' & c' & Hr & Hf & Hcr' & ->).
      exists c'. split; [done|].
      rewrite resolve_ren, Hr. simpl. by rewrite ren_small by lia.
    + unfold fgp. simpl. congruence.
    + intros _. exists (Z.min c1 c2). split.
      * apply Hself; [done|lia|].
        rewrite resolve_ren, Hmin. simpl. rewrite ren_small by lia.
        by destruct (_ =? _).
      * assert (∃ r2, nbr x y r2 ∧ fgp img t r2 = true
                      ∧ fid li r2 = Some c2
                      ∧ (∀ r', (r' = (x - 1, y - 1) ∨ r' = (x - 1, y)) →
                           fgp img t r' = true → fid li r' = Some c2))
          as (r2 & Hr2 & Hf2 & Hi2 & Hboth).
        { destruct Hl as [[Hp ->]|(Hz & Hp & ->)].
          - rewrite i16_small in Hp by lia.
            destruct (PNW Hp) as (FNW & BNW & INW).
            exists (x - 1, y - 1). split_and!; [unfold nbr; tauto|done|congruence|].
            intros r' [->| ->] Hf'; [congruence|].
            rewrite <- Hc2, <- INW. apply Hagree; try done;
              [unfold nbr; tauto|unfold nbr; tauto|].
            unfold adjacent8; simpl; split; [intros [=]; lia|lia].
          - rewrite i16_small in Hp, Hz by lia.
            destruct (PW Hp) as (FW & BW & IW).
            exists (x - 1, y). split_and!; [unfold nbr; tauto|done|congruence|].
            intros r' [->| ->] Hf'; [|congruence].
            rewrite ZNW in Hf' by lia. done. }
        apply (ids_merge img t li x y (x + 1, y - 1) r2 c1 c2); try done;
          [unfold nbr; tauto|congruence|].
        intros r' Hr' Hf'.
        destruct Hr' as [->|[->|[->| ->]]].
        -- rewrite ZN in Hf' by lia. done.
        -- left. congruence.
        -- right. apply Hboth; [by left|done].
        -- right. apply Hboth; [by right|done].
    + intros Hsb i v0. simpl. rewrite lookup_fmap.
      destruct (elts (aliases li) !! i) as [v1|] eqn:Ei; [|done].
      simpl. intros [= <-]. pose proof (Hsb i v1 Ei) as Hv1.
      rewrite ren_small by lia.
      destruct (Z.eqb_spec v1 (Z.max c1 c2)); lia.
  - (* North-West *)
    destruct (resolve_canonical _ _ _ Hal Hc) as (_ & Hcr & Hcc & _).
    destruct (PNW Hpos) as (FNW & BNW & INW).
    exists (λ d, d). split_and!; try done.
    + intros q Hq Hfq. destruct (Hold q Hq Hfq) as (l & c' & Hr & Hf & _ & ->).
      by exists c'.
    + intros _. exists c. split; [apply Hself; (done || lia)|].
      apply (ids_inherit img t li x y (x - 1, y - 1) c); try done;
        [unfold nbr; tauto|congruence|].
      intros r' Hr' Hf'.
      destruct Hr' as [->|[->|[->| ->]]].
      * rewrite ZN in Hf' by lia. done.
      * rewrite ZNE in Hf' by lia. done.
      * congruence.
      * rewrite <- Hc, <- INW. symmetry. apply Hagree; try done;
          [unfold nbr; tauto|unfold nbr; tauto|].
        unfold adjacent8; simpl; split; [intros [=]; lia|lia].
  - (* West *)
    destruct (resolve_canonical _ _ _ Hal Hc) as (_ & Hcr & Hcc & _).
    destruct (PW Hpos) as (FW & BW & IW).
    exists (λ d, d). split_and!; try done.
    + intros q Hq Hfq. destruct (Hold q Hq Hfq) as (l & c' & Hr & Hf & _ & ->).
      by exists c'.
    + intros _. exists c. split; [apply Hself; (done || lia)|].
      apply (ids_inherit img t li x y (x - 1, y) c); try done;
        [unfold nbr; tauto|congruence|].
      intros r' Hr' Hf'.
      destruct Hr' as [->|[->|[->| ->]]].
      * rewrite ZN in Hf' by lia. done.
      * rewrite ZNE in Hf' by lia. done.
      * rewrite ZNW in Hf' by lia. done.
      * congruence.
  - (* a new region *)
    destruct Hal as (Hl0 & Hdom & Hok).
    exists (λ d, d). split_and!; try done.
    + intros q Hq Hfq. destruct (Hold q Hq Hfq) as (l & c' & Hr & Hf & _ & ->).
      exists c'. split; [done|]. by apply resolve_append.
    + intros _. exists (len (aliases li) + 1). split.
      * apply Hself; [done|lia|]. unfold resolve.
        rewrite g_array_index_in by (simpl; lia). simpl.
        replace (len (aliases li) + 1 - 1) with (len (aliases li)) by lia.
        by rewrite lookup_insert_eq.
      * apply ids_new; [|  |done].
        -- intros r' Hr'. destruct Hr' as [->|[->|[->| ->]]]; auto.
        -- intros q Hq Hfq E.
           destruct (Hold q Hq Hfq) as (l & c' & Hr & Hf & Hcr & _).
           rewrite Hf in E. injection E as ->. lia.
    + intros Hsb i v0. simpl.
      destruct (decide (i = len (aliases li))) as [->|].
      * rewrite lookup_insert_eq. intros [= <-]. lia.
      * rewrite lookup_insert_ne by done. apply Hsb.
Qed.

Lemma partition_inv_new li : partition_inv img t 0 0 li.
Proof.
  split.
  - intros p q Hp. unfold before, scanned in Hp. lia.
  - intros p q Hp. unfold before, scanned in Hp. lia.
Qed.

Lemma partition_inv_row li y :
  0 ≤ y → partition_inv img t wd y li → partition_inv img t 0 (y + 1) li.
Proof.
  intros Hy [Hadj Hconn].
  assert (∀ p, before img 0 (y + 1) p → before img wd y p) as Hb.
  { intros p. unfold before, scanned. lia. }
  split.
  - intros p q Hp Hq. apply Hadj; by apply Hb.
  - intros p q Hp Hq. apply Hconn; by apply Hb.
Qed.

(** In a run that allocates at most 32767 labels, [reach]ed states keep the
    partition and the bound of the slots. *)
Lemma reach_small x y li :
  reach img t x y li →
  partition_inv img t x y li ∧ slots_bounded (aliases li).
Proof.
  induction 1 as [li Hnew|x y li li' Hr [IHp IHs] Hx Hy Hstep|y li Hr [IHp IHs] Hy].
  - split; [apply partition_inv_new|].
    pose proof (label_inv_new img t Hwf li Hnew) as HJ.
    pose proof Hwf as (Hw & Hh & Hsz & _).
    rewrite !u16_small in Hnew by lia.
    destruct (koki_labelled_image_new_spec wd ht)
      as (li' & Hnew' & _ & _ & Hal & _); [lia..|].
    assert (li' = li) as -> by congruence.
    rewrite Hal. intros i v E. simpl in E. by rewrite lookup_empty in E.
  - pose proof (reach_inv img t Hwf x y li Hr) as HJ.
    destruct (label_pixel_outcome img t Hwf li x y HJ Hx Hy)
      as (n & ne & nw & wv & v & a' & Hn & Hne & Hnw & Hwv & Hout & Hstep').
    rewrite Hstep' in Hstep. injection Hstep as <-.
    destruct (outcome_step_ids li x y n ne nw wv v a' HJ IHp Hx Hy
                Hn Hne Hnw Hwv Hout) as (g & Hold & Hbg & Hfg & Hsl).
    split; [|by apply Hsl].
    by apply (partition_step img t li _ x y g).
  - split; [|done]. apply partition_inv_row; [lia|done].
Qed.

End SmallRuns.






Lemma well_formed_image_hourglass : well_formed image_hourglass 382.
Proof.
  unfold well_formed. split_and!; try (simpl; lia); vm_compute; discriminate.
Qed.


(** * Further properties of the code *)

(** ** Construction *)

Lemma koki_labelled_image_new_Some wd ht li :
  koki_labelled_image_new wd ht = Some li →
  wd ≤ 65533 ∧ ht ≤ 65534 ∧ (wd + 2) * (ht + 2) ≤ INT_MAX.
Proof.
  unfold koki_labelled_image_new, for_u16.
  destruct (Z.ltb_spec INT_MAX ((wd + 2) * (ht + 2))); [done|].
  destruct (Z.ltb_spec 65535 (wd + 2)); [done|].
  destruct (iterM _ _ _ _) as [li1|]; [|done]. osimpl.
  destruct (Z.ltb_spec 65535 (ht + 1)); [done|]. intros _. lia.
Qed.

(** X1: The constructor returns exactly for the widths up to 65533 and the
    heights up to 65534 whose grid has at most [INT_MAX] cells: beyond, a
    16-bit loop counter cannot reach its bound, or the size of the grid
    overflows. *)
Theorem koki_labelled_image_new_returns_iff (wd ht : Z) :
  0 ≤ wd → 0 ≤ ht →
  is_Some (koki_labelled_image_new wd ht)
  ↔ wd ≤ 65533 ∧ ht ≤ 65534 ∧ (wd + 2) * (ht + 2) ≤ INT_MAX.
Proof.
  intros Hw Hh. split.
  - intros [li Hli]. by apply koki_labelled_image_new_Some in Hli.
  - intros (Hw' & Hh' & Hsz).
    destruct (koki_labelled_image_new_spec wd ht) as (li & -> & _);
      [lia..|done].
Qed.

Lemma koki_labelled_image_new_returns_iff_witness :
  (0 ≤ 65534 ∧ 0 ≤ 2)
  ∧ (is_Some (koki_labelled_image_new 65534 2)
     ↔ 65534 ≤ 65533 ∧ 2 ≤ 65534 ∧ (65534 + 2) * (2 + 2) ≤ INT_MAX).
Proof.
  split; [lia|].
  apply (koki_labelled_image_new_returns_iff 65534 2); lia.
Defined.

(** X2: The constructor zeroes the perimeter and nothing else: the cells of the
    pixels themselves are left as [malloc] returned them, unwritten, and
    the two arrays are empty. *)
Theorem koki_labelled_image_new_interior_unwritten (wd ht : Z) :
  0 ≤ wd ≤ 65533 → 0 ≤ ht ≤ 65534 → (wd + 2) * (ht + 2) ≤ INT_MAX →
  ∃ li, koki_labelled_image_new wd ht = Some li
    ∧ w li = wd ∧ h li = ht
    ∧ len (aliases li) = 0 ∧ len (clips li) = 0
    ∧ ∀ i j, -1 ≤ i ≤ wd → -1 ≤ j ≤ ht →
        KOKI_LABELLED_IMAGE_LABEL li i j
        = if bool_decide (0 ≤ i < wd ∧ 0 ≤ j < ht) then None else Some 0.
Proof.
  intros Hw Hh Hsz.
  destruct (koki_labelled_image_new_spec wd ht Hw Hh Hsz)
    as (li & Hnew & Hwl & Hhl & Ha & Hc & Hring & Hin).
  exists li. rewrite Ha, Hc. split_and!; try done.
  intros i j Hi Hj. case_bool_decide as Hd.
  - apply Hin; lia.
  - apply Hring. unfold ring. lia.
Qed.

Lemma koki_labelled_image_new_interior_unwritten_witness :
  (0 ≤ 3 ≤ 65533 ∧ 0 ≤ 2 ≤ 65534 ∧ (3 + 2) * (2 + 2) ≤ INT_MAX)
  ∧ ∃ li, koki_labelled_image_new 3 2 = Some li
      ∧ w li = 3 ∧ h li = 2
      ∧ len (aliases li) = 0 ∧ len (clips li) = 0
      ∧ ∀ i j, -1 ≤ i ≤ 3 → -1 ≤ j ≤ 2 →
          KOKI_LABELLED_IMAGE_LABEL li i j
          = if bool_decide (0 ≤ i < 3 ∧ 0 ≤ j < 2) then None else Some 0.
Proof.
  assert ((3 + 2) * (2 + 2) ≤ INT_MAX) as Hsz by (unfold INT_MAX; lia).
  split; [split_and!; (lia || done)|].
  apply (koki_labelled_image_new_interior_unwritten 3 2); (lia || done).
Defined.

(** ** Neighbours *)

(** X5: The label that [get_connected_label] returns for a direction is the
    label of the pixel one step away in that direction; read from there in
    the opposite direction, it is the label of the pixel itself. *)
Theorem get_connected_label_towards (li : koki_labelled_image_t) (x y : Z)
    (d : Dir.DIRECTION) :
  0 ≤ w li ≤ 65535 →
  get_connected_label li x y d
  = KOKI_LABELLED_IMAGE_LABEL li (x + (towards d).1) (y + (towards d).2)
  ∧ get_connected_label li (x + (towards d).1) (y + (towards d).2)
      (opposite d)
    = KOKI_LABELLED_IMAGE_LABEL li x y.
Proof.
  intros Hw.
  unfold get_connected_label, KOKI_LABELLED_IMAGE_LABEL, label_index.
  rewrite u16_small by done.
  destruct d; cbn [towards opposite fst snd]; split; f_equal; lia.
Qed.

Lemma get_connected_label_towards_witness :
  0 ≤ w (mkLabelled {[ 7 := 5 ]} 3 2 g_array_new g_array_new) ≤ 65535
  ∧ get_connected_label (mkLabelled {[ 7 := 5 ]} 3 2 g_array_new g_array_new)
      0 1 Dir.NE
    = KOKI_LABELLED_IMAGE_LABEL
        (mkLabelled {[ 7 := 5 ]} 3 2 g_array_new g_array_new)
        (0 + (towards Dir.NE).1) (1 + (towards Dir.NE).2)
  ∧ get_connected_label (mkLabelled {[ 7 := 5 ]} 3 2 g_array_new g_array_new)
      (0 + (towards Dir.NE).1) (1 + (towards Dir.NE).2) (opposite Dir.NE)
    = KOKI_LABELLED_IMAGE_LABEL
        (mkLabelled {[ 7 := 5 ]} 3 2 g_array_new g_array_new) 0 1.
Proof.
  assert (0 ≤ w (mkLabelled {[ 7 := 5 ]} 3 2 g_array_new g_array_new) ≤ 65535)
    as Hw by (simpl; lia).
  split; [done|].
  apply (get_connected_label_towards _ 0 1 Dir.NE Hw).
Defined.

(** ** Limits of the dimensions *)

(** X10: An image taller than 65534 rows, or wider than 65533 columns with at
    least one row, has no result: the constructor or a labelling loop runs a
    16-bit counter against a bound that it cannot reach. *)
Theorem koki_label_image_dimension_limit (float_mul : Q → Q → Q)
    (img : IplImage) (threshold : Q) :
  65534 < height img ∨ (65533 < width img ∧ 0 < height img) →
  koki_label_image float_mul img threshold = None.
Proof.
  intros Hdim. unfold koki_label_image.
  destruct (koki_labelled_image_new _ _) as [li0|] eqn:Hnew; [|done]. osimpl.
  apply koki_labelled_image_new_Some in Hnew as (Hw & Hh & _).
  assert (label_pass img (threshold_x_3_of float_mul threshold) li0 = None)
    as ->; [|done].
  unfold label_pass, for_u16.
  destruct (Z.ltb_spec 65535 (height img)) as [|Hh']; [done|].
  assert (0 < height img ≤ 65534) as Hh''.
  { destruct (decide (0 ≤ height img)); [|lia].
    rewrite u16_small in Hh by lia. lia. }
  assert (65535 < width img) as Hw'.
  { destruct (decide (width img ≤ 65535)); [|lia].
    rewrite u16_small in Hw by lia. lia. }
  destruct (Z.to_nat (height img - 0)) as [|n] eqn:E; [lia|].
  cbn [iterM]. by destruct (Z.ltb_spec 65535 (width img)); [|lia].
Qed.

Lemma koki_label_image_dimension_limit_witness :
  (65534 < height (mkIplImage 65534 1 196602 (λ _, 0))
   ∨ (65533 < width (mkIplImage 65534 1 196602 (λ _, 0))
      ∧ 0 < height (mkIplImage 65534 1 196602 (λ _, 0))))
  ∧ koki_label_image Qmult (mkIplImage 65534 1 196602 (λ _, 0)) (1 # 2)
    = None.
Proof.
  assert (65534 < height (mkIplImage 65534 1 196602 (λ _, 0))
          ∨ (65533 < width (mkIplImage 65534 1 196602 (λ _, 0))
             ∧ 0 < height (mkIplImage 65534 1 196602 (λ _, 0)))) as Hdim
    by (right; simpl; lia).
  split; [done|].
  apply (koki_label_image_dimension_limit Qmult _ (1 # 2) Hdim).
Defined.

(** ** Counting: further facts *)

Lemma sum_range_const c lo n : sum_range (λ _, c) lo n = c * Z.of_nat n.
Proof.
  revert lo. induction n as [|n IH]; intros lo; [simpl; lia|].
  cbn [sum_range]. rewrite IH. lia.
Qed.

Lemma sum_range_term f lo n k :
  (∀ i, 0 ≤ f i) → lo ≤ k < lo + Z.of_nat n → f k ≤ sum_range f lo n.
Proof.
  intros Hf Hk.
  rewrite (sum_range_update (λ i, if decide (i = k) then 0 else f i) f lo n k
             Hk).
  - pose proof (sum_range_nonneg (λ i, if decide (i = k) then 0 else f i) lo n)
      as Hn.
    rewrite decide_True by done.
    assert (0 ≤ sum_range (λ i, if decide (i = k) then 0 else f i) lo n);
      [|lia].
    apply Hn. intros i. case_decide; [lia|apply Hf].
  - intros i Hi. by rewrite decide_False.
Qed.

Lemma count_all_ext g g' wd ht :
  (∀ i j, 0 ≤ i < wd → 0 ≤ j < ht → g i j = g' i j) →
  count_all g wd ht = count_all g' wd ht.
Proof.
  intros Hg. unfold count_all, count_before. f_equal.
  apply sum_range_ext. intros j Hj. unfold count_row.
  apply sum_range_ext. intros i Hi. rewrite Hg; [done|lia..].
Qed.

Lemma count_all_full g wd ht :
  0 ≤ wd → 0 ≤ ht →
  (∀ i j, 0 ≤ i < wd → 0 ≤ j < ht → g i j = true) →
  count_all g wd ht = wd * ht.
Proof.
  intros Hw Hh Hg. rewrite (count_all_ext g (λ _ _, true) wd ht Hg).
  unfold count_all, count_before, count_row. cbn [b2z].
  rewrite (sum_range_ext _ (λ _, wd)).
  - rewrite sum_range_const. simpl. lia.
  - intros j _. rewrite sum_range_const. lia.
Qed.

Lemma count_all_pos g wd ht i j :
  0 ≤ i < wd → 0 ≤ j < ht → g i j = true → 0 < count_all g wd ht.
Proof.
  intros Hi Hj Hg. unfold count_all, count_before.
  pose proof (sum_range_term (λ j, count_row g j wd) 0 (Z.to_nat ht) j
                (λ j, count_row_nonneg g j wd) ltac:(lia)) as Hrow.
  pose proof (sum_range_term (λ i, b2z (g i j)) 0 (Z.to_nat wd) i
                (λ i, b2z_nonneg _) ltac:(lia)) as Hcell.
  cbn beta in Hrow, Hcell. rewrite Hg in Hcell. cbn [b2z] in Hcell.
  fold (count_row g j wd) in Hcell.
  pose proof (count_row_nonneg g ht 0). lia.
Qed.

Lemma count_all_single g wd ht :
  0 < wd → 0 < ht → g 0 0 = true →
  (∀ i j, 0 ≤ i < wd → 0 ≤ j < ht → (i, j) ≠ (0, 0) → g i j = false) →
  count_all g wd ht = 1.
Proof.
  intros Hw Hh H0 Hg.
  rewrite (count_all_ext g (λ i j, bool_decide (i = 0 ∧ j = 0)) wd ht).
  - unfold count_all, count_before.
    assert (∀ g', count_row g' ht 0 = 0) as -> by done.
    rewrite (sum_range_update (λ _, 0) _ 0 (Z.to_nat ht) 0); [|lia|].
    + rewrite sum_range_zero. unfold count_row.
      rewrite (sum_range_update (λ _, 0) _ 0 (Z.to_nat wd) 0); [|lia|].
      * rewrite sum_range_zero. by rewrite bool_decide_eq_true_2.
      * intros i Hi. rewrite bool_decide_eq_false_2; [done|lia].
    + intros j Hj. unfold count_row.
      rewrite (sum_range_ext _ (λ _, 0)); [apply sum_range_zero|].
      intros i _. rewrite bool_decide_eq_false_2; [done|lia].
  - intros i j Hi Hj. case_bool_decide as Hd.
    + destruct Hd as [-> ->]. done.
    + apply Hg; [done..|]. intros [= -> ->]. by apply Hd.
Qed.

(** ** Labels in scan order *)

Lemma label_cell_self li li' x y v :
  data li' = <[label_index li x y := v]> (data li) → w li' = w li →
  KOKI_LABELLED_IMAGE_LABEL li' x y = Some v.
Proof.
  intros Hd Hw. unfold KOKI_LABELLED_IMAGE_LABEL, label_index.
  rewrite Hd, Hw. apply lookup_insert_eq.
Qed.

Lemma label_cell_other li li' x y v i j :
  data li' = <[label_index li x y := v]> (data li) → w li' = w li →
  -1 ≤ x ≤ w li → -1 ≤ i ≤ w li → (i, j) ≠ (x, y) →
  KOKI_LABELLED_IMAGE_LABEL li' i j = KOKI_LABELLED_IMAGE_LABEL li i j.
Proof.
  intros Hd Hw Hx Hi Hne. unfold KOKI_LABELLED_IMAGE_LABEL, label_index.
  rewrite Hd, Hw. fold (label_index li i j). fold (label_index li x y).
  apply lookup_insert_ne. intros E.
  apply label_index_inj in E as [-> ->]; [done|lia..].
Qed.

Lemma outcome_len a n ne nw wv b v a' :
  outcome a n ne nw wv b v a' →
  len a' = len a ∨ (len a' = len a + 1 ∧ v = len a + 1).
Proof. destruct 1; auto. Qed.

Section ScanOrder.

Variable img : IplImage.
Variable t : Z.
Hypothesis Hwf : well_formed img t.

Lemma reach_seed x y li : reach img t x y li → seed_inv img t x y li.
Proof.
  induction 1 as [li Hnew|x y li li' Hr [IHl IHh] Hx Hy Hstep
                 |y li Hr [IHl IHh] Hy].
  - pose proof (label_inv_new img t Hwf li Hnew) as HJ. split.
    + intros i j (Hi & Hj & Hb). lia.
    + intros l Hl. rewrite (inv_len _ _ _ _ _ HJ) in Hl.
      rewrite count_before_start in Hl. lia.
  - pose proof (reach_inv img t Hwf x y li Hr) as HJ.
    pose proof (reach_inv img t Hwf (x + 1) y li'
                  (reach_pixel img t x y li li' Hr Hx Hy Hstep)) as HJ'.
    destruct (label_pixel_outcome img t Hwf li x y HJ Hx Hy)
      as (n & ne & nw & wv & v & a' & _ & _ & _ & _ & Hout & Hstep').
    rewrite Hstep' in Hstep. injection Hstep as <-.
    apply outcome_len in Hout.
    pose proof (inv_len _ _ _ _ _ HJ) as Hlen.
    pose proof (inv_len _ _ _ _ _ HJ') as Hlen'. cbn [aliases] in Hlen'.
    rewrite count_before_succ in Hlen' by lia.
    pose proof (inv_w _ _ _ _ _ HJ) as Hwl.
    split.
    + intros i j (Hi & Hj & Hb) Hs.
      destruct (decide ((i, j) = (x, y))) as [[= -> ->]|Hne].
      * rewrite Hs in Hlen'. cbn [b2z] in Hlen'.
        rewrite (label_cell_self li _ x y v); [|done..].
        unfold seed_rank. f_equal. lia.
      * rewrite (label_cell_other li _ x y v i j); [|done|done|lia|lia|done].
        assert (i ≠ x ∨ j ≠ y) as Hxy.
        { destruct (decide (i = x)) as [->|]; [|by left].
          right. intros ->. by apply Hne. }
        apply IHl; [|done]. unfold scanned. lia.
    + cbn [aliases]. intros l Hl.
      destruct (decide (l ≤ len (aliases li))) as [Hle|Hgt].
      * destruct (IHh l) as (i & j & (Hi & Hj & Hb) & Hs & Hrk); [lia|].
        exists i, j. split; [|done]. unfold scanned. lia.
      * exists x, y.
        assert (is_seed img t x y = true) as Hs.
        { destruct (is_seed img t x y); [done|]. cbn [b2z] in Hlen'. lia. }
        rewrite Hs in Hlen'. cbn [b2z] in Hlen'.
        split; [unfold scanned; lia|]. split; [done|].
        unfold seed_rank. lia.
  - split.
    + intros i j (Hi & Hj & Hb) Hs. apply IHl; [|done].
      unfold scanned. lia.
    + intros l Hl. destruct (IHh l Hl) as (i & j & (Hi & Hj & Hb) & Hs & Hrk).
      exists i, j. split; [|done]. unfold scanned. lia.
Qed.

End ScanOrder.

(** ** The result of a run *)





(** ** Regions and their records *)

Lemma final_id_canonical li x y c :
  alias_ok (aliases li) → final_id li x y = Some c → c ≠ 0 →
  resolve (aliases li) c = Some c.
Proof.
  intros Ha Hf Hc. unfold final_id in Hf.
  destruct (KOKI_LABELLED_IMAGE_LABEL li x y) as [l|]; [|done].
  osimpl in Hf. destruct (l =? 0); [congruence|].
  by destruct (resolve_canonical _ _ _ Ha Hf) as (_ & _ & ? & _).
Qed.

Lemma final_id_labelled li x y l c :
  KOKI_LABELLED_IMAGE_LABEL li x y = Some l → l ≠ 0 →
  resolve (aliases li) l = Some c → final_id li x y = Some c.
Proof.
  intros Hl Hl0 Hc. unfold final_id. rewrite Hl. osimpl.
  by destruct (Z.eqb_spec l 0).
Qed.









(** ** What each pass leaves alone *)

Lemma iterM_preserve {St : Type} (P : St → Prop)
    (body : Z → St → option St) (n : nat) (lo : Z) (s s' : St) :
  (∀ i s s', body i s = Some s' → P s → P s') →
  iterM n lo body s = Some s' → P s → P s'.
Proof.
  intros Hbody Hrun Hs.
  apply (iterM_post (λ _, P) body n lo s s' Hrun Hs).
  intros i s1 s2 _ H1 H2. by apply (Hbody i s1 s2).
Qed.

Lemma for_u16_preserve {St : Type} (P : St → Prop)
    (body : Z → St → option St) (lo bound : Z) (s s' : St) :
  (∀ i s s', body i s = Some s' → P s → P s') →
  for_u16 lo bound body s = Some s' → P s → P s'.
Proof.
  intros Hbody. unfold for_u16. destruct (65535 <? bound); [done|].
  by apply iterM_preserve.
Qed.

Lemma label_pass_clips img t li0 li :
  label_pass img t li0 = Some li →
  clips li = clips li0 ∧ w li = w li0 ∧ h li = h li0.
Proof.
  intros Hrun.
  apply (for_u16_preserve
           (λ s, clips s = clips li0 ∧ w s = w li0 ∧ h s = h li0)
           _ _ _ li0 li) in Hrun; [done| |done].
  intros y s s' Hrow Hs.
  apply (for_u16_preserve
           (λ s, clips s = clips li0 ∧ w s = w li0 ∧ h s = h li0)
           _ _ _ s s') in Hrow; [done| |done].
  intros x s1 s2 Hstep (? & ? & ?).
  apply label_pixel_frame in Hstep as (v & _ & ? & ? & ?).
  split_and!; congruence.
Qed.

Lemma stats_pass_keeps img li li' :
  stats_pass img li = Some li' →
  data li' = data li ∧ w li' = w li ∧ h li' = h li ∧ aliases li' = aliases li.
Proof.
  unfold stats_pass.
  destruct (find_max_alias (aliases li)) as [m|]; [|done]. osimpl.
  destruct (init_clips m (clips li)) as [c|]; [|done]. osimpl.
  intros Hrun.
  apply (for_u16_preserve
           (λ s, data s = data li ∧ w s = w li ∧ h s = h li
                 ∧ aliases s = aliases li)
           _ _ _ (with_clips li c) li') in Hrun; [done| |done].
  intros y s s' Hrow Hs.
  apply (for_u16_preserve
           (λ s, data s = data li ∧ w s = w li ∧ h s = h li
                 ∧ aliases s = aliases li)
           _ _ _ s s') in Hrow; [done| |done].
  intros x s1 s2 Hstep (? & ? & ? & ?).
  apply gather_pixel_frame in Hstep as (? & ? & ? & ?).
  split_and!; congruence.
Qed.

(** X17: The two passes keep to their own data.  Whenever a run returns, the
    labelling pass has left the array of records empty, and the statistics
    pass has changed neither the grid of labels nor the alias table: they
    are those with which the labelling pass ended. *)
Theorem passes_keep_to_their_data (float_mul : Q → Q → Q) (img : IplImage)
    (threshold : Q) (li' : koki_labelled_image_t) :
  koki_label_image float_mul img threshold = Some li' →
  ∃ li0 li,
    koki_labelled_image_new (u16 (width img)) (u16 (height img)) = Some li0
    ∧ label_pass img (threshold_x_3_of float_mul threshold) li0 = Some li
    ∧ len (clips li) = 0
    ∧ data li' = data li ∧ aliases li' = aliases li
    ∧ w li' = u16 (width img) ∧ h li' = u16 (height img).
Proof.
  unfold koki_label_image.
  destruct (koki_labelled_image_new _ _) as [li0|] eqn:Hnew; [|done]. osimpl.
  destruct (label_pass _ _ li0) as [li|] eqn:Hpass; [|done]. osimpl.
  intros Hst. exists li0, li.
  apply stats_pass_keeps in Hst as (Hd & Hw & Hh & Ha).
  pose proof (label_pass_clips _ _ _ _ Hpass) as (Hc & Hw1 & Hh1).
  pose proof (koki_labelled_image_new_Some _ _ _ Hnew) as (Hw0 & Hh0 & Hsz).
  pose proof (Z.mod_pos_bound (width img) 65536 ltac:(lia)) as Hwb.
  pose proof (Z.mod_pos_bound (height img) 65536 ltac:(lia)) as Hhb.
  fold (u16 (width img)) in Hwb. fold (u16 (height img)) in Hhb.
  destruct (koki_labelled_image_new_spec (u16 (width img)) (u16 (height img)))
    as (li0' & Hnew' & Hw2 & Hh2 & _ & Hc2 & _); [lia..|].
  assert (li0' = li0) as -> by congruence.
  split_and!; try done; try congruence.
  by rewrite Hc, Hc2.
Qed.

Lemma passes_keep_to_their_data_witness :
  ∃ li', koki_label_image Qmult image_merge (1 # 2) = Some li'
    ∧ ∃ li0 li,
        koki_labelled_image_new (u16 (width image_merge))
          (u16 (height image_merge)) = Some li0
        ∧ label_pass image_merge (threshold_x_3_of Qmult (1 # 2)) li0
          = Some li
        ∧ len (clips li) = 0
        ∧ data li' = data li ∧ aliases li' = aliases li
        ∧ w li' = u16 (width image_merge) ∧ h li' = u16 (height image_merge).
Proof.
  destruct (koki_label_image Qmult image_merge (1 # 2)) as [li'|] eqn:E;
    [|vm_compute in E; discriminate].
  exists li'. split; [done|].
  apply (passes_keep_to_their_data Qmult image_merge (1 # 2) li' E).
Defined.

(** ** Images of one colour *)

Lemma foreground_outside img t x y :
  ¬ (0 ≤ x < width img ∧ 0 ≤ y < height img) → foreground img t x y = false.
Proof.
  intros Hout. unfold foreground.
  destruct (Z.leb_spec 0 x); [|done].
  destruct (Z.ltb_spec x (width img)); [|done].
  destruct (Z.leb_spec 0 y); [|done].
  destruct (Z.ltb_spec y (height img)); [|done]. lia.
Qed.





(** ** The image matters through its classification alone *)

Lemma iterM_ext {St : Type} (f g : Z → St → option St) (n : nat) (lo : Z)
    (s : St) :
  (∀ i s, lo ≤ i < lo + Z.of_nat n → f i s = g i s) →
  iterM n lo f s = iterM n lo g s.
Proof.
  revert lo s. induction n as [|n IH]; intros lo s Hfg; [done|].
  cbn [iterM]. rewrite Hfg by lia. destruct (g lo s) as [s'|]; [|done].
  apply IH. intros i s1 Hi. apply Hfg. lia.
Qed.

Lemma for_u16_ext {St : Type} (f g : Z → St → option St) (lo bound : Z)
    (s : St) :
  (∀ i s, lo ≤ i < bound → f i s = g i s) →
  for_u16 lo bound f s = for_u16 lo bound g s.
Proof.
  intros Hfg. unfold for_u16. destruct (65535 <? bound); [done|].
  apply iterM_ext. intros i s1 Hi. apply Hfg. lia.
Qed.



(** ** The debug image *)

Lemma u8_range z : 0 ≤ u8 z ≤ 255.
Proof. unfold u8. pose proof (Z.mod_pos_bound z 256 ltac:(lia)). lia. Qed.

Lemma u8_u8 z : u8 (u8 z) = u8 z.
Proof. unfold u8. apply Z.mod_mod. lia. Qed.

Lemma colour_of_u8 rgb l : u8 (colour_of rgb l) = colour_of rgb l.
Proof.
  unfold colour_of, colour_r, colour_g, colour_b.
  destruct (rgb =? 0); [apply u8_u8|]. destruct (rgb =? 1); apply u8_u8.
Qed.

Lemma colour_mod (k m l : Z) :
  u8 ((l + k) * m mod 256) = u8 ((l mod 256 + k) * m mod 256).
Proof.
  f_equal. rewrite (Z.div_mod l 256) at 1 by lia.
  replace ((256 * (l / 256) + l mod 256 + k) * m)
    with ((l mod 256 + k) * m + (l / 256 * m) * 256) by ring.
  apply Z.mod_add. lia.
Qed.

Lemma colour_r_inj a b :
  0 ≤ a < 256 → 0 ≤ b < 256 → colour_r a = colour_r b → a = b.
Proof.
  intros Ha Hb E.
  assert (∀ c, 0 ≤ c < 256 → (colour_r c * 167) mod 256 = (c + 37) mod 256)
    as Hinv.
  { intros c Hc. unfold colour_r, u8. rewrite Z.mod_mod by lia.
    rewrite Z.mul_mod_idemp_l by lia.
    replace ((c + 37) * 791 * 167) with (c + 37 + (c + 37) * 516 * 256)
      by ring.
    apply Z.mod_add. lia. }
  pose proof (Hinv a Ha) as Ea. pose proof (Hinv b Hb) as Eb.
  rewrite E in Ea. rewrite Ea in Eb. clear E Ea Hinv.
  revert Eb. Z.div_mod_to_equations. lia.
Qed.

(** X28: Two labels are drawn in the same colour exactly when they differ by a
    multiple of 256: labels less than 256 apart are told apart, and the
    labels 256, 512, ... are drawn in the colour of the background. *)
Theorem debug_colours_collide_iff (l1 l2 : Z) :
  (colour_r l1 = colour_r l2 ∧ colour_g l1 = colour_g l2
   ∧ colour_b l1 = colour_b l2)
  ↔ l1 mod 256 = l2 mod 256.
Proof.
  split.
  - intros (Hr & _). unfold colour_r in Hr.
    rewrite (colour_mod 37 791 l1), (colour_mod 37 791 l2) in Hr.
    apply colour_r_inj in Hr; [done|apply Z.mod_pos_bound; lia..].
  - intros E. unfold colour_r, colour_g, colour_b.
    rewrite (colour_mod 37 791 l1), (colour_mod 19 567 l1),
      (colour_mod 51 354 l1), E.
    by rewrite <- (colour_mod 37 791 l2), <- (colour_mod 19 567 l2),
      <- (colour_mod 51 354 l2).
Qed.

Lemma pixel_offset_inj ws wd i j c i' j' c' :
  3 * wd ≤ ws → 0 ≤ i < wd → 0 ≤ i' < wd → 0 ≤ c < 3 → 0 ≤ c' < 3 →
  ws * j + (i * 3 + c) = ws * j' + (i' * 3 + c') →
  i = i' ∧ j = j' ∧ c = c'.
Proof.
  intros Hws Hi Hi' Hc Hc' E.
  destruct (cell_inj ws j (i * 3 + c) j' (i' * 3 + c')); lia.
Qed.

Lemma KOKI_IPLIMAGE_ELEM_set_Some img x y rgb v :
  3 * width img ≤ widthStep img →
  0 ≤ x < width img → 0 ≤ y < height img → 0 ≤ rgb < 3 →
  KOKI_IPLIMAGE_ELEM_set img x y rgb v
  = Some (mkIplImage (width img) (height img) (widthStep img)
            (λ o, if o =? widthStep img * y + (x * 3 + rgb) then v
                  else imageData img o)).
Proof.
  intros Hws Hx Hy Hc. unfold KOKI_IPLIMAGE_ELEM_set.
  destruct (Z.leb_spec 0 (widthStep img * y + (x * 3 + rgb))); [|nia].
  destruct (Z.ltb_spec (widthStep img * y + (x * 3 + rgb))
              (widthStep img * height img)); [done|nia].
Qed.

Section DebugImageFacts.

Variable li : koki_labelled_image_t.
Variable image0 : IplImage.
Hypothesis Hstep : 3 * w li ≤ widthStep image0.

Lemma draw_pixel image x y l :
  drawn li image0 x y image → 0 ≤ x < w li → 0 ≤ y < h li →
  KOKI_LABELLED_IMAGE_LABEL li x y = Some l →
  ∃ image',
    (image ← KOKI_IPLIMAGE_ELEM_set image x y 0 (colour_r l);
     image ← KOKI_IPLIMAGE_ELEM_set image x y 1 (colour_g l);
     KOKI_IPLIMAGE_ELEM_set image x y 2 (colour_b l)) = Some image'
    ∧ drawn li image0 (x + 1) y image'.
Proof.
  intros (Hwi & Hhi & Hsi & Hpix & Hrest) Hx Hy Hl.
  rewrite KOKI_IPLIMAGE_ELEM_set_Some by lia. osimpl.
  rewrite KOKI_IPLIMAGE_ELEM_set_Some by (cbn [width height widthStep]; lia).
  osimpl.
  rewrite KOKI_IPLIMAGE_ELEM_set_Some by (cbn [width height widthStep]; lia).
  eexists. split; [done|]. cbn [width height widthStep imageData].
  unfold drawn. cbn [width height widthStep imageData]. rewrite Hsi.
  split_and!; try done.
  - intros i j c l' (Hi & Hj & Hb) Hc Hl'.
    destruct (decide ((i, j) = (x, y))) as [[= -> ->]|Hne].
    + assert (l' = l) as -> by congruence. unfold colour_of.
      assert (c = 0 ∨ c = 1 ∨ c = 2) as [-> | [-> | ->]] by lia.
      * rewrite (proj2 (Z.eqb_neq _ _)) by lia.
        rewrite (proj2 (Z.eqb_neq _ _)) by lia.
        by rewrite Z.eqb_refl.
      * rewrite (proj2 (Z.eqb_neq _ _)) by lia. by rewrite Z.eqb_refl.
      * by rewrite Z.eqb_refl.
    + assert (∀ c', 0 ≤ c' < 3 →
                widthStep image0 * j + (i * 3 + c)
                ≠ widthStep image0 * y + (x * 3 + c')) as Hoff.
      { intros c' Hc' E.
        apply (pixel_offset_inj _ (w li)) in E as (-> & -> & _);
          [by apply Hne|lia..]. }
      rewrite !(proj2 (Z.eqb_neq _ _)) by (apply Hoff; lia).
      apply Hpix; [|done|done]. unfold scanned.
      assert (i ≠ x ∨ j ≠ y) as Hxy.
      { destruct (decide (i = x)) as [->|]; [|by left].
        right. intros ->. by apply Hne. }
      lia.
  - intros o Ho.
    rewrite !(proj2 (Z.eqb_neq _ _))
      by (apply Ho; [unfold scanned|]; lia).
    apply Hrest. intros i j c (Hi & Hj & Hb) Hc.
    apply Ho; [unfold scanned|]; lia.
Qed.

Lemma drawn_row image y :
  0 ≤ y → drawn li image0 (w li) y image → drawn li image0 0 (y + 1) image.
Proof.
  intros Hy (Hwi & Hhi & Hsi & Hpix & Hrest). unfold drawn.
  split_and!; try done.
  - intros i j c l (Hi & Hj & Hb). apply Hpix. unfold scanned. lia.
  - intros o Ho. apply Hrest. intros i j c (Hi & Hj & Hb).
    apply Ho. unfold scanned. lia.
Qed.

End DebugImageFacts.

Lemma koki_labelled_image_to_IplImage_drawn
    (cvCreateImage : Z → Z → IplImage) (li : koki_labelled_image_t) :
  let image0 := cvCreateImage (w li) (h li) in
  width image0 = w li → height image0 = h li →
  3 * w li ≤ widthStep image0 → 0 ≤ w li → 0 ≤ h li →
  (∀ x y, 0 ≤ x < w li → 0 ≤ y < h li →
     is_Some (KOKI_LABELLED_IMAGE_LABEL li x y)) →
  ∃ image,
    koki_labelled_image_to_IplImage cvCreateImage li = Some image
    ∧ drawn li image0 0 (h li) image.
Proof.
  intros image0 Hwidth Hheight Hstep Hw Hh Hdef.
  unfold koki_labelled_image_to_IplImage. fold image0. rewrite Hheight.
  apply (for_int_inv (λ y image, drawn li image0 0 y image)); [done| |].
  - unfold drawn. split_and!; try done.
    intros i j c l (Hi & Hj & Hb). lia.
  - intros y image Hy Himg. pose proof Himg as (Hwi & _). rewrite Hwi.
    destruct (for_int_inv (λ x image, drawn li image0 x y image)
      (λ x image,
         label ← KOKI_LABELLED_IMAGE_LABEL li x y;
         let r := colour_r label in
         let g := colour_g label in
         let b := colour_b label in
         image ← KOKI_IPLIMAGE_ELEM_set image x y 0 r;
         image ← KOKI_IPLIMAGE_ELEM_set image x y 1 g;
         KOKI_IPLIMAGE_ELEM_set image x y 2 b)
      0 (w li) image) as (image' & Hrow & Hdr); [done|done| |].
    + intros x image1 Hx Himg1.
      destruct (Hdef x y Hx Hy) as (l & Hl). rewrite Hl. osimpl. cbv zeta.
      by apply (draw_pixel li image0 Hstep image1 x y l).
    + exists image'. split; [done|]. apply drawn_row; [lia|done].
Qed.

Lemma drawn_pixel li image0 image x y l :
  drawn li image0 0 (h li) image → 0 ≤ x < w li → 0 ≤ y < h li →
  KOKI_LABELLED_IMAGE_LABEL li x y = Some l →
  KOKI_IPLIMAGE_ELEM image x y 0 = colour_r l
  ∧ KOKI_IPLIMAGE_ELEM image x y 1 = colour_g l
  ∧ KOKI_IPLIMAGE_ELEM image x y 2 = colour_b l.
Proof.
  intros (Hwi & Hhi & Hsi & Hpix & Hrest) Hx Hy Hl.
  assert (∀ c, 0 ≤ c < 3 → KOKI_IPLIMAGE_ELEM image x y c = colour_of c l)
    as Hc.
  { intros c Hc. unfold KOKI_IPLIMAGE_ELEM. rewrite Hsi.
    rewrite (Hpix x y c l); [apply colour_of_u8| |done|done].
    unfold scanned. lia. }
  split_and!; [apply (Hc 0)|apply (Hc 1)|apply (Hc 2)]; lia.
Qed.







(** ** One labelling step *)



(** ** Labels above 32767 *)



(** The run on [image_specks_diagonal] up to the pixel (1,32769). *)
Lemma image_specks_diagonal_step :
  (li0 ← koki_labelled_image_new (u16 (width image_specks_diagonal))
          (u16 (height image_specks_diagonal));
   li ← label_until image_specks_diagonal 382 1 32769 li0;
   Some (get_connected_label li 1 32769 Dir.N,
         get_connected_label li 1 32769 Dir.NE,
         get_connected_label li 1 32769 Dir.NW,
         get_connected_label li 1 32769 Dir.W))
  = Some (Some 0, Some 32770, Some 32769, Some 0).
Proof.
  vm_cast_no_check (eq_refl (Some (Some 0, Some 32770, Some 32769, Some 0))).
Qed.



(** ** Mass and area *)

Lemma sum_range_mono f g lo n :
  (∀ i, lo ≤ i < lo + Z.of_nat n → f i ≤ g i) →
  sum_range f lo n ≤ sum_range g lo n.
Proof.
  revert lo. induction n as [|n IH]; intros lo Hfg; [done|].
  cbn [sum_range]. specialize (IH (lo + 1)).
  pose proof (Hfg lo ltac:(lia)).
  assert (sum_range f (lo + 1) n ≤ sum_range g (lo + 1) n); [|lia].
  apply IH. intros i Hi. apply Hfg. lia.
Qed.

Lemma count_all_mono g g' wd ht :
  (∀ i j, 0 ≤ i < wd → 0 ≤ j < ht → g i j = true → g' i j = true) →
  count_all g wd ht ≤ count_all g' wd ht.
Proof.
  intros Hg. unfold count_all, count_before.
  assert (∀ g0, count_row g0 ht 0 = 0) as Hz by done. rewrite !Hz.
  assert (sum_range (λ j, count_row g j wd) 0 (Z.to_nat ht)
          ≤ sum_range (λ j, count_row g' j wd) 0 (Z.to_nat ht)); [|lia].
  apply sum_range_mono. intros j Hj. unfold count_row.
  apply sum_range_mono. intros i Hi.
  destruct (g i j) eqn:E; [|apply b2z_nonneg].
  rewrite (Hg i j) by (done || lia). done.
Qed.

Lemma sum_range_interval c a b n :
  0 ≤ a → a ≤ b + 1 → b < Z.of_nat n →
  sum_range (λ i, if bool_decide (a ≤ i ≤ b) then c else 0) 0 n
  = c * (b - a + 1).
Proof.
  intros Ha Hab Hb.
  assert (∀ k, sum_range (λ i, if bool_decide (a ≤ i ≤ b) then c else 0) 0 k
               = c * Z.max 0 (Z.min (Z.of_nat k) (b + 1) - a)) as Hk.
  { induction k as [|k IH].
    - cbn [sum_range]. replace (Z.max 0 (Z.min (Z.of_nat 0) (b + 1) - a))
        with 0 by lia. lia.
    - rewrite sum_range_snoc, IH. rewrite Z.add_0_l.
      case_bool_decide.
      + replace (Z.max 0 (Z.min (Z.of_nat (S k)) (b + 1) - a))
          with (Z.max 0 (Z.min (Z.of_nat k) (b + 1) - a) + 1) by lia.
        ring.
      + replace (Z.max 0 (Z.min (Z.of_nat (S k)) (b + 1) - a))
          with (Z.max 0 (Z.min (Z.of_nat k) (b + 1) - a)) by lia.
        ring. }
  rewrite Hk. f_equal. lia.
Qed.

Lemma count_all_box x0 x1 y0 y1 wd ht :
  0 ≤ x0 → x0 ≤ x1 + 1 → x1 < wd → 0 ≤ y0 → y0 ≤ y1 + 1 → y1 < ht →
  count_all (λ i j, bool_decide (x0 ≤ i ≤ x1 ∧ y0 ≤ j ≤ y1)) wd ht
  = (x1 - x0 + 1) * (y1 - y0 + 1).
Proof.
  intros Hx0 Hx Hx1 Hy0 Hy Hy1. unfold count_all, count_before.
  assert (∀ g0, count_row g0 ht 0 = 0) as Hz by done. rewrite Hz, Z.add_0_r.
  rewrite (sum_range_ext _
             (λ j, if bool_decide (y0 ≤ j ≤ y1) then x1 - x0 + 1 else 0)).
  - apply sum_range_interval; lia.
  - intros j Hj. unfold count_row. case_bool_decide as Hd.
    + rewrite (sum_range_ext _
                 (λ i, if bool_decide (x0 ≤ i ≤ x1) then 1 else 0)).
      * rewrite sum_range_interval by lia. lia.
      * intros i Hi. repeat case_bool_decide; (done || lia).
    + rewrite (sum_range_ext _ (λ _, 0)); [apply sum_range_zero|].
      intros i Hi. case_bool_decide; [lia|done].
Qed.



(** ** Regions in every run *)

(** The invariant is kept by a step that changes the ids as [step_sound]
    says. *)
Lemma sound_step img t li li' x y :
  sound_inv img t x y li →
  0 ≤ x < width img → 0 ≤ y < height img →
  step_sound img t li x y li' →
  sound_inv img t (x + 1) y li'.
Proof.
  intros [Hconn Hvert] Hx Hy (g & Hold & Hmerge & Hnew & Habove).
  assert (∀ r, nbr x y r → fgp img t r = true →
            fgp img t (x, y) = true → connected8 img t (x, y) r) as Hlink.
  { intros r Hr Hf HP. apply rtc_once. split_and!; try done.
    by apply nbr_adjacent. }
  assert (∀ q, before img x y q → fgp img t (x, y) = true →
            fgp img t q = true → fid li' (x, y) = fid li' q →
            connected8 img t (x, y) q) as Hconn1.
  { intros q Hq HP Hfq Heq.
    destruct (Hnew HP) as (c & Hc & Hsrc).
    destruct (Hold q Hq Hfq) as (cq & Hcq & Hcq').
    rewrite Hc, Hcq' in Heq. injection Heq as Heq.
    destruct (Hsrc q cq Hq Hfq Hcq (eq_sym Heq)) as (r & Hr & Hfr & Hcr).
    etrans; [by apply (Hlink r)|].
    apply Hconn; try done; [by apply (nbr_before img t x y)|congruence]. }
  split.
  - intros p q Hp Hq Hfp Hfq Heq.
    apply (before_succ img x y p Hx Hy) in Hp.
    apply (before_succ img x y q Hx Hy) in Hq.
    destruct Hp as [->|Hp], Hq as [->|Hq].
    + done.
    + by apply Hconn1.
    + apply connected8_sym. by apply Hconn1.
    + destruct (Hold p Hp Hfp) as (cp & Hcp & Hcp').
      destruct (Hold q Hq Hfq) as (cq & Hcq & Hcq').
      rewrite Hcp', Hcq' in Heq. injection Heq as Heq.
      destruct (Hmerge p q cp cq Hp Hq Hfp Hfq Hcp Hcq Heq)
        as [->|(HP & r1 & r2 & Hr1 & Hr2 & Hf1 & Hf2 & Hc1 & Hc2)].
      * apply Hconn; try done. congruence.
      * etrans; [apply (Hconn p r1); try done;
                   [by apply (nbr_before img t x y)|congruence]|].
        etrans; [apply connected8_sym; by apply (Hlink r1)|].
        etrans; [by apply (Hlink r2)|].
        apply (Hconn r2 q); try done;
          [by apply (nbr_before img t x y)|congruence].
  - intros i j Hp Hf Hfa.
    apply (before_succ img x y (i, j) Hx Hy) in Hp.
    destruct Hp as [[= -> ->]|Hp]; [by apply Habove|].
    assert (before img x y (i, j - 1)) as Hp'.
    { pose proof (fg_true_in_range img t i (j - 1) Hfa).
      unfold before, scanned in *. cbn [fst snd] in *. lia. }
    destruct (Hold (i, j) Hp Hf) as (c & Hc & ->).
    destruct (Hold (i, j - 1) Hp' Hfa) as (c' & Hc' & ->).
    pose proof (Hvert i j Hp Hf Hfa). congruence.
Qed.

Lemma ren_cases c1 c2 d :
  1 ≤ c1 ≤ 65535 → 1 ≤ c2 ≤ 65535 → 1 ≤ d →
  let m := Z.min (i16 c1) (i16 c2) in
  let M := Z.max (i16 c1) (i16 c2) in
  (u16 m = c1 ∨ u16 m = c2)
  ∧ (ren m M d = d ∨ ((d = c1 ∨ d = c2) ∧ ren m M d = u16 m)).
Proof.
  intros H1 H2 Hd m M. split.
  - unfold m. destruct (Z.min_spec (i16 c1) (i16 c2)) as [[_ ->]|[_ ->]];
      rewrite u16_i16 by lia; auto.
  - unfold ren. destruct (Z.eqb_spec d M) as [E|]; [|by left]. right.
    split; [|done]. unfold M in E.
    destruct (Z.max_spec (i16 c1) (i16 c2)) as [[_ E']|[_ E']];
      rewrite E' in E.
    + right. destruct (i16_pos c2); lia.
    + left. destruct (i16_pos c1); lia.
Qed.

Section EveryRun.

Variable img : IplImage.
Variable t : Z.
Hypothesis Hwf : well_formed img t.

Local Abbreviation wd := (width img).
Local Abbreviation ht := (height img).

(** The ids after a labelling step, from the case of the step. *)
Lemma outcome_sound li x y n ne nw wv v a' :
  label_inv img t x y li →
  0 ≤ x < wd → 0 ≤ y < ht →
  KOKI_LABELLED_IMAGE_LABEL li x (y - 1) = Some n →
  KOKI_LABELLED_IMAGE_LABEL li (x + 1) (y - 1) = Some ne →
  KOKI_LABELLED_IMAGE_LABEL li (x - 1) (y - 1) = Some nw →
  KOKI_LABELLED_IMAGE_LABEL li (x - 1) y = Some wv →
  outcome (aliases li) n ne nw wv (foreground img t x y) v a' →
  step_sound img t li x y
    (mkLabelled (<[label_index li x y := v]> (data li)) (w li) (h li) a'
       (clips li)).
Proof.
  intros HJ Hx Hy Hn Hne Hnw Hwv Hout.
  set (li' := mkLabelled (<[label_index li x y := v]> (data li)) (w li)
                (h li) a' (clips li)).
  pose proof (inv_len_bound img t Hwf li x y HJ ltac:(lia) Hy) as Hlen.
  pose proof (inv_aliases _ _ _ _ _ HJ) as Hal.
  pose proof (inv_w _ _ _ _ _ HJ) as Hwl.
  destruct (nbr_cell img t li x y x (y - 1) n HJ Hx Hy) as (RN & ZN & PN);
    [unfold nbr; tauto|done|].
  destruct (nbr_cell img t li x y (x + 1) (y - 1) ne HJ Hx Hy)
    as (RNE & ZNE & PNE); [unfold nbr; tauto|done|].
  destruct (nbr_cell img t li x y (x - 1) (y - 1) nw HJ Hx Hy)
    as (RNW & ZNW & PNW); [unfold nbr; tauto|done|].
  destruct (nbr_cell img t li x y (x - 1) y wv HJ Hx Hy) as (RW & ZW & PW);
    [unfold nbr; tauto|done|].
  (* pixels scanned before: their id is their label resolved in [a'] *)
  assert (∀ q, before img x y q → fgp img t q = true →
            ∃ l c, resolve (aliases li) l = Some c ∧ fid li q = Some c
                   ∧ 1 ≤ c ≤ len (aliases li)
                   ∧ fid li' q = resolve a' l) as Hold.
  { intros q Hq Hfq.
    destruct (fid_before img t li x y q HJ Hq Hfq)
      as (l & c & Hl & Hlr & Hc & Hf & Hcr).
    exists l, c. split_and!; try done; try lia.
    unfold fid, final_id, li'. destruct q as [i j]. cbn [fst snd] in *.
    rewrite step_cell_other, Hl.
    - osimpl. destruct (Z.eqb_spec l 0); [lia|done].
    - unfold before, scanned in Hq. simpl in Hq. lia.
    - unfold before, scanned in Hq. simpl in Hq. intros [= -> ->]. lia.
    - lia. }
  (* the pixel itself *)
  assert (∀ c, v = c → 1 ≤ c → resolve a' c = Some c →
            fid li' (x, y) = Some c) as Hself.
  { intros c -> Hc Hr. unfold fid, final_id, li'. cbn [fst snd].
    rewrite step_cell_self. osimpl. destruct (Z.eqb_spec c 0); [lia|done]. }
  (* the pixel inherits the id [c] of its neighbour [r] *)
  assert (∀ r l c, a' = aliases li → v = c →
            foreground img t x y = true →
            nbr x y r → KOKI_LABELLED_IMAGE_LABEL li r.1 r.2 = Some l →
            0 < l → resolve (aliases li) l = Some c →
            (fgp img t (x, y - 1) = true → r = (x, y - 1)) →
            step_sound img t li x y li') as Hinherit.
  { intros [i j] l c Ha Hv HP Hr Hl Hpos Hc Hup. cbn [fst snd] in Hl.
    destruct (resolve_canonical _ _ _ Hal Hc) as (_ & Hcr & Hcc & _).
    destruct (nbr_cell img t li x y i j l HJ Hx Hy Hr Hl) as (_ & _ & Pr).
    destruct (Pr Hpos) as (Fr & Br & Ir).
    assert (∀ q, before img x y q → fgp img t q = true →
              ∃ c', fid li q = Some c' ∧ fid li' q = Some c') as Hsame.
    { intros q Hq Hfq.
      destruct (Hold q Hq Hfq) as (l' & c' & Hr' & Hf & _ & ->).
      exists c'. by rewrite Ha. }
    exists (λ d, d). split_and!.
    - done.
    - intros p q cp cq _ _ _ _ _ _ E. by left.
    - intros _. exists c. split.
      + apply Hself; [done|lia|by rewrite Ha].
      + intros q cq Hq Hfq Hcq <-. exists (i, j).
        split_and!; [done|done|congruence].
    - intros _ Hfa. specialize (Hup Hfa). injection Hup as -> ->.
      destruct (Hsame (x, y - 1) Br Fr) as (c' & Hc' & ->).
      rewrite (Hself c); [congruence|done|lia|by rewrite Ha]. }
  remember (foreground img t x y) as b eqn:Eb. symmetry in Eb.
  destruct Hout as [|c Hpos Hc|c Hn0 Hpos Hw0 Hnw0 Hc
                   |l c1 c2 Hn0 Hpos Hl Hc1 Hc2
                   |c Hn0 Hne0 Hpos Hc|c Hn0 Hne0 Hnw0 Hpos Hc
                   |Hn0 Hne0 Hnw0 Hw0 Hnew].
  - (* background *)
    exists (λ d, d). unfold fgp. cbn [fst snd]. rewrite Eb.
    split_and!; try done.
    + intros q Hq Hfq. destruct (Hold q Hq Hfq) as (l & c & Hr & Hf & _ & ->).
      by exists c.
    + intros p q cp cq _ _ _ _ _ _ E. by left.
  - (* North *)
    by apply (Hinherit (x, y - 1) n c); try done; unfold nbr; tauto.
  - (* North-East alone *)
    apply (Hinherit (x + 1, y - 1) ne c); try done; [unfold nbr; tauto|].
    intros Hfa. rewrite ZN in Hfa; [done|lia].
  - (* merge *)
    destruct (resolve_canonical _ _ _ Hal Hc1) as (_ & Hc1r & Hc1c & _).
    destruct (resolve_canonical _ _ _ Hal Hc2) as (Hlr & Hc2r & Hc2c & _).
    destruct (PNE Hpos) as (FNE & BNE & INE).
    assert (∃ r2, nbr x y r2 ∧ fgp img t r2 = true ∧ fid li r2 = Some c2)
      as (r2 & Hr2 & Hf2 & Hi2).
    { destruct Hl as [[_ ->]|(_ & _ & ->)].
      - destruct PNW as (FNW & BNW & INW); [lia|].
        exists (x - 1, y - 1). split_and!; [unfold nbr; tauto|done|congruence].
      - destruct PW as (FW & BW & IW); [lia|].
        exists (x - 1, y). split_and!; [unfold nbr; tauto|done|congruence]. }
    assert (∀ c, c = c1 ∨ c = c2 →
              ∃ r, nbr x y r ∧ fgp img t r = true ∧ fid li r = Some c) as Hnb.
    { intros c [->| ->]; [|by exists r2].
      exists (x + 1, y - 1). split_and!; [unfold nbr; tauto|done|congruence]. }
    set (m := Z.min (i16 c1) (i16 c2)) in *.
    set (M := Z.max (i16 c1) (i16 c2)) in *.
    assert (∀ d, 1 ≤ d →
              (u16 m = c1 ∨ u16 m = c2)
              ∧ (ren m M d = d ∨ ((d = c1 ∨ d = c2) ∧ ren m M d = u16 m)))
      as Hren.
    { intros d Hd. apply (ren_cases c1 c2 d); lia. }
    destruct (Hren 1 ltac:(lia)) as (Hm & _).
    exists (ren m M). split_and!.
    + intros q Hq Hfq.
      destruct (Hold q Hq Hfq) as (l' & c' & Hr & Hf & Hcr' & ->).
      exists c'. split; [done|]. by rewrite resolve_ren, Hr.
    + intros p q cp cq Hp Hq Hfp Hfq Hcp Hcq E.
      destruct (Hold p Hp Hfp) as (lp & cp' & _ & Hfp' & Hcpr & _).
      destruct (Hold q Hq Hfq) as (lq & cq' & _ & Hfq' & Hcqr & _).
      assert (cp' = cp) as -> by congruence.
      assert (cq' = cq) as -> by congruence.
      destruct (Hren cp ltac:(lia)) as (_ & [Ep|[Hcp' Ep]]);
        destruct (Hren cq ltac:(lia)) as (_ & [Eq|[Hcq' Eq]]).
      * left. congruence.
      * right. split; [done|].
        destruct (Hnb cp) as (r1 & ? & ? & ?);
          [rewrite <- Ep, E, Eq; tauto|].
        destruct (Hnb cq Hcq') as (r2' & ? & ? & ?).
        by exists r1, r2'.
      * right. split; [done|].
        destruct (Hnb cp Hcp') as (r1 & ? & ? & ?).
        destruct (Hnb cq) as (r2' & ? & ? & ?);
          [rewrite <- Eq, <- E, Ep; tauto|].
        by exists r1, r2'.
      * right. split; [done|].
        destruct (Hnb cp Hcp') as (r1 & ? & ? & ?).
        destruct (Hnb cq Hcq') as (r2' & ? & ? & ?).
        by exists r1, r2'.
    + intros _. exists (u16 m). split.
      * apply Hself; [done|lia|]. rewrite resolve_ren.
        assert (resolve (aliases li) (u16 m) = Some (u16 m)) as ->.
        { destruct Hm as [->| ->]; done. }
        cbn [fmap option_fmap option_map]. f_equal.
        destruct (Hren (u16 m) ltac:(lia)) as (_ & [E|[_ E]]); done.
      * intros q cq Hq Hfq Hcq E.
        destruct (Hold q Hq Hfq) as (lq & cq' & _ & Hfq' & Hcqr & _).
        assert (cq' = cq) as -> by congruence.
        apply Hnb.
        destruct (Hren cq ltac:(lia)) as (_ & [Eq|[Hcq' Eq]]); [|done].
        rewrite <- Eq, E. tauto.
    + intros _ Hfa. rewrite ZN in Hfa; [done|lia].
  - (* North-West *)
    apply (Hinherit (x - 1, y - 1) nw c); try done; [unfold nbr; tauto|].
    intros Hfa. rewrite ZN in Hfa; [done|lia].
  - (* West *)
    apply (Hinherit (x - 1, y) wv c); try done; [unfold nbr; tauto|].
    intros Hfa. rewrite ZN in Hfa; [done|lia].
  - (* a new region *)
    destruct Hal as (Hl0 & Hdom & Hok).
    exists (λ d, d). split_and!.
    + intros q Hq Hfq. destruct (Hold q Hq Hfq) as (l & c' & Hr & Hf & _ & ->).
      exists c'. split; [done|]. by apply resolve_append.
    + intros p q cp cq _ _ _ _ _ _ E. by left.
    + intros _. exists (len (aliases li) + 1). split.
      * apply Hself; [done|lia|]. unfold resolve.
        rewrite g_array_index_in by (simpl; lia). simpl.
        replace (len (aliases li) + 1 - 1) with (len (aliases li)) by lia.
        by rewrite lookup_insert_eq.
      * intros q cq Hq Hfq Hcq E.
        destruct (Hold q Hq Hfq) as (l & c' & Hr & Hf & Hcr & _).
        rewrite Hf in Hcq. injection Hcq as ->. lia.
    + intros _ Hfa. rewrite ZN in Hfa; [done|lia].
Qed.

Lemma reach_sound x y li : reach img t x y li → sound_inv img t x y li.
Proof.
  induction 1 as [li Hnew|x y li li' Hr IH Hx Hy Hstep|y li Hr [IHc IHv] Hy].
  - split.
    + intros p q Hp. unfold before, scanned in Hp. lia.
    + intros i j Hp. unfold before, scanned in Hp. cbn [fst snd] in Hp. lia.
  - pose proof (reach_inv img t Hwf x y li Hr) as HJ.
    destruct (label_pixel_outcome img t Hwf li x y HJ Hx Hy)
      as (n & ne & nw & wv & v & a' & Hn & Hne & Hnw & Hwv & Hout & Hstep').
    rewrite Hstep' in Hstep. injection Hstep as <-.
    apply (sound_step img t li _ x y IH Hx Hy).
    by apply (outcome_sound li x y n ne nw wv v a').
  - assert (∀ p, before img 0 (y + 1) p → before img wd y p) as Hb.
    { intros p. unfold before, scanned. lia. }
    split.
    + intros p q Hp Hq. apply IHc; by apply Hb.
    + intros i j Hp. apply IHv. by apply Hb.
Qed.

End EveryRun.





(** ** Storing a label *)


(** X4: What [set_label] stores is not the label but its alias, and it changes
    nothing else: read back from a neighbouring pixel, in the direction of
    the pixel, the cell holds 0 for the label 0 and otherwise the value of
    the slot of the label. *)
Theorem set_label_read_back (li li' : koki_labelled_image_t)
    (x y label : Z) (d : Dir.DIRECTION) :
  0 ≤ w li ≤ 65535 → set_label li x y label = Some li' →
  get_connected_label li' (x - (towards d).1) (y - (towards d).2) d
  = (if label =? 0 then Some 0 else resolve (aliases li) label)
  ∧ aliases li' = aliases li ∧ clips li' = clips li
  ∧ w li' = w li ∧ h li' = h li
  ∧ ∀ i, i ≠ label_index li x y → data li' !! i = data li !! i.
Proof.
  intros Hw Hset.
  assert (∃ v, li' = with_data li (<[label_index li x y := v]> (data li))
               ∧ (if label =? 0 then Some 0 else resolve (aliases li) label)
                 = Some v) as (v & -> & ->).
  { unfold set_label in Hset. destruct (label =? 0).
    - exists 0. split; [|done]. by apply data_store_inv in Hset.
    - destruct (label - 1 <? len (aliases li)); [|done]. unfold resolve.
      destruct (g_array_index (aliases li) (label - 1)) as [v|]; [|done].
      osimpl in Hset. exists v. split; [|done].
      by apply data_store_inv in Hset. }
  cbn [with_data aliases clips w h data]. split_and!; try done.
  - unfold get_connected_label. cbn [data w with_data].
    rewrite u16_small by done.
    assert (∀ i, i = label_index li x y →
              <[label_index li x y := v]> (data li) !! i = Some v) as Hi.
    { intros i ->. apply lookup_insert_eq. }
    unfold label_index in Hi.
    destruct d; cbn [towards fst snd]; apply Hi; lia.
  - intros i Hi. by apply lookup_insert_ne.
Qed.

Lemma set_label_read_back_witness :
  ∃ li',
    (0 ≤ w (mkLabelled ∅ 3 2 (mkGArray {[ 0 := 1; 1 := 1 ]} 2) g_array_new)
       ≤ 65535
     ∧ set_label (mkLabelled ∅ 3 2 (mkGArray {[ 0 := 1; 1 := 1 ]} 2)
                    g_array_new) 1 0 2 = Some li')
    ∧ get_connected_label li' (1 - (towards Dir.NE).1)
        (0 - (towards Dir.NE).2) Dir.NE
      = resolve (mkGArray {[ 0 := 1; 1 := 1 ]} 2) 2.
Proof.
  destruct (set_label (mkLabelled ∅ 3 2 (mkGArray {[ 0 := 1; 1 := 1 ]} 2)
                         g_array_new) 1 0 2) as [li'|] eqn:E;
    [|vm_compute in E; discriminate].
  assert (0 ≤ w (mkLabelled ∅ 3 2 (mkGArray {[ 0 := 1; 1 := 1 ]} 2)
                   g_array_new) ≤ 65535) as Hw by (simpl; lia).
  exists li'. split; [done|].
  apply (set_label_read_back _ li' 1 0 2 Dir.NE Hw E).
Defined.

(** ** The threshold *)


